(** * autostart: reconciliation of the startup cache with the Run registry key

    A shallow embedding of the cache/registry logic of [main.go]
    (package [main] of the autostart tool) and the properties its
    specification states about it.

    The program keeps a JSON cache ([autostart.json]) next to the
    executable that mirrors the values of
    [HKCU\Software\Microsoft\Windows\CurrentVersion\Run] and adds an
    enabled/disabled flag.  The registry, the cache file and the few
    [os]/[filepath] calls the code makes are modelled as an explicit
    world state that every operation threads through; console input
    (menu choices, confirmations) is passed to the handlers as
    arguments.  Strings are Go strings, sequences of bytes; the cache
    file gets them as [encoding/json] writes them, with U+FFFD for
    every byte that is not valid UTF-8. *)

From Stdlib Require Import ZArith Lia.
From stdpp Require Import gmap strings list fin_maps.

(** ** Data model *)

(** [type CacheItem struct { Name; Value; Enabled }] *)
Record CacheItem : Type := mkCacheItem {
  Name : string;
  Value : string;
  Enabled : bool
}.

(** [type CacheData struct { Items []CacheItem }] *)
Record CacheData : Type := mkCacheData {
  Items : list CacheItem
}.

#[global] Instance CacheItem_eq_dec : EqDecision CacheItem.
Proof. solve_decision. Defined.

#[global] Instance CacheData_eq_dec : EqDecision CacheData.
Proof. solve_decision. Defined.

(** The names of a document, in document order. *)
Definition names (data : CacheData) : list string := Name <$> Items data.

(** Field assignments [item.Value = v] and [item.Enabled = b]. *)
Definition setValue (v : string) (item : CacheItem) : CacheItem :=
  {| Name := Name item; Value := v; Enabled := Enabled item |}.

Definition setEnabled (b : bool) (item : CacheItem) : CacheItem :=
  {| Name := Name item; Value := Value item; Enabled := b |}.

(** ** Cache helpers *)

(** The loop of [findItemByName]: [i] is the index of the head of
    [items] in the whole slice.  The first item whose name matches is
    returned with its index; [(-1, nil)] when there is none. *)
Fixpoint findFrom (i : Z) (items : list CacheItem) (name : string)
  : Z * option CacheItem :=
  match items with
  | [] => ((-1)%Z, None)
  | item :: rest =>
      if decide (Name item = name) then (i, Some item)
      else findFrom (i + 1)%Z rest name
  end.

Definition findItemByName (data : CacheData) (name : string)
  : Z * option CacheItem :=
  findFrom 0%Z (Items data) name.

(** [addOrUpdateItem]: update value and flag of the first item called
    [name], or append a new item. *)
Definition addOrUpdateItem (data : CacheData) (name value : string)
    (enabled : bool) : CacheData :=
  let '(idx, _) := findItemByName data name in
  if (0 <=? idx)%Z then
    {| Items := alter (setEnabled enabled)
                  (Z.to_nat idx)
                  (alter (setValue value) (Z.to_nat idx) (Items data)) |}
  else
    {| Items := Items data ++
                [ {| Name := name; Value := value; Enabled := enabled |} ] |}.

(** [removeItem]: [append(Items[:idx], Items[idx+1:]...)] for the first
    item called [name]; nothing when there is none. *)
Definition removeItem (data : CacheData) (name : string) : CacheData :=
  let '(idx, _) := findItemByName data name in
  if (0 <=? idx)%Z then
    {| Items := take (Z.to_nat idx) (Items data) ++
                drop (Z.to_nat (idx + 1)) (Items data) |}
  else data.

(** ** The two passes of [syncCacheFromRegistry] *)

(** Step 1: every cached item whose name is not a key of
    [registryItems] gets [Enabled = false]. *)
Definition disableStep (registryItems : gmap string string)
    (item : CacheItem) : CacheItem :=
  match registryItems !! Name item with
  | Some _ => item
  | None => setEnabled false item
  end.

Definition disablePass (registryItems : gmap string string)
    (cache : CacheData) : CacheData :=
  {| Items := disableStep registryItems <$> Items cache |}.

(** Step 2, one iteration of [for name, value := range registryItems]. *)
Definition enableStep (cache : CacheData) (entry : string * string)
  : CacheData :=
  let '(name, value) := entry in
  let '(idx, _) := findItemByName cache name in
  if (0 <=? idx)%Z then
    {| Items := alter (setEnabled true)
                  (Z.to_nat idx)
                  (alter (setValue value) (Z.to_nat idx) (Items cache)) |}
  else
    {| Items := Items cache ++
                [ {| Name := name; Value := value; Enabled := true |} ] |}.

Definition enablePass (entries : list (string * string))
    (cache : CacheData) : CacheData :=
  foldl enableStep cache entries.

(** Go leaves the iteration order of [range] over a map unspecified and
    varies it from one loop to the next.  A [MapRange] is one choice of
    order; it is admissible when it enumerates exactly the entries of
    the map. *)
Definition MapRange : Type := gmap string string → list (string * string).

Definition admissible (range : MapRange) : Prop :=
  ∀ m, range m ≡ₚ map_to_list m.

(** The two passes in sequence, on a snapshot and a loaded document. *)
Definition reconcile (range : MapRange) (registryItems : gmap string string)
    (cache : CacheData) : CacheData :=
  enablePass (range registryItems) (disablePass registryItems cache).

(** ** Errors *)

Inductive result (E A : Type) : Type :=
  | Ok (a : A)
  | Err (e : E).
Arguments Ok {E A} a.
Arguments Err {E A} e.

(** Errors of the [registry] package that the code can observe. *)
Inductive RegError : Type :=
  | ErrNotExist
  | ErrUnexpectedType
  | ErrAccessDenied.

(** Errors of [os.Open], [os.Create] and [json.Decoder.Decode]. *)
Inductive FileError : Type :=
  | FileNotExist
  | FilePermission
  | JsonSyntax.

(** The errors built with [fmt.Errorf] in [AddToStartup],
    [AddCommandToStartup] and [RemoveFromStartup]. *)
Inductive AppError : Type :=
  | AbsPathFailed
  | FileMissing (absPath : string)
  | OpenRegistryFailed (cause : RegError)
  | SetValueFailed (cause : RegError)
  | StartupItemMissing
  | DeleteValueFailed (cause : RegError).

(** ** The Run key *)

(** A registry value; [GetStringValue] reads only string-typed ones. *)
Inductive RegValue : Type :=
  | StringValue (s : string)
  | NonString.

Inductive RegOp : Type :=
  | OpenQuery
  | OpenSet
  | EnumValues
  | QueryValue
  | WriteValue
  | RemoveValue.

(** The values of the Run key under their names, and the operations the
    system currently refuses. *)
Record Registry : Type := mkRegistry {
  values : gmap string RegValue;
  denied : RegOp → bool
}.

Inductive Access : Type := QUERY_VALUE | SET_VALUE.

Definition OpenKey (access : Access) (reg : Registry)
  : result RegError Registry :=
  let op := match access with QUERY_VALUE => OpenQuery | SET_VALUE => OpenSet end in
  if denied reg op then Err ErrAccessDenied else Ok reg.

Definition ReadValueNames (key : Registry) : result RegError (list string) :=
  if denied key EnumValues then Err ErrAccessDenied
  else Ok ((map_to_list (values key)).*1).

Definition GetStringValue (key : Registry) (name : string)
  : result RegError string :=
  if denied key QueryValue then Err ErrAccessDenied
  else match values key !! name with
       | None => Err ErrNotExist
       | Some (StringValue s) => Ok s
       | Some NonString => Err ErrUnexpectedType
       end.

Definition SetStringValue (key : Registry) (name value : string)
  : result RegError Registry :=
  if denied key WriteValue then Err ErrAccessDenied
  else Ok {| values := <[name := StringValue value]> (values key);
             denied := denied key |}.

Definition DeleteValue (key : Registry) (name : string)
  : result RegError Registry :=
  if denied key RemoveValue then Err ErrAccessDenied
  else match values key !! name with
       | None => Err ErrNotExist
       | Some _ => Ok {| values := delete name (values key);
                         denied := denied key |}
       end.

(** ** Strings as [encoding/json] writes and reads them *)

(** A Go string is a sequence of bytes.  [json.Encoder] writes the byte
    sequences that are valid UTF-8 as they are and, one by one, every
    other byte as the replacement character U+FFFD; [json.Decoder]
    treats the bytes of a string of the file in the same way. *)
Definition byteIn (lo hi : N) (b : Ascii.ascii) : bool :=
  (lo <=? Ascii.N_of_ascii b)%N && (Ascii.N_of_ascii b <=? hi)%N.

(** The second byte that [utf8] accepts after the first byte [b0] of a
    sequence of three, and of four. *)
Definition secondOf3 (b0 b1 : Ascii.ascii) : bool :=
  if (Ascii.N_of_ascii b0 =? 224)%N then byteIn 160 191 b1
  else if (Ascii.N_of_ascii b0 =? 237)%N then byteIn 128 159 b1
  else byteIn 128 191 b1.

Definition secondOf4 (b0 b1 : Ascii.ascii) : bool :=
  if (Ascii.N_of_ascii b0 =? 240)%N then byteIn 144 191 b1
  else if (Ascii.N_of_ascii b0 =? 244)%N then byteIn 128 143 b1
  else byteIn 128 191 b1.

(** [utf8.DecodeRuneInString]: the width of the encoding the string
    starts with, or nothing where the function returns
    [(RuneError, 1)]. *)
Definition runeLen (s : string) : option nat :=
  match s with
  | EmptyString => None
  | String b0 rest =>
      if byteIn 0 127 b0 then Some 1%nat
      else if byteIn 194 223 b0 then
        match rest with
        | String b1 _ => if byteIn 128 191 b1 then Some 2%nat else None
        | _ => None
        end
      else if byteIn 224 239 b0 then
        match rest with
        | String b1 (String b2 _) =>
            if secondOf3 b0 b1 && byteIn 128 191 b2 then Some 3%nat
            else None
        | _ => None
        end
      else if byteIn 240 244 b0 then
        match rest with
        | String b1 (String b2 (String b3 _)) =>
            if secondOf4 b0 b1 && byteIn 128 191 b2 && byteIn 128 191 b3
            then Some 4%nat else None
        | _ => None
        end
      else None
  end.

(** U+FFFD in UTF-8, in front of [rest]. *)
Definition replacementChar (rest : string) : string :=
  String (Ascii.ascii_of_nat 239)
    (String (Ascii.ascii_of_nat 191)
       (String (Ascii.ascii_of_nat 189) rest)).

(** The string with [pending] bytes of an accepted encoding still to
    copy. *)
Fixpoint coerceFrom (pending : nat) (s : string) : string :=
  match s with
  | EmptyString => EmptyString
  | String b rest =>
      match pending with
      | S k => String b (coerceFrom k rest)
      | O =>
          match runeLen s with
          | Some n => String b (coerceFrom (n - 1) rest)
          | None => replacementChar (coerceFrom 0 rest)
          end
      end
  end.

Definition toValidUTF8 (s : string) : string := coerceFrom 0 s.

Definition toValidItem (item : CacheItem) : CacheItem :=
  {| Name := toValidUTF8 (Name item);
     Value := toValidUTF8 (Value item);
     Enabled := Enabled item |}.

Definition toValidDoc (data : CacheData) : CacheData :=
  {| Items := toValidItem <$> Items data |}.

(** ** The cache file and the rest of the operating system *)

(** What the cache file holds: bytes that [json.Decoder.Decode] rejects,
    or a JSON text, given by the items and the bytes of the strings
    written in it. *)
Inductive FileContent : Type :=
  | Malformed
  | Json (doc : CacheData).

Inductive StatResult : Type :=
  | StatFile
  | StatDir
  | StatNotExist
  | StatOtherError.

Record World : Type := mkWorld {
  registry : Registry;
  cacheFile : option FileContent;
  openDenied : bool;
  createDenied : bool;
  filepath_Abs : string → option string;
  filepath_Base : string → string;
  filepath_Ext : string → string;
  os_Stat : string → StatResult
}.

Definition withRegistry (reg : Registry) (w : World) : World :=
  {| registry := reg; cacheFile := cacheFile w;
     openDenied := openDenied w; createDenied := createDenied w;
     filepath_Abs := filepath_Abs w; filepath_Base := filepath_Base w;
     filepath_Ext := filepath_Ext w; os_Stat := os_Stat w |}.

Definition withCacheFile (f : option FileContent) (w : World) : World :=
  {| registry := registry w; cacheFile := f;
     openDenied := openDenied w; createDenied := createDenied w;
     filepath_Abs := filepath_Abs w; filepath_Base := filepath_Base w;
     filepath_Ext := filepath_Ext w; os_Stat := os_Stat w |}.

(** [loadCache]: a missing file is the empty document; any other open
    failure and any decode failure is returned as an error.  The
    decoder delivers the strings of the file as valid UTF-8. *)
Definition loadCache (w : World) : result FileError CacheData :=
  match cacheFile w with
  | None => Ok {| Items := [] |}
  | Some content =>
      if openDenied w then Err FilePermission
      else match content with
           | Malformed => Err JsonSyntax
           | Json doc => Ok (toValidDoc doc)
           end
  end.

(** [saveCache]: [os.Create] then encode.  The encoder writes the
    strings of the document as valid UTF-8. *)
Definition saveCache (data : CacheData) (w : World)
  : option FileError * World :=
  if createDenied w then (Some FilePermission, w)
  else (None, withCacheFile (Some (Json (toValidDoc data))) w).

(** ** [syncCacheFromRegistry] *)

(** The loop that fills [registryItems]: a name whose string value
    cannot be read is skipped. *)
Definition collectStep (key : Registry) (registryItems : gmap string string)
    (name : string) : gmap string string :=
  match GetStringValue key name with
  | Ok value => <[name := value]> registryItems
  | Err _ => registryItems
  end.

Definition collectRegistryItems (key : Registry) (valueNames : list string)
  : gmap string string :=
  foldl (collectStep key) ∅ valueNames.

Definition syncCacheFromRegistry (range : MapRange) (w : World) : World :=
  match loadCache w with
  | Err _ => w
  | Ok cache =>
      match OpenKey QUERY_VALUE (registry w) with
      | Err _ => w
      | Ok key =>
          match ReadValueNames key with
          | Err _ => w
          | Ok valueNames =>
              let registryItems := collectRegistryItems key valueNames in
              let cache := disablePass registryItems cache in
              let cache := enablePass (range registryItems) cache in
              (saveCache cache w).2
          end
      end
  end.

(** ** Registry operations of the program *)

(** [fmt.Sprintf] with a quoted [%s]: the path between double quotes. *)
Definition dquote : string := String (Ascii.ascii_of_nat 34) EmptyString.

Definition quoted (s : string) : string :=
  String.append dquote (String.append s dquote).

(** [strings.TrimSuffix]. *)
Definition TrimSuffix (s suffix : string) : string :=
  let n := String.length s in
  let k := String.length suffix in
  if (k <=? n)%nat && String.eqb (String.substring (n - k) k s) suffix
  then String.substring 0 (n - k) s
  else s.

(** [getAppName]: the base name without its extension. *)
Definition getAppName (w : World) (exePath : string) : string :=
  let base := filepath_Base w exePath in
  TrimSuffix base (filepath_Ext w base).

(** [AddToStartup]: the returned [error] ([None] is [nil]) and the
    world it leaves. *)
Definition AddToStartup (exePath appName : string) (w : World)
  : option AppError * World :=
  match filepath_Abs w exePath with
  | None => (Some AbsPathFailed, w)
  | Some absPath =>
      match os_Stat w absPath with
      | StatNotExist => (Some (FileMissing absPath), w)
      | _ =>
          match OpenKey SET_VALUE (registry w) with
          | Err e => (Some (OpenRegistryFailed e), w)
          | Ok key =>
              let value := quoted absPath in
              match SetStringValue key appName value with
              | Err e => (Some (SetValueFailed e), w)
              | Ok key' => (None, withRegistry key' w)
              end
          end
      end
  end.

(** [AddCommandToStartup]: the command is stored as it is given. *)
Definition AddCommandToStartup (command appName : string) (w : World)
  : option AppError * World :=
  match OpenKey SET_VALUE (registry w) with
  | Err e => (Some (OpenRegistryFailed e), w)
  | Ok key =>
      match SetStringValue key appName command with
      | Err e => (Some (SetValueFailed e), w)
      | Ok key' => (None, withRegistry key' w)
      end
  end.

(** [RemoveFromStartup]: [registry.ErrNotExist] from the delete gets an
    error of its own. *)
Definition RemoveFromStartup (appName : string) (w : World)
  : option AppError * World :=
  match OpenKey SET_VALUE (registry w) with
  | Err e => (Some (OpenRegistryFailed e), w)
  | Ok key =>
      match DeleteValue key appName with
      | Err ErrNotExist => (Some StartupItemMissing, w)
      | Err e => (Some (DeleteValueFailed e), w)
      | Ok key' => (None, withRegistry key' w)
      end
  end.

(** ** Console handlers *)

(** What the user typed at a numbered list: [b], something that is not
    a number, or a number. *)
Inductive Input : Type :=
  | InputBack
  | InputInvalid
  | InputNum (num : Z).

(** What a handler reports before it returns to the menu.  [Panicked]
    is a run-time panic of the Go program (nil dereference or index out
    of range). *)
Inductive Report : Type :=
  | Back
  | Reprompt
  | NothingListed
  | InvalidNumber
  | RegistryUnreadable (e : RegError)
  | LoadFailed (e : FileError)
  | Failed (e : AppError)
  | Succeeded
  | Panicked.

Module ListItem.

(** [type ListItem struct { Name; Value }] *)
Record t : Type := mk { Name : string; Value : string }.

End ListItem.

Definition toListItem (item : CacheItem) : ListItem.t :=
  {| ListItem.Name := Name item; ListItem.Value := Value item |}.

(** [showListWithBack]: the chosen zero-based index and whether one was
    chosen. *)
Definition showListWithBack (items : list ListItem.t) (input : Input)
  : Z * bool :=
  if (length items =? 0)%nat then ((-1)%Z, false)
  else match input with
       | InputBack => ((-1)%Z, false)
       | InputInvalid => ((-1)%Z, false)
       | InputNum num =>
           if (num <? 1)%Z || (Z.of_nat (length items) <? num)%Z
           then ((-1)%Z, false)
           else ((num - 1)%Z, true)
       end.

(** [handleAddToStartup], after [selectExeFile] returned [exePath];
    [confirmReset] and [confirmAdd] are the answers to the two
    questions. *)
Definition handleAddToStartup (exePath : string)
    (confirmReset confirmAdd : bool) (w : World) : Report * World :=
  if decide (exePath = EmptyString) then (Back, w)
  else
    let appName := getAppName w exePath in
    let absPath := default EmptyString (filepath_Abs w exePath) in
    let regValue := quoted absPath in
    let exists_ :=
      match OpenKey QUERY_VALUE (registry w) with
      | Err _ => false
      | Ok key => match GetStringValue key appName with
                  | Ok _ => true
                  | Err _ => false
                  end
      end in
    if exists_ && negb confirmReset then (Back, w)
    else if negb confirmAdd then (Back, w)
    else
      match AddToStartup exePath appName w with
      | (Some err, w) => (Failed err, w)
      | (None, w) =>
          match loadCache w with
          | Err _ => (Panicked, w)
          | Ok cache =>
              let cache := addOrUpdateItem cache appName regValue true in
              (Succeeded, (saveCache cache w).2)
          end
      end.

(** [handleRemoveFromStartup]: the list shown is the list of value
    names of the key. *)
Definition handleRemoveFromStartup (input : Input) (confirm : bool)
    (w : World) : Report * World :=
  match OpenKey QUERY_VALUE (registry w) with
  | Err e => (RegistryUnreadable e, w)
  | Ok key =>
      match ReadValueNames key with
      | Err e => (RegistryUnreadable e, w)
      | Ok valueNames =>
          if (length valueNames =? 0)%nat then (NothingListed, w)
          else match input with
               | InputBack => (Back, w)
               | InputInvalid => (InvalidNumber, w)
               | InputNum num =>
                   if (num <? 1)%Z || (Z.of_nat (length valueNames) <? num)%Z
                   then (InvalidNumber, w)
                   else
                     match valueNames !! Z.to_nat (num - 1) with
                     | None => (Panicked, w)
                     | Some selected =>
                         if negb confirm then (Back, w)
                         else
                           match RemoveFromStartup selected w with
                           | (Some err, w) => (Failed err, w)
                           | (None, w) =>
                               match loadCache w with
                               | Err _ => (Panicked, w)
                               | Ok cache =>
                                   let cache := removeItem cache selected in
                                   (Succeeded, (saveCache cache w).2)
                               end
                           end
                     end
               end
      end
  end.

(** [handleAddCommand], one round of its prompt loop. *)
Definition handleAddCommand (appName command : string) (confirm : bool)
    (w : World) : Report * World :=
  if bool_decide (appName = "b") || bool_decide (appName = "B") then (Back, w)
  else if decide (appName = EmptyString) then (Reprompt, w)
  else if bool_decide (command = "b") || bool_decide (command = "B") then (Reprompt, w)
  else if decide (command = EmptyString) then (Reprompt, w)
  else if negb confirm then (Back, w)
  else
    match AddCommandToStartup command appName w with
    | (Some err, w) => (Failed err, w)
    | (None, w) =>
        match loadCache w with
        | Err _ => (Panicked, w)
        | Ok cache =>
            let cache := addOrUpdateItem cache appName command true in
            (Succeeded, (saveCache cache w).2)
        end
    end.

(** The lists [handleEnable] and [handleDisable] show. *)
Definition disabledItems (cache : CacheData) : list ListItem.t :=
  toListItem <$> filter (λ item, Enabled item = false) (Items cache).

Definition enabledItems (cache : CacheData) : list ListItem.t :=
  toListItem <$> filter (λ item, Enabled item = true) (Items cache).

(** [handleEnable] *)
Definition handleEnable (input : Input) (confirm : bool) (w : World)
  : Report * World :=
  match loadCache w with
  | Err e => (LoadFailed e, w)
  | Ok cache =>
      let shown := disabledItems cache in
      match showListWithBack shown input with
      | (_, false) => (Back, w)
      | (idx, true) =>
          match shown !! Z.to_nat idx with
          | None => (Panicked, w)
          | Some selectedItem =>
              if negb confirm then (Back, w)
              else
                match AddCommandToStartup (ListItem.Value selectedItem)
                        (ListItem.Name selectedItem) w with
                | (Some err, w) => (Failed err, w)
                | (None, w) =>
                    let cache := addOrUpdateItem cache
                                   (ListItem.Name selectedItem)
                                   (ListItem.Value selectedItem) true in
                    (Succeeded, (saveCache cache w).2)
                end
          end
      end
  end.

(** [handleDisable] *)
Definition handleDisable (input : Input) (confirm : bool) (w : World)
  : Report * World :=
  match loadCache w with
  | Err e => (LoadFailed e, w)
  | Ok cache =>
      let shown := enabledItems cache in
      match showListWithBack shown input with
      | (_, false) => (Back, w)
      | (idx, true) =>
          match shown !! Z.to_nat idx with
          | None => (Panicked, w)
          | Some selectedItem =>
              if negb confirm then (Back, w)
              else
                match RemoveFromStartup (ListItem.Name selectedItem) w with
                | (Some err, w) => (Failed err, w)
                | (None, w) =>
                    let cache := addOrUpdateItem cache
                                   (ListItem.Name selectedItem)
                                   (ListItem.Value selectedItem) false in
                    (Succeeded, (saveCache cache w).2)
                end
          end
      end
  end.

(** ** The operations as one step function *)

Inductive Command : Type :=
  | Sync
  | AddProgram (exePath : string) (confirmReset confirmAdd : bool)
  | RemoveProgram (input : Input) (confirm : bool)
  | AddCommand (appName command : string) (confirm : bool)
  | Enable (input : Input) (confirm : bool)
  | Disable (input : Input) (confirm : bool).

(** [range] is the order in which this step, if it is a [Sync], walks
    the registry snapshot. *)
Definition exec (range : MapRange) (c : Command) (w : World)
  : Report * World :=
  match c with
  | Sync => (Succeeded, syncCacheFromRegistry range w)
  | AddProgram exePath confirmReset confirmAdd =>
      handleAddToStartup exePath confirmReset confirmAdd w
  | RemoveProgram input confirm => handleRemoveFromStartup input confirm w
  | AddCommand appName command confirm =>
      handleAddCommand appName command confirm w
  | Enable input confirm => handleEnable input confirm w
  | Disable input confirm => handleDisable input confirm w
  end.

(** ** Views of the world used in the statements *)

(** The document the cache file holds, when it holds one. *)
Definition cachedDoc (w : World) : option CacheData :=
  match cacheFile w with
  | Some (Json doc) => Some doc
  | _ => None
  end.

(** The string value the Run key has under [name], if any. *)
Definition registryString (w : World) (name : string) : option string :=
  match values (registry w) !! name with
  | Some (StringValue s) => Some s
  | _ => None
  end.

(** Item names are pairwise distinct. *)
Definition uniqueNames (data : CacheData) : Prop := NoDup (names data).

(** The document the cache file decodes to has distinct names. *)
Definition cacheUnique (w : World) : Prop :=
  match cachedDoc w with
  | Some doc => uniqueNames (toValidDoc doc)
  | None => True
  end.

(** Strings and documents that [encoding/json] writes and reads back
    unchanged. *)
Definition utf8 (s : string) : Prop := toValidUTF8 s = s.

#[global] Instance utf8_dec (s : string) : Decision (utf8 s).
Proof. unfold utf8. apply _. Defined.

Definition utf8Item (item : CacheItem) : Prop :=
  utf8 (Name item) ∧ utf8 (Value item).

Definition utf8Doc (data : CacheData) : Prop := Forall utf8Item (Items data).

(** The names and the values of a snapshot are valid UTF-8, as the
    [registry] package returns the strings of a key. *)
Definition utf8Snapshot (m : gmap string string) : Prop :=
  map_Forall (λ name value, utf8 name ∧ utf8 value) m.

(** [firstAt data name k item]: [item] is at index [k] of the document
    and is the first item called [name], which is the item
    [findItemByName] returns. *)
Definition firstAt (data : CacheData) (name : string) (k : nat)
    (item : CacheItem) : Prop :=
  Items data !! k = Some item ∧ Name item = name ∧
  ∀ j other, (j < k)%nat → Items data !! j = Some other → Name other ≠ name.

(** The user's [input] at the list [shown] picks the entry called
    [name]. *)
Definition selects (shown : list ListItem.t) (input : Input)
    (name : string) : Prop :=
  ∃ idx sel, showListWithBack shown input = (idx, true) ∧
             shown !! Z.to_nat idx = Some sel ∧
             ListItem.Name sel = name.

(** The registry snapshot [syncCacheFromRegistry] works on: the
    string-typed values of the key. *)
Definition snapshot (key : Registry) : gmap string string :=
  collectRegistryItems key ((map_to_list (values key)).*1).

(** The names an operation can add to the document are valid UTF-8:
    the names of the snapshot that [Sync] walks, the name derived from
    the path, the name typed. *)
Definition newNamesUtf8 (range : MapRange) (c : Command) (w : World)
  : Prop :=
  match c with
  | Sync => Forall utf8 (range (snapshot (registry w))).*1
  | AddProgram exePath _ _ => utf8 (getAppName w exePath)
  | AddCommand appName _ _ => utf8 appName
  | _ => True
  end.

(** ** Scenarios *)

(** A world over given registry values and cache file: the file can be
    opened and created, paths are absolute and have no extension. *)
Definition scenario (vals : gmap string RegValue)
    (file : option FileContent) (refused : RegOp → bool)
    (stat : string → StatResult) : World :=
  {| registry := {| values := vals; denied := refused |};
     cacheFile := file;
     openDenied := false;
     createDenied := false;
     filepath_Abs := λ p, Some p;
     filepath_Base := λ p, p;
     filepath_Ext := λ _, EmptyString;
     os_Stat := stat |}.

Definition nothingRefused : RegOp → bool := λ _, false.

Definition setRefused : RegOp → bool :=
  λ op, match op with WriteValue => true | _ => false end.

Definition allFiles : string → StatResult := λ _, StatFile.

Definition noFiles : string → StatResult := λ _, StatNotExist.

Definition fooOn : CacheItem :=
  {| Name := "Foo"; Value := "foo.exe"; Enabled := true |}.

Definition fooOff : CacheItem :=
  {| Name := "Foo"; Value := "foo.exe"; Enabled := false |}.

Definition barOn : CacheItem :=
  {| Name := "Bar"; Value := "bar.exe"; Enabled := true |}.

(** The key has [Foo]; the cache has [Foo] and [Bar], both enabled. *)
Definition syncedWorld : World :=
  scenario {[ "Foo" := StringValue "foo.exe" ]}
    (Some (Json {| Items := [fooOn; barOn] |})) nothingRefused allFiles.

(** The cache file does not parse. *)
Definition malformedWorld : World :=
  scenario {[ "Foo" := StringValue "foo.exe" ]} (Some Malformed)
    nothingRefused allFiles.

(** There is no cache file. *)
Definition freshWorld : World :=
  scenario {[ "Foo" := StringValue "foo.exe" ]} None nothingRefused allFiles.

(** [Foo] is enabled in the cache but the key has no such value. *)
Definition goneWorld : World :=
  scenario ∅ (Some (Json {| Items := [fooOn] |})) nothingRefused allFiles.

(** [Foo] is enabled in the cache with an older command than the one
    the key has. *)
Definition staleWorld : World :=
  scenario {[ "Foo" := StringValue "new.exe" ]}
    (Some (Json {| Items := [fooOn] |})) nothingRefused allFiles.

(** [Foo] is disabled in the cache and the key refuses writes. *)
Definition readOnlyWorld : World :=
  scenario ∅ (Some (Json {| Items := [fooOff] |})) setRefused allFiles.

(** The selected file does not exist. *)
Definition missingFileWorld : World :=
  scenario ∅ (Some (Json {| Items := [barOn] |})) nothingRefused noFiles.

(** The key has a value [Foo] that is not a string, and a string value
    [Bar]. *)
Definition binaryWorld : World :=
  scenario {[ "Foo" := NonString; "Bar" := StringValue "bar.exe" ]}
    (Some (Json {| Items := [fooOn] |})) nothingRefused allFiles.

(** Every path is a directory; [os.Stat] fails on every path for a
    reason other than a missing file. *)
Definition allDirs : string → StatResult := λ _, StatDir.

Definition statFails : string → StatResult := λ _, StatOtherError.

Definition dirWorld : World :=
  scenario ∅ (Some (Json {| Items := [barOn] |})) nothingRefused allDirs.

Definition statFailsWorld : World :=
  scenario ∅ (Some (Json {| Items := [barOn] |})) nothingRefused statFails.

(** The string of the given bytes. *)
Definition bytes (l : list nat) : string :=
  foldr (λ n s, String (Ascii.ascii_of_nat n) s) EmptyString l.

(** A name typed with a byte that is not valid UTF-8 ([N] and the byte
    [0xFF]), and what the JSON encoder writes for it. *)
Definition badName : string := bytes [78; 255]%nat.

Definition badNameSaved : string := bytes [78; 239; 191; 189]%nat.

(** Neither the key nor the cache file has anything. *)
Definition emptyWorld : World :=
  scenario ∅ None nothingRefused allFiles.

(** A snapshot with two entries, and a second admissible order of
    walking a map: the reverse of the first. *)
Definition twoEntries : gmap string string :=
  {[ "Foo" := "foo.exe"; "Baz" := "baz.exe" ]}.

Definition reverseRange : MapRange := λ m, reverse (map_to_list m).

(** What [disablePass] establishes: an item whose name is not a key of
    the snapshot is disabled. *)
Definition offOutside (registryItems : gmap string string)
    (item : CacheItem) : Prop :=
  registryItems !! Name item = None → Enabled item = false.

(** ** Queries on the Run key *)

(** [strings.Trim] with a cutset of one ASCII byte: the leading and the
    trailing bytes equal to [c] are dropped. *)
Fixpoint trimLeftByte (s : string) (c : Ascii.ascii) : string :=
  match s with
  | EmptyString => EmptyString
  | String a rest => if Ascii.eqb a c then trimLeftByte rest c else s
  end.

Fixpoint trimRightByte (s : string) (c : Ascii.ascii) : string :=
  match s with
  | EmptyString => EmptyString
  | String a rest =>
      match trimRightByte rest c with
      | EmptyString => if Ascii.eqb a c then EmptyString
                       else String a EmptyString
      | kept => String a kept
      end
  end.

Definition TrimByte (s : string) (c : Ascii.ascii) : string :=
  trimLeftByte (trimRightByte s c) c.

(** The errors built with [fmt.Errorf] in [IsInStartup] and
    [IsCommandInStartup]. *)
Inductive QueryError : Type :=
  | QueryOpenFailed (cause : RegError)
  | QueryValueFailed (cause : RegError).

(** [IsInStartup]: is [appName] registered with the path [exePath]? *)
Definition IsInStartup (exePath appName : string) (w : World)
  : result QueryError bool :=
  match OpenKey QUERY_VALUE (registry w) with
  | Err e => Err (QueryOpenFailed e)
  | Ok key =>
      match GetStringValue key appName with
      | Err ErrNotExist => Ok false
      | Err e => Err (QueryValueFailed e)
      | Ok value =>
          let absPath := default EmptyString (filepath_Abs w exePath) in
          let value := TrimByte value (Ascii.ascii_of_nat 34) in
          let valueAbs := default EmptyString (filepath_Abs w value) in
          Ok (bool_decide (absPath = valueAbs))
      end
  end.

(** [IsCommandInStartup]: does the key have a string value [appName]? *)
Definition IsCommandInStartup (appName : string) (w : World)
  : result QueryError bool :=
  match OpenKey QUERY_VALUE (registry w) with
  | Err e => Err (QueryOpenFailed e)
  | Ok key =>
      match GetStringValue key appName with
      | Ok _ => Ok true
      | Err ErrNotExist => Ok false
      | Err e => Err (QueryValueFailed e)
      end
  end.

(** ** The menu *)

(** [showStartupStatus] loads the cache and prints it sorted by name;
    the sorted slice is not saved.  Only what it reports is kept. *)
Definition showStartupStatus (w : World) : Report * World :=
  match loadCache w with
  | Err e => (LoadFailed e, w)
  | Ok cache =>
      if (length (Items cache) =? 0)%nat then (NothingListed, w)
      else (Succeeded, w)
  end.

(** The prompt loop of [handleAddCommand]: a round that ends in
    [continue] is followed by the next round; when the input has run
    out the loop is still prompting. *)
Fixpoint handleAddCommandLoop (rounds : list (string * string * bool))
    (w : World) : Report * World :=
  match rounds with
  | [] => (Reprompt, w)
  | (appName, command, confirm) :: rest =>
      match handleAddCommand appName command confirm w with
      | (Reprompt, w) => handleAddCommandLoop rest w
      | done => done
      end
  end.

(** One pass through the menu: the choice typed and the answers given
    to the handler it starts. *)
Inductive MenuChoice : Type :=
  | Choice1 (exePath : string) (confirmReset confirmAdd : bool)
  | Choice2 (input : Input) (confirm : bool)
  | Choice3
  | Choice4 (rounds : list (string * string * bool))
  | Choice5 (input : Input) (confirm : bool)
  | Choice6 (input : Input) (confirm : bool)
  | Choice7
  | ChoiceOther.

Definition dispatch (choice : MenuChoice) (w : World) : Report * World :=
  match choice with
  | Choice1 exePath confirmReset confirmAdd =>
      handleAddToStartup exePath confirmReset confirmAdd w
  | Choice2 input confirm => handleRemoveFromStartup input confirm w
  | Choice3 => showStartupStatus w
  | Choice4 rounds => handleAddCommandLoop rounds w
  | Choice5 input confirm => handleEnable input confirm w
  | Choice6 input confirm => handleDisable input confirm w
  | Choice7 => (Back, w)
  | ChoiceOther => (Back, w)
  end.

(** How a run of the menu loop ends: the user chose 7, a handler
    panicked, or the choices given ran out with the menu still open. *)
Inductive SessionEnd : Type :=
  | Exited
  | Crashed
  | MenuOpen.

(** [showMainMenu] over the choices typed. *)
Fixpoint showMainMenu (choices : list MenuChoice) (w : World)
  : SessionEnd * World :=
  match choices with
  | [] => (MenuOpen, w)
  | Choice7 :: _ => (Exited, w)
  | choice :: rest =>
      match dispatch choice w with
      | (Panicked, w) => (Crashed, w)
      | (_, w) => showMainMenu rest w
      end
  end.

(** The program: [init] synchronises the cache, [main] shows the
    menu. *)
Definition program (range : MapRange) (choices : list MenuChoice)
    (w : World) : SessionEnd * World :=
  showMainMenu choices (syncCacheFromRegistry range w).

(** ** Agreement of cache and registry *)

(** The string value under [name], if the values have one. *)
Definition stringOf (vals : gmap string RegValue) (name : string)
  : option string :=
  match vals !! name with
  | Some (StringValue s) => Some s
  | _ => None
  end.

(** [doc] mirrors [vals]: names are distinct, an enabled item has its
    command as string value in [vals], a disabled item has no string
    value there, and every string value has an item. *)
Definition mirrors (vals : gmap string RegValue) (doc : CacheData) : Prop :=
  uniqueNames doc ∧
  (∀ item, item ∈ Items doc →
     stringOf vals (Name item) =
       if Enabled item then Some (Value item) else None) ∧
  (∀ name value, stringOf vals name = Some value → name ∈ names doc).

(** The cache file can be read and written and loads as a document that
    mirrors the key. *)
Definition consistent (w : World) : Prop :=
  openDenied w = false ∧ createDenied w = false ∧
  ∃ doc, loadCache w = Ok doc ∧ mirrors (values (registry w)) doc.

(** What is typed at a menu entry, and what the program derives from
    it for the cache, is valid UTF-8. *)
Definition utf8Choice (w : World) (choice : MenuChoice) : Prop :=
  match choice with
  | Choice1 exePath _ _ =>
      utf8 (getAppName w exePath) ∧
      utf8 (quoted (default EmptyString (filepath_Abs w exePath)))
  | Choice4 rounds =>
      Forall (λ round : string * string * bool,
                utf8 round.1.1 ∧ utf8 round.1.2) rounds
  | _ => True
  end.

#[global] Instance utf8Choice_dec (w : World) (choice : MenuChoice) :
  Decision (utf8Choice w choice).
Proof. destruct choice; simpl; apply _. Defined.

(** Two worlds resolve paths in the same way. *)
Definition samePaths (w w' : World) : Prop :=
  filepath_Abs w' = filepath_Abs w ∧
  filepath_Base w' = filepath_Base w ∧
  filepath_Ext w' = filepath_Ext w.

(** Paths are absolute, are their own base name and have the
    extension [.exe]. *)
Definition exeWorld : World :=
  {| registry := {| values := ∅; denied := nothingRefused |};
     cacheFile := None;
     openDenied := false;
     createDenied := false;
     filepath_Abs := λ p, Some p;
     filepath_Base := λ p, p;
     filepath_Ext := λ _, ".exe";
     os_Stat := allFiles |}.

(** ** The document Sync produces, in closed form *)

(** What the enable pass over the entries of [m] makes of the item at
    index [i] of [data]: the first item of a name that [m] has gets the
    value of [m] and is enabled, every other item is left alone. *)
Definition updatedItem (m : gmap string string) (data : CacheData)
    (i : nat) (item : CacheItem) : CacheItem :=
  match m !! Name item with
  | None => item
  | Some value =>
      if decide (Name item ∈ take i (names data)) then item
      else {| Name := Name item; Value := value; Enabled := true |}
  end.

(** The items the enable pass appends: one for every entry whose name
    [data] does not have, in the order of the walk. *)
Definition appendedItems (entries : list (string * string))
    (data : CacheData) : list CacheItem :=
  (λ entry, {| Name := entry.1; Value := entry.2; Enabled := true |}) <$>
  filter (λ entry, entry.1 ∉ names data) entries.

(** What both passes make of the item at index [i] of [data]. *)
Definition syncedItem (registryItems : gmap string string)
    (data : CacheData) (i : nat) (item : CacheItem) : CacheItem :=
  match registryItems !! Name item with
  | None => setEnabled false item
  | Some value =>
      if decide (Name item ∈ take i (names data)) then item
      else {| Name := Name item; Value := value; Enabled := true |}
  end.

(** * Properties *)

(** ** [findItemByName] *)

Lemma findFrom_absent i items name :
  name ∉ Name <$> items → findFrom i items name = ((-1)%Z, None).
Proof.
  revert i. induction items as [|item rest IH]; intros i Hn; simpl; [done|].
  rewrite fmap_cons, not_elem_of_cons in Hn. destruct Hn as [Hne Hrest].
  destruct (decide (Name item = name)) as [Heq|_]; [by subst|].
  by apply IH.
Qed.

Lemma findFrom_first i items name k item :
  items !! k = Some item → Name item = name →
  (∀ j other, (j < k)%nat → items !! j = Some other → Name other ≠ name) →
  findFrom i items name = ((i + Z.of_nat k)%Z, Some item).
Proof.
  revert i k. induction items as [|hd rest IH]; intros i k Hk Hname Hfirst.
  - by rewrite lookup_nil in Hk.
  - simpl. destruct k as [|k].
    + simpl in Hk. injection Hk as ->.
      rewrite decide_True by done. f_equal. lia.
    + destruct (decide (Name hd = name)) as [Heq|_].
      * exfalso. by apply (Hfirst 0%nat hd); [lia| |].
      * rewrite (IH (i + 1)%Z k); [f_equal; lia|done|done|].
        intros j other Hj Hl. apply (Hfirst (S j)); [lia|done].
Qed.

Lemma firstAt_exists data name :
  name ∈ names data → ∃ k item, firstAt data name k item.
Proof.
  destruct data as [items]. unfold names, firstAt. simpl.
  induction items as [|hd rest IH]; intros Hin.
  - by apply elem_of_nil in Hin.
  - destruct (decide (Name hd = name)) as [Heq|Hne].
    + exists 0%nat, hd. split_and!; [done|done|]. intros j ? Hj. lia.
    + rewrite fmap_cons, elem_of_cons in Hin.
      destruct Hin as [Heq|Hin]; [by subst|].
      destruct (IH Hin) as (k & item & Hk & Hname & Hfirst).
      exists (S k), item. split_and!; [done|done|].
      intros [|j] other Hj Hl; simpl in Hl.
      * by injection Hl as <-.
      * apply (Hfirst j); [lia|done].
Qed.

Lemma firstAt_in data name k item : firstAt data name k item → name ∈ names data.
Proof.
  intros (Hk & <- & _). unfold names.
  apply list_elem_of_fmap. exists item. split; [done|].
  by apply list_elem_of_lookup_2 in Hk.
Qed.

Lemma firstAt_unique data name k1 item1 k2 item2 :
  firstAt data name k1 item1 → firstAt data name k2 item2 →
  k1 = k2 ∧ item1 = item2.
Proof.
  intros (H1 & N1 & F1) (H2 & N2 & F2).
  assert (k1 = k2) as ->.
  { destruct (lt_eq_lt_dec k1 k2) as [[Hlt|Heq]|Hgt]; [|done|].
    - by destruct (F2 _ _ Hlt H1).
    - by destruct (F1 _ _ Hgt H2). }
  split; [done|congruence].
Qed.

(** The two outcomes of [findItemByName]. *)
Lemma findItemByName_absent data name :
  name ∉ names data → findItemByName data name = ((-1)%Z, None).
Proof. apply findFrom_absent. Qed.

Lemma findItemByName_first data name k item :
  firstAt data name k item →
  findItemByName data name = (Z.of_nat k, Some item).
Proof.
  intros (Hk & Hname & Hfirst). unfold findItemByName.
  by rewrite (findFrom_first 0 _ name k item).
Qed.

Lemma findItemByName_cases data name :
  ((name ∉ names data) ∧ findItemByName data name = ((-1)%Z, None)) ∨
  (∃ k item, firstAt data name k item ∧
             findItemByName data name = (Z.of_nat k, Some item)).
Proof.
  destruct (decide (name ∈ names data)) as [Hin|Hout].
  - right. destruct (firstAt_exists _ _ Hin) as (k & item & Hf).
    exists k, item. split; [done|by apply findItemByName_first].
  - left. split; [done|by apply findItemByName_absent].
Qed.

(** ** [addOrUpdateItem] *)

Lemma addOrUpdateItem_absent data name value enabled :
  name ∉ names data →
  Items (addOrUpdateItem data name value enabled) =
  Items data ++ [ {| Name := name; Value := value; Enabled := enabled |} ].
Proof.
  intros Hout. unfold addOrUpdateItem.
  by rewrite findItemByName_absent.
Qed.

Lemma addOrUpdateItem_first data name value enabled k item :
  firstAt data name k item →
  Items (addOrUpdateItem data name value enabled) =
  <[k := {| Name := name; Value := value; Enabled := enabled |}]> (Items data).
Proof.
  intros Hf. unfold addOrUpdateItem.
  rewrite (findItemByName_first _ _ _ _ Hf).
  destruct Hf as (Hk & Hname & _).
  replace (0 <=? Z.of_nat k)%Z with true by (symmetry; apply Z.leb_le; lia).
  rewrite Nat2Z.id. simpl.
  apply list_eq. intros i. destruct (decide (i = k)) as [->|Hne].
  - rewrite !list_lookup_alter, !decide_True, Hk by done. simpl.
    rewrite list_lookup_insert_eq by (by eapply lookup_lt_Some).
    unfold setEnabled, setValue. simpl. by rewrite Hname.
  - rewrite !list_lookup_alter_ne by done.
    by rewrite list_lookup_insert_ne.
Qed.

(** An existing name is updated in place: the names do not change. *)
Lemma addOrUpdateItem_names data name value enabled :
  names (addOrUpdateItem data name value enabled) =
  if decide (name ∈ names data) then names data else names data ++ [name].
Proof.
  unfold names at 1. destruct (decide (name ∈ names data)) as [Hin|Hout].
  - destruct (firstAt_exists _ _ Hin) as (k & item & Hf).
    rewrite (addOrUpdateItem_first _ _ _ _ _ _ Hf).
    destruct Hf as (Hk & Hname & _).
    rewrite list_fmap_insert. simpl. unfold names.
    apply list_insert_id. by rewrite list_lookup_fmap, Hk, <- Hname.
  - rewrite addOrUpdateItem_absent by done. by rewrite fmap_app.
Qed.

Lemma addOrUpdateItem_unique data name value enabled :
  uniqueNames data → uniqueNames (addOrUpdateItem data name value enabled).
Proof.
  unfold uniqueNames. rewrite addOrUpdateItem_names. intros Hnd.
  case_decide; [done|].
  apply NoDup_app. split_and!; [done| |apply NoDup_singleton].
  intros x Hx Hx'. apply list_elem_of_singleton in Hx'. by subst.
Qed.

(** After the call the first item called [name] carries the new value
    and flag. *)
Lemma addOrUpdateItem_sets data name value enabled :
  ∃ k, firstAt (addOrUpdateItem data name value enabled) name k
         {| Name := name; Value := value; Enabled := enabled |}.
Proof.
  destruct (decide (name ∈ names data)) as [Hin|Hout].
  - destruct (firstAt_exists _ _ Hin) as (k & item & Hf).
    exists k. unfold firstAt.
    rewrite (addOrUpdateItem_first _ _ _ _ _ _ Hf).
    destruct Hf as (Hk & Hname & Hfirst).
    split_and!; [|done|].
    + apply list_lookup_insert_eq. by eapply lookup_lt_Some.
    + intros j other Hj Hl. rewrite list_lookup_insert_ne in Hl by lia.
      by apply (Hfirst j).
  - exists (length (Items data)). unfold firstAt.
    rewrite addOrUpdateItem_absent by done.
    split_and!; [|done|].
    + by rewrite lookup_app_r, Nat.sub_diag.
    + intros j other Hj Hl. rewrite lookup_app_l in Hl by done.
      intros <-. apply Hout. unfold names.
      apply list_elem_of_fmap. exists other. split; [done|].
      by apply list_elem_of_lookup_2 in Hl.
Qed.

(** Items with another name stay where they are, as they are. *)
Lemma addOrUpdateItem_keeps data name value enabled i item :
  Items data !! i = Some item → Name item ≠ name →
  Items (addOrUpdateItem data name value enabled) !! i = Some item.
Proof.
  intros Hi Hne. destruct (decide (name ∈ names data)) as [Hin|Hout].
  - destruct (firstAt_exists _ _ Hin) as (k & item' & Hf).
    rewrite (addOrUpdateItem_first _ _ _ _ _ _ Hf).
    destruct Hf as (Hk & Hname & _).
    rewrite list_lookup_insert_ne; [done|]. intros ->. congruence.
  - rewrite addOrUpdateItem_absent by done.
    by apply lookup_app_l_Some.
Qed.

Lemma addOrUpdateItem_keeps_first data name value enabled other k item :
  other ≠ name → firstAt data other k item →
  firstAt (addOrUpdateItem data name value enabled) other k item.
Proof.
  intros Hne (Hk & Hname & Hfirst). split_and!; [|done|].
  - apply addOrUpdateItem_keeps; [done|congruence].
  - intros j it Hj Hl.
    destruct (decide (name ∈ names data)) as [Hin|Hout].
    + destruct (firstAt_exists _ _ Hin) as (k' & item' & Hf).
      rewrite (addOrUpdateItem_first _ _ _ _ _ _ Hf) in Hl.
      destruct (decide (k' = j)) as [->|Hkj].
      * rewrite list_lookup_insert_eq in Hl.
        -- injection Hl as <-. simpl. congruence.
        -- destruct Hf as (Hk' & _). by eapply lookup_lt_Some.
      * rewrite list_lookup_insert_ne in Hl by done. by apply (Hfirst j).
    + rewrite addOrUpdateItem_absent in Hl by done.
      rewrite lookup_app_l in Hl; [by apply (Hfirst j)|].
      apply lookup_lt_Some in Hk. lia.
Qed.

(** Writing what is already there changes nothing. *)
Lemma addOrUpdateItem_same data name value enabled k :
  firstAt data name k {| Name := name; Value := value; Enabled := enabled |} →
  addOrUpdateItem data name value enabled = data.
Proof.
  intros Hf. destruct data as [items].
  pose proof (addOrUpdateItem_first _ _ value enabled _ _ Hf) as Heq.
  destruct Hf as (Hk & _ & _). simpl in *.
  rewrite list_insert_id in Heq by done.
  destruct (addOrUpdateItem _ _ _ _). simpl in Heq. by subst.
Qed.

(** A property of items that the new item has is kept. *)
Lemma addOrUpdateItem_Forall (Q : CacheItem → Prop) data name value enabled :
  Forall Q (Items data) →
  Q {| Name := name; Value := value; Enabled := enabled |} →
  Forall Q (Items (addOrUpdateItem data name value enabled)).
Proof.
  intros HQ Hnew. destruct (decide (name ∈ names data)) as [Hin|Hout].
  - destruct (firstAt_exists _ _ Hin) as (k & item & Hf).
    rewrite (addOrUpdateItem_first _ _ _ _ _ _ Hf).
    by apply Forall_insert.
  - rewrite addOrUpdateItem_absent by done.
    apply Forall_app. split; [done|]. by apply Forall_singleton.
Qed.

(** ** [removeItem] *)

Lemma removeItem_absent data name :
  name ∉ names data → removeItem data name = data.
Proof.
  intros Hout. unfold removeItem. by rewrite findItemByName_absent.
Qed.

Lemma removeItem_first data name k item :
  firstAt data name k item →
  Items (removeItem data name) = delete k (Items data).
Proof.
  intros Hf. unfold removeItem.
  rewrite (findItemByName_first _ _ _ _ Hf).
  replace (0 <=? Z.of_nat k)%Z with true by (symmetry; apply Z.leb_le; lia).
  replace (Z.to_nat (Z.of_nat k + 1)) with (S k) by lia.
  rewrite Nat2Z.id. simpl. by rewrite delete_take_drop.
Qed.

Lemma removeItem_sublist data name :
  names (removeItem data name) `sublist_of` names data.
Proof.
  destruct (decide (name ∈ names data)) as [Hin|Hout].
  - destruct (firstAt_exists _ _ Hin) as (k & item & Hf).
    unfold names. rewrite (removeItem_first _ _ _ _ Hf).
    apply fmap_sublist, sublist_delete.
  - by rewrite removeItem_absent.
Qed.

Lemma removeItem_unique data name :
  uniqueNames data → uniqueNames (removeItem data name).
Proof.
  unfold uniqueNames. intros Hnd.
  eapply sublist_NoDup; [done|apply removeItem_sublist].
Qed.

(** With distinct names nothing called [name] is left. *)
Lemma removeItem_gone data name :
  uniqueNames data → name ∉ names (removeItem data name).
Proof.
  intros Hnd. destruct (decide (name ∈ names data)) as [Hin|Hout].
  - destruct (firstAt_exists _ _ Hin) as (k & item & Hf).
    unfold names. rewrite (removeItem_first _ _ _ _ Hf).
    destruct Hf as (Hk & Hname & _).
    rewrite list_fmap_delete, delete_take_drop.
    assert (names data !! k = Some name) as Hnk.
    { unfold names. by rewrite list_lookup_fmap, Hk, <- Hname. }
    unfold uniqueNames in Hnd.
    rewrite <- (take_drop_middle _ _ _ Hnk) in Hnd.
    apply NoDup_app in Hnd as (_ & Hdisj & Hnd).
    apply NoDup_cons in Hnd as (Hdrop & _).
    unfold names in *. intros Hin'. apply elem_of_app in Hin' as [Hl|Hr].
    + apply (Hdisj _ Hl). by left.
    + by apply Hdrop.
  - by rewrite removeItem_absent.
Qed.

(** ** The passes of the synchronisation *)

Lemma disablePass_names registryItems cache :
  names (disablePass registryItems cache) = names cache.
Proof.
  unfold names, disablePass. simpl. rewrite <- list_fmap_compose.
  apply list_fmap_ext. intros i item _. simpl.
  unfold disableStep. by destruct (registryItems !! Name item).
Qed.

Lemma disablePass_lookup registryItems cache i item :
  Items cache !! i = Some item →
  Items (disablePass registryItems cache) !! i =
  Some (disableStep registryItems item).
Proof. intros Hi. unfold disablePass. simpl. by rewrite list_lookup_fmap, Hi. Qed.

Lemma disablePass_offOutside registryItems cache :
  Forall (offOutside registryItems) (Items (disablePass registryItems cache)).
Proof.
  unfold disablePass. simpl. apply Forall_fmap, Forall_forall.
  intros item _. unfold offOutside, disableStep. simpl.
  by destruct (registryItems !! Name item) eqn:E; simpl; rewrite ?E.
Qed.

Lemma disablePass_same registryItems cache :
  Forall (offOutside registryItems) (Items cache) →
  disablePass registryItems cache = cache.
Proof.
  intros Hoff. destruct cache as [items]. unfold disablePass. simpl in *.
  f_equal. rewrite <- (list_fmap_id items) at 2.
  apply Forall_fmap_ext_1. eapply Forall_impl; [done|].
  intros item Hitem. unfold disableStep, offOutside in *.
  destruct (registryItems !! Name item); [done|].
  destruct item as [n v e]. unfold setEnabled. simpl in *. by rewrite Hitem.
Qed.

Lemma enableStep_addOrUpdateItem cache name value :
  enableStep cache (name, value) = addOrUpdateItem cache name value true.
Proof. reflexivity. Qed.

Lemma enablePass_cons cache name value entries :
  enablePass ((name, value) :: entries) cache =
  enablePass entries (addOrUpdateItem cache name value true).
Proof. reflexivity. Qed.

Lemma enablePass_keeps entries cache i item :
  Items cache !! i = Some item → Name item ∉ entries.*1 →
  Items (enablePass entries cache) !! i = Some item.
Proof.
  revert cache. induction entries as [|[n v] entries IH]; intros cache Hi Hout.
  - done.
  - rewrite enablePass_cons. rewrite fmap_cons, not_elem_of_cons in Hout.
    destruct Hout as [Hne Hout]. apply IH; [|done].
    by apply addOrUpdateItem_keeps.
Qed.

Lemma enablePass_keeps_first entries cache name k item :
  name ∉ entries.*1 → firstAt cache name k item →
  firstAt (enablePass entries cache) name k item.
Proof.
  revert cache. induction entries as [|[n v] entries IH]; intros cache Hout Hf.
  - done.
  - rewrite enablePass_cons. rewrite fmap_cons, not_elem_of_cons in Hout.
    destruct Hout as [Hne Hout]. apply IH; [done|].
    by apply addOrUpdateItem_keeps_first.
Qed.

(** Every entry walked by the enable pass ends up as the first item of
    its name, enabled and with the entry's value. *)
Lemma enablePass_sets entries cache name value :
  NoDup entries.*1 → (name, value) ∈ entries →
  ∃ k, firstAt (enablePass entries cache) name k
         {| Name := name; Value := value; Enabled := true |}.
Proof.
  revert cache. induction entries as [|[n v] entries IH]; intros cache Hnd Hin.
  - by apply elem_of_nil in Hin.
  - rewrite enablePass_cons. rewrite fmap_cons in Hnd.
    apply NoDup_cons in Hnd as [Hfresh Hnd].
    apply elem_of_cons in Hin as [Heq|Hin].
    + injection Heq as -> ->.
      destruct (addOrUpdateItem_sets cache n v true) as [k Hf].
      exists k. by apply enablePass_keeps_first.
    + by apply IH.
Qed.

Lemma enablePass_unique entries cache :
  uniqueNames cache → uniqueNames (enablePass entries cache).
Proof.
  revert cache. induction entries as [|[n v] entries IH]; intros cache Hu.
  - done.
  - rewrite enablePass_cons. by apply IH, addOrUpdateItem_unique.
Qed.

Lemma enablePass_Forall (Q : CacheItem → Prop) entries cache :
  Forall Q (Items cache) →
  (∀ name value, (name, value) ∈ entries →
                 Q {| Name := name; Value := value; Enabled := true |}) →
  Forall Q (Items (enablePass entries cache)).
Proof.
  revert cache. induction entries as [|[n v] entries IH]; intros cache HQ Hnew.
  - done.
  - rewrite enablePass_cons. apply IH.
    + apply addOrUpdateItem_Forall; [done|]. apply Hnew. by left.
    + intros name value Hin. apply Hnew. by right.
Qed.

(** Names that are not walked are not added. *)
Lemma enablePass_names entries cache name :
  name ∈ names (enablePass entries cache) →
  name ∈ names cache ∨ name ∈ entries.*1.
Proof.
  revert cache. induction entries as [|[n v] entries IH]; intros cache Hin.
  - by left.
  - rewrite enablePass_cons in Hin. apply IH in Hin as [Hin|Hin].
    + rewrite addOrUpdateItem_names in Hin. case_decide; [by left|].
      apply elem_of_app in Hin as [Hin|Hin]; [by left|].
      apply list_elem_of_singleton in Hin as ->. right. by left.
    + right. by right.
Qed.

(** A pass over entries that are all in place changes nothing. *)
Lemma enablePass_same entries cache :
  (∀ name value, (name, value) ∈ entries →
     ∃ k, firstAt cache name k
            {| Name := name; Value := value; Enabled := true |}) →
  enablePass entries cache = cache.
Proof.
  induction entries as [|[n v] entries IH]; intros Hall.
  - done.
  - rewrite enablePass_cons.
    destruct (Hall n v) as [k Hf]; [by left|].
    rewrite (addOrUpdateItem_same _ _ _ _ _ Hf).
    apply IH. intros name value Hin. apply Hall. by right.
Qed.

(** ** Admissible iteration orders *)

Lemma admissible_elem range m name value :
  admissible range → (name, value) ∈ range m ↔ m !! name = Some value.
Proof. intros Hr. rewrite (Hr m). apply elem_of_map_to_list. Qed.

Lemma admissible_NoDup range m : admissible range → NoDup (range m).*1.
Proof. intros Hr. rewrite (Hr m). apply NoDup_fst_map_to_list. Qed.

Lemma admissible_key range (m : gmap string string) name :
  admissible range → m !! name = None → name ∉ (range m).*1.
Proof.
  intros Hr Hnone Hin. apply list_elem_of_fmap in Hin as ([n v] & -> & Hin).
  apply (admissible_elem _ _ _ _ Hr) in Hin. simpl in Hnone. congruence.
Qed.

Lemma admissible_map_to_list : admissible map_to_list.
Proof. intros m. reflexivity. Qed.

(** ** Strings read back from JSON *)

Lemma runeLen_stable b rest n :
  runeLen (String b rest) = Some n →
  runeLen (String b (coerceFrom (n - 1) rest)) = Some n.
Proof.
  unfold runeLen.
  destruct (byteIn 0 127 b); [by intros [= <-]|].
  destruct (byteIn 194 223 b).
  { destruct rest as [|b1 r]; [done|].
    destruct (byteIn 128 191 b1) eqn:E1; [|done].
    intros [= <-]. simpl. by rewrite E1. }
  destruct (byteIn 224 239 b).
  { destruct rest as [|b1 [|b2 r]]; [done|done|].
    destruct (secondOf3 b b1 && byteIn 128 191 b2) eqn:E; [|done].
    intros [= <-]. simpl. by rewrite E. }
  destruct (byteIn 240 244 b); [|done].
  destruct rest as [|b1 [|b2 [|b3 r]]]; [done|done|done|].
  destruct (secondOf4 b b1 && byteIn 128 191 b2 && byteIn 128 191 b3) eqn:E;
    [|done].
  intros [= <-]. simpl. by rewrite E.
Qed.

Lemma coerceFrom_idem s :
  ∀ k, coerceFrom k (coerceFrom k s) = coerceFrom k s.
Proof.
  induction s as [|b rest IH]; intros k; [done|].
  destruct k as [|k].
  - cbn [coerceFrom]. destruct (runeLen (String b rest)) as [n|] eqn:Hn.
    + cbn [coerceFrom]. rewrite (runeLen_stable _ _ _ Hn). by rewrite IH.
    + change (coerceFrom 0 (replacementChar (coerceFrom 0 rest)))
        with (replacementChar (coerceFrom 0 (coerceFrom 0 rest))).
      by rewrite IH.
  - cbn [coerceFrom]. by rewrite IH.
Qed.

(** What has been through the encoder once is written back as it is. *)
Lemma toValidUTF8_idem s : toValidUTF8 (toValidUTF8 s) = toValidUTF8 s.
Proof. apply coerceFrom_idem. Qed.

Lemma toValidItem_utf8 item : utf8Item item → toValidItem item = item.
Proof.
  intros [Hn Hv]. unfold toValidItem. rewrite Hn, Hv. by destruct item.
Qed.

Lemma toValidDoc_utf8 data : utf8Doc data → toValidDoc data = data.
Proof.
  intros Hdoc. unfold toValidDoc. destruct data as [items]. simpl in *.
  f_equal. rewrite <- (list_fmap_id items) at 2.
  apply Forall_fmap_ext_1. eapply Forall_impl; [done|].
  intros item. apply toValidItem_utf8.
Qed.

Lemma utf8Doc_toValidDoc data : utf8Doc (toValidDoc data).
Proof.
  unfold utf8Doc, toValidDoc. simpl. apply Forall_fmap, Forall_forall.
  intros item _. split; apply toValidUTF8_idem.
Qed.

Lemma names_toValidDoc data :
  names (toValidDoc data) = toValidUTF8 <$> names data.
Proof.
  unfold names, toValidDoc. simpl. rewrite <- !list_fmap_compose.
  by apply list_fmap_ext.
Qed.

Lemma names_utf8 data :
  Forall utf8 (names data) → names (toValidDoc data) = names data.
Proof.
  intros Hn. rewrite names_toValidDoc.
  rewrite <- (list_fmap_id (names data)) at 2.
  by apply Forall_fmap_ext_1.
Qed.

Lemma utf8Doc_names data : utf8Doc data → Forall utf8 (names data).
Proof.
  intros Hdoc. unfold names. apply Forall_fmap.
  eapply Forall_impl; [done|]. by intros item [Hn _].
Qed.

Lemma utf8Doc_lookup data k item :
  utf8Doc data → Items data !! k = Some item → utf8Item item.
Proof. intros Hdoc Hk. by eapply Forall_lookup_1. Qed.

Lemma utf8Doc_elem data item :
  utf8Doc data → item ∈ Items data → utf8Item item.
Proof. intros Hdoc Hin. by eapply (proj1 (Forall_forall _ _)). Qed.

Lemma utf8Doc_addOrUpdateItem data name value enabled :
  utf8Doc data → utf8 name → utf8 value →
  utf8Doc (addOrUpdateItem data name value enabled).
Proof. intros Hdoc Hn Hv. by apply addOrUpdateItem_Forall. Qed.

Lemma utf8Doc_removeItem data name :
  utf8Doc data → utf8Doc (removeItem data name).
Proof.
  intros Hdoc. destruct (decide (name ∈ names data)) as [Hin|Hout].
  - destruct (firstAt_exists _ _ Hin) as (k & item & Hf).
    unfold utf8Doc. rewrite (removeItem_first _ _ _ _ Hf).
    by apply Forall_delete.
  - by rewrite removeItem_absent.
Qed.

Lemma utf8Doc_reconcile range registryItems cache :
  admissible range → utf8Snapshot registryItems → utf8Doc cache →
  utf8Doc (reconcile range registryItems cache).
Proof.
  intros Hr Hsnap Hdoc. unfold reconcile. apply enablePass_Forall.
  - simpl. apply Forall_fmap. eapply Forall_impl; [done|].
    intros item Hitem. simpl. unfold disableStep. by case_match.
  - intros name value Hin. apply (admissible_elem _ _ _ _ Hr) in Hin.
    apply (map_Forall_lookup_1 _ _ _ _ Hsnap Hin).
Qed.

(** [loadCache] returns valid UTF-8, and [saveCache] writes a document
    of valid UTF-8 as it is. *)
Lemma loadCache_utf8 w cache : loadCache w = Ok cache → utf8Doc cache.
Proof.
  unfold loadCache.
  destruct (cacheFile w) as [[|doc]|]; destruct (openDenied w);
    intros [= <-]; try apply utf8Doc_toValidDoc; apply Forall_nil_2.
Qed.

Lemma saveCache_utf8 data w :
  utf8Doc data →
  saveCache data w =
  if createDenied w then (Some FilePermission, w)
  else (None, withCacheFile (Some (Json data)) w).
Proof. intros Hdoc. unfold saveCache. by rewrite toValidDoc_utf8. Qed.

(** A file that holds a document of valid UTF-8 loads as that
    document. *)
Lemma loadCache_saved data w :
  utf8Doc data → openDenied w = false →
  loadCache (withCacheFile (Some (Json data)) w) = Ok data.
Proof.
  intros Hdoc Hopen. unfold loadCache. simpl.
  by rewrite Hopen, toValidDoc_utf8.
Qed.

(** ** Synchronisation: what one run establishes *)

Lemma reconcile_sets range registryItems cache name value :
  admissible range → registryItems !! name = Some value →
  ∃ k, firstAt (reconcile range registryItems cache) name k
         {| Name := name; Value := value; Enabled := true |}.
Proof.
  intros Hr Hl. unfold reconcile. apply enablePass_sets.
  - by apply admissible_NoDup.
  - by apply admissible_elem.
Qed.

Lemma reconcile_disables range registryItems cache i item :
  admissible range → Items cache !! i = Some item →
  registryItems !! Name item = None →
  Items (reconcile range registryItems cache) !! i =
  Some (setEnabled false item).
Proof.
  intros Hr Hi Hnone. unfold reconcile.
  apply enablePass_keeps.
  - rewrite (disablePass_lookup _ _ _ _ Hi). unfold disableStep.
    by rewrite Hnone.
  - simpl. by apply admissible_key.
Qed.

Lemma reconcile_offOutside range registryItems cache :
  admissible range →
  Forall (offOutside registryItems)
    (Items (reconcile range registryItems cache)).
Proof.
  intros Hr. unfold reconcile. apply enablePass_Forall.
  - apply disablePass_offOutside.
  - intros name value Hin. apply (admissible_elem _ _ _ _ Hr) in Hin.
    unfold offOutside. simpl. congruence.
Qed.

Lemma reconcile_unique range registryItems cache :
  uniqueNames cache → uniqueNames (reconcile range registryItems cache).
Proof.
  intros Hu. unfold reconcile. apply enablePass_unique.
  unfold uniqueNames. by rewrite disablePass_names.
Qed.

Lemma reconcile_names range registryItems cache name :
  admissible range → registryItems !! name = None →
  name ∈ names (reconcile range registryItems cache) → name ∈ names cache.
Proof.
  intros Hr Hnone Hin. unfold reconcile in Hin.
  apply enablePass_names in Hin as [Hin|Hin].
  - by rewrite disablePass_names in Hin.
  - by destruct (admissible_key _ _ _ Hr Hnone).
Qed.

(** A document that already agrees with the snapshot is a fixed point of
    the two passes, whatever the order of the walk. *)
Lemma reconcile_fixed range registryItems cache :
  admissible range →
  Forall (offOutside registryItems) (Items cache) →
  (∀ name value, registryItems !! name = Some value →
     ∃ k, firstAt cache name k
            {| Name := name; Value := value; Enabled := true |}) →
  reconcile range registryItems cache = cache.
Proof.
  intros Hr Hoff Hon. unfold reconcile.
  rewrite disablePass_same by done.
  apply enablePass_same. intros name value Hin.
  apply Hon. by apply (admissible_elem _ _ _ _ Hr).
Qed.

(** C1. For every registry snapshot and every cache document, the
    document produced by the two passes of Sync has, for every name of
    the snapshot, an item of that name (the one a lookup by name
    returns) that is enabled and whose command is the registry's raw
    value; and every item of the old document whose name is not in the
    snapshot is still there, at its index, disabled and with its command
    unchanged. *)
Theorem sync_establishes_invariant
    (range : MapRange) (registryItems : gmap string string)
    (cache : CacheData) :
  admissible range →
  (∀ name value, registryItems !! name = Some value →
     ∃ k : nat,
       findItemByName (reconcile range registryItems cache) name =
         (Z.of_nat k,
          Some {| Name := name; Value := value; Enabled := true |}) ∧
       Items (reconcile range registryItems cache) !! k =
         Some {| Name := name; Value := value; Enabled := true |}) ∧
  (∀ i item, Items cache !! i = Some item →
     registryItems !! Name item = None →
     Items (reconcile range registryItems cache) !! i =
       Some {| Name := Name item; Value := Value item; Enabled := false |}).
Proof.
  intros Hr. split.
  - intros name value Hl.
    destruct (reconcile_sets range _ cache _ _ Hr Hl) as [k Hf].
    exists k. split; [by apply findItemByName_first|by destruct Hf].
  - intros i item Hi Hnone.
    by apply (reconcile_disables range _ _ _ _ Hr Hi Hnone).
Qed.

Lemma reconcile_idempotent range1 range2 registryItems cache :
  admissible range1 → admissible range2 →
  reconcile range2 registryItems (reconcile range1 registryItems cache) =
  reconcile range1 registryItems cache.
Proof.
  intros Hr1 Hr2. apply reconcile_fixed; [done| |].
  - by apply reconcile_offOutside.
  - intros name value Hl. by apply reconcile_sets.
Qed.

(** ** The snapshot read from the key *)

Lemma collect_lookup key valueNames acc name :
  foldl (collectStep key) acc valueNames !! name =
  if decide (name ∈ valueNames) then
    match GetStringValue key name with
    | Ok value => Some value
    | Err _ => acc !! name
    end
  else acc !! name.
Proof.
  revert acc. induction valueNames as [|n rest IH]; intros acc; simpl.
  - done.
  - rewrite IH. unfold collectStep.
    destruct (decide (name = n)) as [->|Hne].
    + rewrite (decide_True (P := n ∈ n :: rest)) by (by left).
      destruct (GetStringValue key n) as [value|e].
      * rewrite lookup_insert_eq. by case_decide.
      * by case_decide.
    + destruct (decide (name ∈ rest)) as [Hin|Hout].
      * rewrite (decide_True (P := name ∈ n :: rest)) by (by right).
        destruct (GetStringValue key name); [done|].
        destruct (GetStringValue key n); [|done].
        by rewrite lookup_insert_ne.
      * rewrite (decide_False (P := name ∈ n :: rest))
          by (by rewrite not_elem_of_cons).
        destruct (GetStringValue key n); [|done].
        by rewrite lookup_insert_ne.
Qed.

(** The snapshot holds exactly the names whose string value can be
    read, with that value. *)
Lemma snapshot_lookup key name :
  snapshot key !! name =
  match GetStringValue key name with
  | Ok value => Some value
  | Err _ => None
  end.
Proof.
  unfold snapshot, collectRegistryItems. rewrite collect_lookup.
  rewrite lookup_empty. case_decide as Hin; [done|].
  destruct (GetStringValue key name) as [value|e] eqn:Hget; [|done].
  exfalso. apply Hin. unfold GetStringValue in Hget.
  destruct (denied key QueryValue); [done|].
  destruct (values key !! name) as [rv|] eqn:Hl; [|done].
  apply list_elem_of_fmap. exists (name, rv). split; [done|].
  by apply elem_of_map_to_list.
Qed.

(** [syncCacheFromRegistry] when the cache loads and the key can be
    read: the two passes over the snapshot, then the save. *)
Lemma sync_runs range w cache :
  loadCache w = Ok cache →
  denied (registry w) OpenQuery = false →
  denied (registry w) EnumValues = false →
  syncCacheFromRegistry range w =
  (saveCache (reconcile range (snapshot (registry w)) cache) w).2.
Proof.
  intros Hload Hopen Henum. unfold syncCacheFromRegistry.
  rewrite Hload. unfold OpenKey. rewrite Hopen.
  unfold ReadValueNames. by rewrite Henum.
Qed.

(** Otherwise it returns without touching anything. *)
Lemma sync_skipped range w :
  (∃ e, loadCache w = Err e) ∨
  denied (registry w) OpenQuery = true ∨
  denied (registry w) EnumValues = true →
  syncCacheFromRegistry range w = w.
Proof.
  unfold syncCacheFromRegistry, OpenKey, ReadValueNames.
  intros [[e ->]|[H|H]]; [done| |].
  - destruct (loadCache w); [|done]. by rewrite H.
  - destruct (loadCache w); [|done].
    destruct (denied (registry w) OpenQuery); [done|]. by rewrite H.
Qed.

Lemma sync_idempotent_world range1 range2 w :
  admissible range1 → admissible range2 →
  utf8Snapshot (snapshot (registry w)) →
  syncCacheFromRegistry range2 (syncCacheFromRegistry range1 w) =
  syncCacheFromRegistry range1 w.
Proof.
  intros Hr1 Hr2 Hsnap.
  destruct (loadCache w) as [cache|e] eqn:Hload;
    [|rewrite (sync_skipped range1 w) by eauto; apply sync_skipped; eauto].
  destruct (denied (registry w) OpenQuery) eqn:Hopen;
    [rewrite (sync_skipped range1 w) by eauto; apply sync_skipped; eauto|].
  destruct (denied (registry w) EnumValues) eqn:Henum;
    [rewrite (sync_skipped range1 w) by eauto; apply sync_skipped; eauto|].
  pose proof (loadCache_utf8 _ _ Hload) as Hvalid.
  rewrite (sync_runs range1 w cache) by done.
  rewrite saveCache_utf8 by (by apply utf8Doc_reconcile).
  destruct (createDenied w) eqn:Hcreate; simpl.
  - rewrite (sync_runs range2 w cache) by done.
    unfold saveCache. by rewrite Hcreate.
  - set (cache1 := reconcile range1 (snapshot (registry w)) cache).
    assert (utf8Doc cache1) as Hvalid1 by (by apply utf8Doc_reconcile).
    destruct (openDenied w) eqn:Hden.
    + apply sync_skipped. left. exists FilePermission.
      unfold loadCache. simpl. by rewrite Hden.
    + rewrite (sync_runs range2 _ cache1);
        [|by apply loadCache_saved|done|done].
      simpl. unfold cache1. rewrite reconcile_idempotent by done.
      rewrite saveCache_utf8 by done. simpl. by rewrite Hcreate.
Qed.

(** C2. Sync is idempotent: running the two passes again on the
    document the first run produced, over the same snapshot, gives that
    document back, whatever order either run walks the snapshot in; and
    a second [syncCacheFromRegistry] right after the first leaves the
    cache file (and everything else) as the first left it, the names
    and values read from the key being valid UTF-8 as the [registry]
    package returns them. *)
Theorem sync_idempotent
    (range1 range2 : MapRange) (registryItems : gmap string string)
    (cache : CacheData) (w : World) :
  admissible range1 → admissible range2 →
  reconcile range2 registryItems (reconcile range1 registryItems cache) =
    reconcile range1 registryItems cache ∧
  (utf8Snapshot (snapshot (registry w)) →
   syncCacheFromRegistry range2 (syncCacheFromRegistry range1 w) =
     syncCacheFromRegistry range1 w).
Proof.
  intros Hr1 Hr2. split.
  - by apply reconcile_idempotent.
  - by apply sync_idempotent_world.
Qed.

(** ** Values that cannot be read as strings *)

(** The key without the value [name]. *)
Lemma snapshot_delete_unreadable key name e :
  GetStringValue key name = Err e →
  snapshot {| values := delete name (values key); denied := denied key |} =
  snapshot key.
Proof.
  intros Hget. apply map_eq. intros other. rewrite !snapshot_lookup.
  unfold GetStringValue in *. simpl.
  destruct (denied key QueryValue); [done|].
  destruct (decide (other = name)) as [->|Hne].
  - rewrite lookup_delete_eq.
    by destruct (values key !! name) as [[s|]|].
  - by rewrite lookup_delete_ne.
Qed.

(** C10. A value name of the key whose string value cannot be read is
    left out of the snapshot and Sync treats it like a name the key does
    not have: every cached item of that name is disabled in place with
    its command unchanged, the passes add no item of that name (so the
    document written has none either, the names read from the key being
    valid UTF-8), and the run completes and writes the cache, the same
    cache it writes when the key does not have the value at all. *)
Theorem sync_skips_unreadable_value
    (range : MapRange) (w : World) (cache : CacheData) (name : string)
    (e : RegError) :
  admissible range →
  loadCache w = Ok cache →
  denied (registry w) OpenQuery = false →
  denied (registry w) EnumValues = false →
  createDenied w = false →
  name ∈ (map_to_list (values (registry w))).*1 →
  GetStringValue (registry w) name = Err e →
  snapshot (registry w) !! name = None ∧
  ∃ cache',
    cachedDoc (syncCacheFromRegistry range w) = Some cache' ∧
    (∀ i item, Items cache !! i = Some item → Name item = name →
       Items cache' !! i =
         Some {| Name := name; Value := Value item; Enabled := false |}) ∧
    (name ∉ names cache →
       (name ∉ names (reconcile range (snapshot (registry w)) cache)) ∧
       (utf8Snapshot (snapshot (registry w)) → name ∉ names cache')) ∧
    cachedDoc
      (syncCacheFromRegistry range
         (withRegistry {| values := delete name (values (registry w));
                          denied := denied (registry w) |} w)) =
      Some cache'.
Proof.
  intros Hr Hload Hopen Henum Hcreate _ Hget.
  assert (snapshot (registry w) !! name = None) as Hnone
    by (by rewrite snapshot_lookup, Hget).
  pose proof (loadCache_utf8 _ _ Hload) as Hvalid.
  split; [done|].
  exists (toValidDoc (reconcile range (snapshot (registry w)) cache)).
  rewrite (sync_runs range w cache) by done.
  rewrite (sync_runs range (withRegistry _ w) cache) by done.
  unfold saveCache. simpl. rewrite Hcreate. simpl.
  split_and!.
  - done.
  - intros i item Hi <-. simpl. rewrite list_lookup_fmap.
    rewrite (reconcile_disables range _ _ _ _ Hr Hi) by done. simpl.
    destruct (utf8Doc_lookup _ _ _ Hvalid Hi) as [Hn Hv].
    unfold toValidItem. simpl. by rewrite Hn, Hv.
  - intros Hout.
    assert (name ∉ names (reconcile range (snapshot (registry w)) cache))
      as Hnew by (intros Hin; apply Hout; by eapply reconcile_names).
    split; [done|]. intros Hsnap.
    by rewrite toValidDoc_utf8 by (by apply utf8Doc_reconcile).
  - unfold cachedDoc. simpl.
    by rewrite (snapshot_delete_unreadable _ _ _ Hget).
Qed.

(** ** Loading the cache *)

(** C3, amended. A cache file that is absent loads as the empty
    document, and Sync then proceeds from the empty document and writes
    the result, as the JSON encoder writes it: the document of the two
    passes itself when the walk is over the snapshot and the names and
    values read from the key are valid UTF-8.  A cache file whose
    content cannot be parsed makes [loadCache] return an error, and Sync
    returns without writing anything, so the file stays as it is. *)
Theorem loadCache_absent_empty_malformed_error (range : MapRange) (w : World) :
  (cacheFile w = None →
     loadCache w = Ok {| Items := [] |} ∧
     (denied (registry w) OpenQuery = false →
      denied (registry w) EnumValues = false →
      createDenied w = false →
      cachedDoc (syncCacheFromRegistry range w) =
        Some (toValidDoc
                (reconcile range (snapshot (registry w))
                   {| Items := [] |})) ∧
      (admissible range → utf8Snapshot (snapshot (registry w)) →
       cachedDoc (syncCacheFromRegistry range w) =
         Some (reconcile range (snapshot (registry w))
                 {| Items := [] |})))) ∧
  (cacheFile w = Some Malformed →
     (∃ e, loadCache w = Err e) ∧ syncCacheFromRegistry range w = w).
Proof.
  split.
  - intros Habsent.
    assert (loadCache w = Ok {| Items := [] |}) as Hload
      by (unfold loadCache; by rewrite Habsent).
    split; [done|]. intros Hopen Henum Hcreate.
    rewrite (sync_runs range w _ Hload Hopen Henum).
    unfold saveCache. rewrite Hcreate. simpl.
    split; [done|]. intros Hr Hsnap.
    rewrite toValidDoc_utf8; [done|].
    apply utf8Doc_reconcile; [done|done|apply Forall_nil_2].
  - intros Hbad.
    assert (∃ e, loadCache w = Err e) as Herr.
    { unfold loadCache. rewrite Hbad. destruct (openDenied w); eauto. }
    split; [done|]. apply sync_skipped. by left.
Qed.

(** ** Registry operations of the program *)

(** A failed registry operation leaves the world as it was; a
    successful one changes only the values of the key. *)
Lemma AddCommandToStartup_cases command appName w :
  (∃ err, AddCommandToStartup command appName w = (Some err, w)) ∨
  (denied (registry w) OpenSet = false ∧
   denied (registry w) WriteValue = false ∧
   AddCommandToStartup command appName w =
     (None, withRegistry
              {| values := <[appName := StringValue command]>
                             (values (registry w));
                 denied := denied (registry w) |} w)).
Proof.
  unfold AddCommandToStartup, OpenKey, SetStringValue.
  destruct (denied (registry w) OpenSet); [left; eauto|].
  destruct (denied (registry w) WriteValue); [left; eauto|].
  by right.
Qed.

Lemma AddToStartup_cases exePath appName w :
  (∃ err, AddToStartup exePath appName w = (Some err, w)) ∨
  (∃ absPath,
     filepath_Abs w exePath = Some absPath ∧
     AddToStartup exePath appName w =
       (None, withRegistry
                {| values := <[appName := StringValue (quoted absPath)]>
                               (values (registry w));
                   denied := denied (registry w) |} w)).
Proof.
  unfold AddToStartup, OpenKey, SetStringValue.
  destruct (filepath_Abs w exePath) as [absPath|]; [|left; eauto].
  destruct (denied (registry w) OpenSet); [destruct (os_Stat w absPath); left; eauto|].
  destruct (denied (registry w) WriteValue); [destruct (os_Stat w absPath); left; eauto|].
  destruct (os_Stat w absPath); [right; eauto|right; eauto|left; eauto|right; eauto].
Qed.

Lemma RemoveFromStartup_cases appName w :
  (∃ err, RemoveFromStartup appName w = (Some err, w)) ∨
  (is_Some (values (registry w) !! appName) ∧
   RemoveFromStartup appName w =
     (None, withRegistry
              {| values := delete appName (values (registry w));
                 denied := denied (registry w) |} w)).
Proof.
  unfold RemoveFromStartup, OpenKey, DeleteValue.
  destruct (denied (registry w) OpenSet); [left; eauto|].
  destruct (denied (registry w) RemoveValue); [left; eauto|].
  destruct (values (registry w) !! appName) as [rv|]; [|left; eauto].
  right. eauto.
Qed.

(** When the key has no value of that name the delete reports just
    that, and nothing else reports it. *)
Lemma RemoveFromStartup_missing appName w :
  values (registry w) !! appName = None →
  denied (registry w) OpenSet = false →
  denied (registry w) RemoveValue = false →
  RemoveFromStartup appName w = (Some StartupItemMissing, w).
Proof.
  intros Hnone Hopen Hdel.
  unfold RemoveFromStartup, OpenKey, DeleteValue.
  by rewrite Hopen, Hdel, Hnone.
Qed.

Lemma RemoveFromStartup_missing_inv appName w w' :
  RemoveFromStartup appName w = (Some StartupItemMissing, w') →
  values (registry w) !! appName = None.
Proof.
  unfold RemoveFromStartup, OpenKey, DeleteValue.
  destruct (denied (registry w) OpenSet); [done|].
  destruct (denied (registry w) RemoveValue); [done|].
  by destruct (values (registry w) !! appName).
Qed.

(** ** Picking an entry of a shown list *)

Lemma showListWithBack_chosen shown input idx :
  showListWithBack shown input = (idx, true) →
  ∃ num, input = InputNum num ∧ idx = (num - 1)%Z ∧
         (1 ≤ num)%Z ∧ (num ≤ Z.of_nat (length shown))%Z.
Proof.
  unfold showListWithBack. destruct (length shown =? 0)%nat; [done|].
  destruct input as [| |num]; [done|done|].
  destruct (num <? 1)%Z eqn:H1; [done|].
  destruct (Z.of_nat (length shown) <? num)%Z eqn:H2; [done|].
  simpl. intros [= <-]. exists num. split_and!; [done|done|lia|lia].
Qed.

Lemma showListWithBack_pick (shown : list ListItem.t) k sel :
  shown !! k = Some sel →
  showListWithBack shown (InputNum (Z.of_nat k + 1)) = (Z.of_nat k, true).
Proof.
  intros Hk. pose proof (lookup_lt_Some _ _ _ Hk) as Hlt.
  unfold showListWithBack.
  replace (length shown =? 0)%nat with false
    by (symmetry; apply Nat.eqb_neq; lia).
  replace (Z.of_nat k + 1 <? 1)%Z with false by (symmetry; apply Z.ltb_ge; lia).
  replace (Z.of_nat (length shown) <? Z.of_nat k + 1)%Z with false
    by (symmetry; apply Z.ltb_ge; lia).
  simpl. f_equal. lia.
Qed.

(** An entry of the list of enabled (disabled) items is an enabled
    (disabled) item of the document. *)
Lemma enabledItems_lookup cache k sel :
  enabledItems cache !! k = Some sel →
  ∃ item, item ∈ Items cache ∧ Enabled item = true ∧ sel = toListItem item.
Proof.
  unfold enabledItems. rewrite list_lookup_fmap.
  destruct (filter _ (Items cache) !! k) as [item|] eqn:Hk; [|done].
  intros [= <-]. apply list_elem_of_lookup_2, list_elem_of_filter in Hk.
  exists item. by destruct Hk.
Qed.

Lemma disabledItems_lookup cache k sel :
  disabledItems cache !! k = Some sel →
  ∃ item, item ∈ Items cache ∧ Enabled item = false ∧ sel = toListItem item.
Proof.
  unfold disabledItems. rewrite list_lookup_fmap.
  destruct (filter _ (Items cache) !! k) as [item|] eqn:Hk; [|done].
  intros [= <-]. apply list_elem_of_lookup_2, list_elem_of_filter in Hk.
  exists item. by destruct Hk.
Qed.

(** ** Disable when the registry value is already gone *)

(** What a run of Sync writes, and what it makes of the cached items
    of a name the snapshot does not have. *)
Lemma sync_saves range w cache :
  loadCache w = Ok cache →
  denied (registry w) OpenQuery = false →
  denied (registry w) EnumValues = false →
  createDenied w = false →
  cachedDoc (syncCacheFromRegistry range w) =
  Some (toValidDoc (reconcile range (snapshot (registry w)) cache)).
Proof.
  intros Hload Hopen Henum Hcreate.
  rewrite (sync_runs range w cache) by done.
  unfold saveCache. by rewrite Hcreate.
Qed.

Lemma sync_disables_absent range w cache name i item :
  admissible range →
  loadCache w = Ok cache →
  snapshot (registry w) !! name = None →
  Items cache !! i = Some item → Name item = name →
  Items (toValidDoc (reconcile range (snapshot (registry w)) cache)) !! i =
  Some {| Name := name; Value := Value item; Enabled := false |}.
Proof.
  intros Hr Hload Hnone Hi <-. simpl. rewrite list_lookup_fmap.
  rewrite (reconcile_disables range _ _ _ _ Hr Hi) by done. simpl.
  destruct (utf8Doc_lookup _ _ _ (loadCache_utf8 _ _ Hload) Hi) as [Hn Hv].
  unfold toValidItem. simpl. by rewrite Hn, Hv.
Qed.

(** C4, amended. When the user disables an enabled cache item called
    [name] and the key has no value of that name, the delete fails and
    [handleDisable] reports the failure (the not-found error of
    [RemoveFromStartup] when the key can be opened and written); it
    does not touch the cache, so the item stays enabled with its
    command, and nothing else changes either.  A Sync that runs
    afterwards, reads the key and writes the cache marks the item
    disabled, its command unchanged. *)
Theorem disable_missing_value_fails
    (range : MapRange) (w : World) (cache : CacheData) (input : Input)
    (name : string) :
  loadCache w = Ok cache →
  selects (enabledItems cache) input name →
  values (registry w) !! name = None →
  (∃ err, handleDisable input true w = (Failed err, w)) ∧
  (denied (registry w) OpenSet = false →
   denied (registry w) RemoveValue = false →
   handleDisable input true w = (Failed StartupItemMissing, w)) ∧
  loadCache (handleDisable input true w).2 = Ok cache ∧
  (admissible range →
   denied (registry w) OpenQuery = false →
   denied (registry w) EnumValues = false →
   createDenied w = false →
   ∃ cache',
     cachedDoc
       (syncCacheFromRegistry range (handleDisable input true w).2) =
       Some cache' ∧
     ∀ i item, Items cache !! i = Some item → Name item = name →
       Items cache' !! i =
         Some {| Name := name; Value := Value item; Enabled := false |}).
Proof.
  intros Hload (idx & sel & Hshow & Hsel & <-) Hnone.
  assert (∃ err, handleDisable input true w = (Failed err, w)) as [err Hrun].
  { unfold handleDisable. rewrite Hload. simpl. rewrite Hshow, Hsel. simpl.
    destruct (RemoveFromStartup_cases (ListItem.Name sel) w)
      as [[err Herr]|[[rv Hsome] _]]; [|congruence].
    rewrite Herr. eauto. }
  split_and!.
  - eauto.
  - intros Hopen Hdel. unfold handleDisable. rewrite Hload. simpl.
    rewrite Hshow, Hsel. simpl. by rewrite RemoveFromStartup_missing.
  - by rewrite Hrun.
  - intros Hr Hopen Henum Hcreate. rewrite Hrun. simpl.
    eexists. split; [by apply sync_saves|].
    intros i item Hi Hname. apply sync_disables_absent; try done.
    rewrite snapshot_lookup. unfold GetStringValue.
    destruct (denied (registry w) QueryValue); [done|]. by rewrite Hnone.
Qed.

(** ** Failed registry writes leave the cache alone *)

(** C5, amended. [AddToStartup] fails with the file-not-found error
    when [os.Stat] reports that the path does not exist; that is the
    only check on the path: when [os.Stat] reports anything else (a
    file, a directory, an error of another kind) the quoted path is
    written to the key as a command would be.  A refused registry
    set-operation makes [AddToStartup] fail; and whenever
    [AddToStartup] fails, for whatever reason, [handleAddToStartup]
    leaves the cache file, and the whole world, exactly as it was. *)
Theorem add_program_failure_keeps_cache
    (exePath : string) (confirmReset confirmAdd : bool) (w : World) :
  (∀ appName absPath,
     filepath_Abs w exePath = Some absPath →
     os_Stat w absPath = StatNotExist →
     AddToStartup exePath appName w = (Some (FileMissing absPath), w)) ∧
  (∀ appName absPath,
     filepath_Abs w exePath = Some absPath →
     os_Stat w absPath ≠ StatNotExist →
     AddToStartup exePath appName w =
       AddCommandToStartup (quoted absPath) appName w) ∧
  (∀ appName,
     denied (registry w) WriteValue = true →
     ∃ err, AddToStartup exePath appName w = (Some err, w)) ∧
  (∀ err w',
     AddToStartup exePath (getAppName w exePath) w = (Some err, w') →
     w' = w ∧
     (handleAddToStartup exePath confirmReset confirmAdd w).2 = w ∧
     cacheFile (handleAddToStartup exePath confirmReset confirmAdd w).2 =
       cacheFile w).
Proof.
  split_and!.
  - intros appName absPath Habs Hstat. unfold AddToStartup.
    by rewrite Habs, Hstat.
  - intros appName absPath Habs Hstat.
    unfold AddToStartup, AddCommandToStartup. rewrite Habs.
    by destruct (os_Stat w absPath).
  - intros appName Hset. unfold AddToStartup, OpenKey, SetStringValue.
    destruct (filepath_Abs w exePath) as [absPath|]; [|eauto].
    destruct (os_Stat w absPath), (denied (registry w) OpenSet);
      simpl; rewrite ?Hset; eauto.
  - intros err w' Hfail.
    assert (w' = w) as ->.
    { destruct (AddToStartup_cases exePath (getAppName w exePath) w)
        as [[err' Herr]|(absPath & _ & Hok)]; congruence. }
    assert ((handleAddToStartup exePath confirmReset confirmAdd w).2 = w)
      as Hsame.
    { unfold handleAddToStartup. rewrite Hfail.
      repeat case_match; done. }
    by rewrite Hsame.
Qed.

(** C6. When the user enables a disabled cache item and the registry
    write fails, [handleEnable] reports that error and leaves the world
    untouched: the cache still loads as the same document, so the item
    is still disabled and no field of any item has changed. *)
Theorem enable_write_failure_keeps_cache
    (w w' : World) (cache : CacheData) (input : Input) (idx : Z)
    (sel : ListItem.t) (err : AppError) :
  loadCache w = Ok cache →
  showListWithBack (disabledItems cache) input = (idx, true) →
  disabledItems cache !! Z.to_nat idx = Some sel →
  AddCommandToStartup (ListItem.Value sel) (ListItem.Name sel) w
    = (Some err, w') →
  handleEnable input true w = (Failed err, w) ∧
  cacheFile (handleEnable input true w).2 = cacheFile w ∧
  loadCache (handleEnable input true w).2 = Ok cache ∧
  (∃ item, item ∈ Items cache ∧ Name item = ListItem.Name sel ∧
           Enabled item = false).
Proof.
  intros Hload Hshow Hsel Hfail.
  assert (w' = w) as ->.
  { destruct (AddCommandToStartup_cases (ListItem.Value sel)
                (ListItem.Name sel) w) as [[err' Herr]|(_ & _ & Hok)];
      congruence. }
  assert (handleEnable input true w = (Failed err, w)) as Hrun.
  { unfold handleEnable. rewrite Hload. simpl.
    by rewrite Hshow, Hsel, Hfail. }
  rewrite Hrun. simpl. split_and!; [done|done|done|].
  destruct (disabledItems_lookup _ _ _ Hsel) as (item & Hin & Hoff & ->).
  by exists item.
Qed.

(** ** Removing a program *)

(** C7. [RemoveFromStartup] fails with the not-found error when the key
    has no value of that name, an error no other failure produces; and
    when the user removes a listed value, the registry value is deleted
    and the cache item of that name is taken out of the document (the
    first such item; with distinct names no item of that name is
    left). *)
Theorem remove_program_not_found_or_removed
    (w : World) (name : string) (num : Z) (valueNames : list string)
    (cache : CacheData) :
  (values (registry w) !! name = None →
   denied (registry w) OpenSet = false →
   denied (registry w) RemoveValue = false →
   RemoveFromStartup name w = (Some StartupItemMissing, w)) ∧
  (∀ w', RemoveFromStartup name w = (Some StartupItemMissing, w') →
         values (registry w) !! name = None) ∧
  (denied (registry w) OpenQuery = false →
   ReadValueNames (registry w) = Ok valueNames →
   (1 ≤ num)%Z →
   valueNames !! Z.to_nat (num - 1) = Some name →
   denied (registry w) OpenSet = false →
   denied (registry w) RemoveValue = false →
   loadCache w = Ok cache →
   createDenied w = false →
   ∃ w', handleRemoveFromStartup (InputNum num) true w = (Succeeded, w') ∧
         values (registry w') = delete name (values (registry w)) ∧
         cachedDoc w' = Some (removeItem cache name) ∧
         (∀ k item, firstAt cache name k item →
            Items (removeItem cache name) = delete k (Items cache)) ∧
         (uniqueNames cache → name ∉ names (removeItem cache name))).
Proof.
  split_and!.
  - apply RemoveFromStartup_missing.
  - apply RemoveFromStartup_missing_inv.
  - intros Hquery Hread Hnum Hsel Hopen Hdel Hload Hcreate.
    pose proof (lookup_lt_Some _ _ _ Hsel) as Hlt.
    assert (is_Some (values (registry w) !! name)) as [rv Hrv].
    { unfold ReadValueNames in Hread.
      destruct (denied (registry w) EnumValues); [done|].
      injection Hread as <-.
      apply list_elem_of_lookup_2, list_elem_of_fmap in Hsel
        as ([n v] & -> & Hin).
      apply elem_of_map_to_list in Hin. by exists v. }
    eexists. unfold handleRemoveFromStartup, OpenKey.
    rewrite Hquery, Hread.
    replace (length valueNames =? 0)%nat with false
      by (symmetry; apply Nat.eqb_neq; lia).
    replace (num <? 1)%Z with false by (symmetry; apply Z.ltb_ge; lia).
    replace (Z.of_nat (length valueNames) <? num)%Z with false
      by (symmetry; apply Z.ltb_ge; lia).
    simpl. rewrite Hsel.
    unfold RemoveFromStartup, OpenKey, DeleteValue.
    rewrite Hopen, Hdel, Hrv.
    pose proof (loadCache_utf8 _ _ Hload) as Hvalid.
    unfold loadCache in *. simpl. rewrite Hload.
    unfold saveCache. simpl. rewrite Hcreate. simpl.
    rewrite toValidDoc_utf8 by (by apply utf8Doc_removeItem).
    split_and!; [done|done|done| |].
    + intros k item. apply removeItem_first.
    + apply removeItem_gone.
Qed.

(** ** Distinct names *)

Lemma unique_lookup cache i j item1 item2 :
  uniqueNames cache →
  Items cache !! i = Some item1 → Items cache !! j = Some item2 →
  Name item1 = Name item2 → i = j.
Proof.
  intros Hu Hi Hj Hname. apply (NoDup_lookup (names cache) i j (Name item1)).
  - done.
  - unfold names. by rewrite list_lookup_fmap, Hi.
  - unfold names. by rewrite list_lookup_fmap, Hj, Hname.
Qed.

Lemma unique_item cache item1 item2 :
  uniqueNames cache → item1 ∈ Items cache → item2 ∈ Items cache →
  Name item1 = Name item2 → item1 = item2.
Proof.
  intros Hu [i Hi]%list_elem_of_lookup_1 [j Hj]%list_elem_of_lookup_1 Hname.
  assert (i = j) as -> by (by eapply unique_lookup). congruence.
Qed.

Lemma unique_firstAt cache k item :
  uniqueNames cache → Items cache !! k = Some item →
  firstAt cache (Name item) k item.
Proof.
  intros Hu Hk. split_and!; [done|done|].
  intros j other Hj Hl Hname.
  assert (j = k) by (by eapply unique_lookup). lia.
Qed.

Lemma loadCache_unique w cache :
  cacheUnique w → loadCache w = Ok cache → uniqueNames cache.
Proof.
  unfold cacheUnique, cachedDoc, loadCache.
  destruct (cacheFile w) as [[|doc]|]; destruct (openDenied w);
    intros Hu [= <-]; try done; apply NoDup_nil_2.
Qed.

(** Names of valid UTF-8 are written as they are, so the file gets the
    distinct names of the document. *)
Lemma saveCache_unique w cache :
  cacheUnique w → uniqueNames cache → Forall utf8 (names cache) →
  cacheUnique (saveCache cache w).2.
Proof.
  intros Hw Hc Hn. unfold saveCache. destruct (createDenied w); [done|].
  unfold cacheUnique, cachedDoc, uniqueNames. simpl.
  rewrite toValidDoc_utf8 by apply utf8Doc_toValidDoc.
  by rewrite names_utf8.
Qed.

Lemma addOrUpdateItem_names_utf8 data name value enabled :
  Forall utf8 (names data) → utf8 name →
  Forall utf8 (names (addOrUpdateItem data name value enabled)).
Proof.
  intros Hn Hname. rewrite addOrUpdateItem_names. case_decide; [done|].
  apply Forall_app. split; [done|]. by apply Forall_singleton.
Qed.

Lemma removeItem_names_utf8 data name :
  Forall utf8 (names data) → Forall utf8 (names (removeItem data name)).
Proof.
  intros Hn. apply Forall_forall. intros other Hin.
  apply (proj1 (Forall_forall _ _) Hn).
  by eapply elem_of_sublist; [|apply removeItem_sublist].
Qed.

Lemma loadCache_names_utf8 w cache :
  loadCache w = Ok cache → Forall utf8 (names cache).
Proof. intros Hload. by eapply utf8Doc_names, loadCache_utf8. Qed.

(** The entries of the lists shown are items of the document. *)
Lemma enabledItems_utf8 cache k sel :
  utf8Doc cache → enabledItems cache !! k = Some sel →
  utf8 (ListItem.Name sel) ∧ utf8 (ListItem.Value sel).
Proof.
  intros Hdoc Hk.
  destruct (enabledItems_lookup _ _ _ Hk) as (item & Hin & _ & ->).
  apply (utf8Doc_elem _ _ Hdoc Hin).
Qed.

Lemma disabledItems_utf8 cache k sel :
  utf8Doc cache → disabledItems cache !! k = Some sel →
  utf8 (ListItem.Name sel) ∧ utf8 (ListItem.Value sel).
Proof.
  intros Hdoc Hk.
  destruct (disabledItems_lookup _ _ _ Hk) as (item & Hin & _ & ->).
  apply (utf8Doc_elem _ _ Hdoc Hin).
Qed.

Lemma handleAddToStartup_unique exePath confirmReset confirmAdd w :
  utf8 (getAppName w exePath) → cacheUnique w →
  cacheUnique (handleAddToStartup exePath confirmReset confirmAdd w).2.
Proof.
  intros Hn Hu. unfold handleAddToStartup.
  destruct (AddToStartup_cases exePath (getAppName w exePath) w)
    as [[err ->]|(absPath & _ & ->)]; repeat case_match; try done.
  all: apply saveCache_unique; [done| |].
  all: try (apply addOrUpdateItem_unique; by eapply (loadCache_unique w)).
  all: apply addOrUpdateItem_names_utf8; [|done].
  all: by eapply (loadCache_names_utf8 w).
Qed.

Lemma handleAddCommand_unique appName command confirm w :
  utf8 appName → cacheUnique w →
  cacheUnique (handleAddCommand appName command confirm w).2.
Proof.
  intros Hn Hu. unfold handleAddCommand.
  destruct (AddCommandToStartup_cases command appName w)
    as [[err ->]|(_ & _ & ->)]; repeat case_match; try done.
  all: apply saveCache_unique; [done| |].
  all: try (apply addOrUpdateItem_unique; by eapply (loadCache_unique w)).
  all: apply addOrUpdateItem_names_utf8; [|done].
  all: by eapply (loadCache_names_utf8 w).
Qed.

(** The world after a registry operation of the program has the cache
    file of the world before. *)
Ltac registry_step :=
  match goal with
  | H : RemoveFromStartup ?n ?w = _ |- _ =>
      let E := fresh "E" in
      destruct (RemoveFromStartup_cases n w) as [[? E]|[_ E]];
      rewrite E in H; simplify_eq
  | H : AddCommandToStartup ?c ?n ?w = _ |- _ =>
      let E := fresh "E" in
      destruct (AddCommandToStartup_cases c n w) as [[? E]|(_ & _ & E)];
      rewrite E in H; simplify_eq
  end.

Lemma handleRemoveFromStartup_unique input confirm w :
  cacheUnique w → cacheUnique (handleRemoveFromStartup input confirm w).2.
Proof.
  intros Hu. unfold handleRemoveFromStartup.
  repeat case_match; try done; registry_step; try done.
  apply saveCache_unique; [done| |].
  - apply removeItem_unique. by eapply (loadCache_unique w).
  - apply removeItem_names_utf8. by eapply (loadCache_names_utf8 w).
Qed.

Lemma handleEnable_unique input confirm w :
  cacheUnique w → cacheUnique (handleEnable input confirm w).2.
Proof.
  intros Hu. unfold handleEnable.
  repeat case_match; try done; registry_step; try done.
  apply saveCache_unique; [done| |].
  - apply addOrUpdateItem_unique. by eapply (loadCache_unique w).
  - apply addOrUpdateItem_names_utf8.
    + by eapply (loadCache_names_utf8 w).
    + by eapply disabledItems_utf8; [eapply (loadCache_utf8 w)|].
Qed.

Lemma handleDisable_unique input confirm w :
  cacheUnique w → cacheUnique (handleDisable input confirm w).2.
Proof.
  intros Hu. unfold handleDisable.
  repeat case_match; try done; registry_step; try done.
  apply saveCache_unique; [done| |].
  - apply addOrUpdateItem_unique. by eapply (loadCache_unique w).
  - apply addOrUpdateItem_names_utf8.
    + by eapply (loadCache_names_utf8 w).
    + by eapply enabledItems_utf8; [eapply (loadCache_utf8 w)|].
Qed.

Lemma syncCacheFromRegistry_unique range w :
  Forall utf8 (range (snapshot (registry w))).*1 →
  cacheUnique w → cacheUnique (syncCacheFromRegistry range w).
Proof.
  intros Hn Hu.
  destruct (loadCache w) as [cache|e] eqn:Hload;
    [|by rewrite sync_skipped by eauto].
  destruct (denied (registry w) OpenQuery) eqn:Hopen;
    [by rewrite sync_skipped by eauto|].
  destruct (denied (registry w) EnumValues) eqn:Henum;
    [by rewrite sync_skipped by eauto|].
  rewrite (sync_runs range w cache) by done.
  apply saveCache_unique; [done| |].
  - apply reconcile_unique. by eapply loadCache_unique.
  - apply Forall_forall. intros name Hin. unfold reconcile in Hin.
    apply enablePass_names in Hin as [Hin|Hin].
    + rewrite disablePass_names in Hin.
      by apply (proj1 (Forall_forall _ _) (loadCache_names_utf8 _ _ Hload)).
    + by apply (proj1 (Forall_forall _ _) Hn).
Qed.

(** C9, amended. The helpers behind the operations keep names
    distinct: a lookup by name finds the item and an upsert of a name
    the document has updates it in place, so the list of names is the
    same; [addOrUpdateItem], [removeItem] and the two passes of Sync
    turn a document with distinct names into one with distinct names.
    The document in the cache file keeps distinct names across an
    operation (Sync, adding a program or a command, removing, enabling,
    disabling), whatever the user answers and whether or not the
    registry and the file system cooperate, provided the names the
    operation can add are valid UTF-8. *)
Theorem name_uniqueness_invariant
    (range : MapRange) (c : Command) (w : World)
    (data : CacheData) (registryItems : gmap string string)
    (name value : string) (enabled : bool) :
  (newNamesUtf8 range c w → cacheUnique w →
   cacheUnique (exec range c w).2) ∧
  (uniqueNames data →
     uniqueNames (addOrUpdateItem data name value enabled) ∧
     uniqueNames (removeItem data name) ∧
     uniqueNames (reconcile range registryItems data)) ∧
  (name ∈ names data →
     names (addOrUpdateItem data name value enabled) = names data).
Proof.
  split_and!.
  - intros Hn Hu. destruct c; simpl in *.
    + by apply syncCacheFromRegistry_unique.
    + by apply handleAddToStartup_unique.
    + by apply handleRemoveFromStartup_unique.
    + by apply handleAddCommand_unique.
    + by apply handleEnable_unique.
    + by apply handleDisable_unique.
  - intros Hu. split_and!.
    + by apply addOrUpdateItem_unique.
    + by apply removeItem_unique.
    + by apply reconcile_unique.
  - intros Hin. rewrite addOrUpdateItem_names. by rewrite decide_True.
Qed.

(** ** Disable, then enable *)

Lemma loadCache_nonempty w cache k item :
  loadCache w = Ok cache → Items cache !! k = Some item →
  openDenied w = false.
Proof.
  unfold loadCache. intros Hload Hk.
  destruct (cacheFile w) as [[|doc]|]; destruct (openDenied w);
    simplify_eq; try done.
  all: by rewrite lookup_nil in Hk.
Qed.

(** C8, amended. Take a document with distinct names in which the item
    called [name] is enabled with command [command], and a key that has
    a value called [name].  Disabling the item succeeds, deletes the
    registry value and marks the item disabled with its command kept;
    enabling it again succeeds, writes the cached [command] to the
    registry under [name] and brings the cache back to the document it
    was.  So the registry value is the one from before the round trip
    exactly when the cache agreed with the registry to begin with, as
    it does after Sync. *)
Theorem disable_enable_round_trip
    (w : World) (cache : CacheData) (name command : string) (k : nat)
    (input1 : Input) (rv : RegValue) :
  loadCache w = Ok cache →
  uniqueNames cache →
  Items cache !! k =
    Some {| Name := name; Value := command; Enabled := true |} →
  values (registry w) !! name = Some rv →
  denied (registry w) OpenSet = false →
  denied (registry w) WriteValue = false →
  denied (registry w) RemoveValue = false →
  createDenied w = false →
  selects (enabledItems cache) input1 name →
  ∃ w1,
    handleDisable input1 true w = (Succeeded, w1) ∧
    values (registry w1) !! name = None ∧
    cachedDoc w1 = Some (addOrUpdateItem cache name command false) ∧
    Items (addOrUpdateItem cache name command false) !! k =
      Some {| Name := name; Value := command; Enabled := false |} ∧
    ∀ input2,
      selects (disabledItems (addOrUpdateItem cache name command false))
        input2 name →
      ∃ w2,
        handleEnable input2 true w1 = (Succeeded, w2) ∧
        registryString w2 name = Some command ∧
        values (registry w2) =
          <[name := StringValue command]> (values (registry w)) ∧
        cachedDoc w2 = Some cache ∧
        (rv = StringValue command → values (registry w2) = values (registry w)).
Proof.
  intros Hload Hu Hk Hrv Hopen Hset Hdel Hcreate
    (idx1 & sel1 & Hshow1 & Hsel1 & Hname1).
  pose proof (loadCache_nonempty _ _ _ _ Hload Hk) as Hread.
  pose proof (loadCache_utf8 _ _ Hload) as Hvalid.
  destruct (utf8Doc_lookup _ _ _ Hvalid Hk) as [Hname Hcommand].
  simpl in Hname, Hcommand.
  pose proof (unique_firstAt _ _ _ Hu Hk) as Hfirst. simpl in Hfirst.
  (* the entry picked is the item at [k] *)
  destruct (enabledItems_lookup _ _ _ Hsel1) as (item1 & Hin1 & _ & ->).
  simpl in Hname1.
  assert (item1 = {| Name := name; Value := command; Enabled := true |})
    as ->.
  { eapply unique_item; [done|done| |done].
    by eapply list_elem_of_lookup_2. }
  set (cache1 := addOrUpdateItem cache name command false).
  assert (Items cache1 =
          <[k := {| Name := name; Value := command; Enabled := false |}]>
            (Items cache)) as Hitems1
    by (by eapply addOrUpdateItem_first).
  assert (Items cache1 !! k =
          Some {| Name := name; Value := command; Enabled := false |})
    as Hk1.
  { rewrite Hitems1. apply list_lookup_insert_eq.
    by eapply lookup_lt_Some. }
  assert (utf8Doc cache1) as Hvalid1
    by (by apply utf8Doc_addOrUpdateItem).
  eexists. split_and!.
  - unfold handleDisable. rewrite Hload. simpl. rewrite Hshow1, Hsel1.
    simpl. unfold RemoveFromStartup, OpenKey, DeleteValue.
    rewrite Hopen, Hdel, Hrv. fold cache1.
    rewrite (saveCache_utf8 cache1) by done. simpl.
    rewrite Hcreate. reflexivity.
  - simpl. apply lookup_delete_eq.
  - done.
  - done.
  - intros input2 (idx2 & sel2 & Hshow2 & Hsel2 & Hname2).
    destruct (disabledItems_lookup _ _ _ Hsel2) as (item2 & Hin2 & _ & ->).
    simpl in Hname2.
    assert (item2 = {| Name := name; Value := command; Enabled := false |})
      as ->.
    { eapply (unique_item cache1); [|done| |done].
      - by apply addOrUpdateItem_unique.
      - by eapply list_elem_of_lookup_2. }
    assert (addOrUpdateItem cache1 name command true = cache) as Hback.
    { assert (firstAt cache1 name k
                {| Name := name; Value := command; Enabled := false |})
        as Hfirst1.
      { apply (unique_firstAt cache1 k
                 {| Name := name; Value := command; Enabled := false |});
          [by apply addOrUpdateItem_unique|done]. }
      pose proof (addOrUpdateItem_first _ _ command true _ _ Hfirst1) as Heq.
      rewrite Hitems1, list_insert_insert_eq, list_insert_id in Heq by done.
      destruct (addOrUpdateItem cache1 name command true), cache.
      simpl in Heq. by subst. }
    eexists. split_and!.
    + unfold handleEnable, loadCache. simpl. rewrite Hread.
      fold cache1. rewrite (toValidDoc_utf8 cache1) by done.
      rewrite Hshow2, Hsel2. simpl.
      unfold AddCommandToStartup, OpenKey, SetStringValue. simpl.
      rewrite Hopen. simpl. rewrite Hset. rewrite Hback.
      rewrite saveCache_utf8 by done. simpl.
      rewrite Hcreate. reflexivity.
    + unfold registryString. simpl. by rewrite lookup_insert_eq.
    + simpl. apply insert_delete_eq.
    + done.
    + intros ->. simpl. rewrite insert_delete_eq. by apply insert_id.
Qed.

(** * Scenarios run through the code *)

Lemma admissible_reverseRange : admissible reverseRange.
Proof. intros m. apply reverse_Permutation. Qed.

Lemma sync_establishes_invariant_witness :
  admissible map_to_list ∧
  (∃ k : nat,
     Items (reconcile map_to_list twoEntries {| Items := [barOn] |}) !! k =
       Some {| Name := "Baz"; Value := "baz.exe"; Enabled := true |}) ∧
  Items (reconcile map_to_list twoEntries {| Items := [barOn] |}) !! 0%nat =
    Some {| Name := "Bar"; Value := "bar.exe"; Enabled := false |}.
Proof.
  pose proof (sync_establishes_invariant map_to_list twoEntries
                {| Items := [barOn] |} admissible_map_to_list) as [Hon Hoff].
  split_and!.
  - apply admissible_map_to_list.
  - destruct (Hon "Baz" "baz.exe") as (k & _ & Hk); [reflexivity|].
    by exists k.
  - apply (Hoff 0%nat barOn); reflexivity.
Defined.

Lemma sync_idempotent_witness :
  reconcile reverseRange twoEntries
    (reconcile map_to_list twoEntries {| Items := [barOn] |}) =
    reconcile map_to_list twoEntries {| Items := [barOn] |} ∧
  syncCacheFromRegistry reverseRange
    (syncCacheFromRegistry map_to_list syncedWorld) =
    syncCacheFromRegistry map_to_list syncedWorld.
Proof.
  destruct (sync_idempotent map_to_list reverseRange twoEntries
              {| Items := [barOn] |} syncedWorld) as [Hdoc Hworld].
  - intros m. reflexivity.
  - apply admissible_reverseRange.
  - split; [exact Hdoc|]. apply Hworld.
    apply (bool_decide_unpack _). vm_compute. exact I.
Defined.

(** The two orders do differ on this snapshot, and so do the documents
    a first run produces under each. *)
Example ranges_differ :
  reconcile reverseRange twoEntries {| Items := [] |} ≠
  reconcile map_to_list twoEntries {| Items := [] |}.
Proof. vm_compute. discriminate. Qed.

Lemma sync_skips_unreadable_value_witness :
  snapshot (registry binaryWorld) !! "Foo" = None ∧
  ∃ cache',
    cachedDoc (syncCacheFromRegistry map_to_list binaryWorld) = Some cache' ∧
    Items cache' !! 0%nat = Some fooOff.
Proof.
  destruct (sync_skips_unreadable_value map_to_list binaryWorld
              {| Items := [fooOn] |} "Foo" ErrUnexpectedType)
    as (Hnone & cache' & Hdoc & Hoff & _ & _).
  - intros m. reflexivity.
  - reflexivity.
  - reflexivity.
  - reflexivity.
  - reflexivity.
  - apply (bool_decide_unpack _). vm_compute. exact I.
  - vm_compute. reflexivity.
  - split; [exact Hnone|]. exists cache'. split; [exact Hdoc|].
    apply (Hoff 0%nat fooOn); reflexivity.
Defined.

Example sync_binaryWorld :
  cachedDoc (syncCacheFromRegistry map_to_list binaryWorld) =
  Some {| Items := [fooOff; barOn] |}.
Proof. vm_compute. reflexivity. Qed.

Lemma loadCache_absent_empty_malformed_error_witness :
  loadCache freshWorld = Ok {| Items := [] |} ∧
  cachedDoc (syncCacheFromRegistry map_to_list freshWorld) =
    Some (reconcile map_to_list (snapshot (registry freshWorld))
            {| Items := [] |}) ∧
  syncCacheFromRegistry map_to_list malformedWorld = malformedWorld.
Proof.
  destruct (loadCache_absent_empty_malformed_error map_to_list freshWorld)
    as [Habsent _].
  destruct (loadCache_absent_empty_malformed_error map_to_list malformedWorld)
    as [_ Hbad].
  destruct (Habsent eq_refl) as [Hload Hsync].
  destruct (Hbad eq_refl) as [_ Hskip].
  split_and!; [exact Hload| |exact Hskip].
  destruct Hsync as [_ Hdoc]; [reflexivity|reflexivity|reflexivity|].
  apply Hdoc.
  - intros m. reflexivity.
  - apply (bool_decide_unpack _). vm_compute. exact I.
Defined.

(** C3, counterexample. The cache file does not parse, the key can be
    read and the file could be written; [loadCache] does not return the
    empty document but an error, and after Sync the file is still the
    one that does not parse. *)
Lemma malformed_cache_counterexample :
  cacheFile malformedWorld = Some Malformed ∧
  loadCache malformedWorld = Err JsonSyntax ∧
  loadCache malformedWorld ≠ Ok {| Items := [] |} ∧
  cacheFile (syncCacheFromRegistry map_to_list malformedWorld) =
    Some Malformed ∧
  cachedDoc (syncCacheFromRegistry map_to_list malformedWorld) ≠
    Some (reconcile map_to_list (snapshot (registry malformedWorld))
            {| Items := [] |}).
Proof. vm_compute. split_and!; try reflexivity; discriminate. Qed.

Lemma disable_missing_value_fails_witness :
  handleDisable (InputNum 1) true goneWorld =
    (Failed StartupItemMissing, goneWorld) ∧
  loadCache (handleDisable (InputNum 1) true goneWorld).2 =
    Ok {| Items := [fooOn] |} ∧
  ∃ cache',
    cachedDoc
      (syncCacheFromRegistry map_to_list
         (handleDisable (InputNum 1) true goneWorld).2) = Some cache' ∧
    Items cache' !! 0%nat = Some fooOff.
Proof.
  destruct (disable_missing_value_fails map_to_list goneWorld
              {| Items := [fooOn] |} (InputNum 1) "Foo")
    as (_ & Hmissing & Hcache & Hsync).
  - reflexivity.
  - exists 0%Z, (toListItem fooOn). split_and!; reflexivity.
  - reflexivity.
  - split_and!; [apply Hmissing; reflexivity|exact Hcache|].
    destruct Hsync as (cache' & Hdoc & Hoff).
    + intros m. reflexivity.
    + reflexivity.
    + reflexivity.
    + reflexivity.
    + exists cache'. split; [exact Hdoc|].
      apply (Hoff 0%nat fooOn); reflexivity.
Defined.

Example sync_after_failed_disable :
  cachedDoc
    (syncCacheFromRegistry map_to_list
       (handleDisable (InputNum 1) true goneWorld).2) =
  Some {| Items := [fooOff] |}.
Proof. vm_compute. reflexivity. Qed.

(** C4, counterexample. [Foo] is enabled in the cache and the key has
    no value [Foo].  Disabling it does not succeed: the not-found error
    is reported and the cached item is still enabled. *)
Lemma disable_missing_value_counterexample :
  loadCache goneWorld = Ok {| Items := [fooOn] |} ∧
  values (registry goneWorld) !! "Foo" = None ∧
  handleDisable (InputNum 1) true goneWorld =
    (Failed StartupItemMissing, goneWorld) ∧
  ¬ ((handleDisable (InputNum 1) true goneWorld).1 = Succeeded ∧
     cachedDoc (handleDisable (InputNum 1) true goneWorld).2 =
       Some {| Items := [fooOff] |}).
Proof.
  split_and!; [reflexivity|reflexivity|reflexivity|].
  intros [Hrep _]. vm_compute in Hrep. discriminate.
Qed.

Lemma add_program_failure_keeps_cache_witness :
  AddToStartup "app.exe" "app" missingFileWorld =
    (Some (FileMissing "app.exe"), missingFileWorld) ∧
  AddToStartup "tools" "tools" dirWorld =
    AddCommandToStartup (quoted "tools") "tools" dirWorld ∧
  (∃ err, AddToStartup "app.exe" "app" readOnlyWorld =
            (Some err, readOnlyWorld)) ∧
  cacheFile (handleAddToStartup "app.exe" false true missingFileWorld).2 =
    cacheFile missingFileWorld.
Proof.
  destruct (add_program_failure_keeps_cache "app.exe" false true
              missingFileWorld) as (Hmissing & _ & _ & Hkeep).
  destruct (add_program_failure_keeps_cache "tools" false true
              dirWorld) as (_ & Hother & _ & _).
  destruct (add_program_failure_keeps_cache "app.exe" false true
              readOnlyWorld) as (_ & _ & Hset & _).
  split_and!.
  - apply Hmissing; reflexivity.
  - apply Hother; [reflexivity|discriminate].
  - apply Hset. reflexivity.
  - apply (Hkeep (FileMissing "app.exe") missingFileWorld). reflexivity.
Defined.

(** C5, counterexample. The path is a directory, or [os.Stat] fails on
    it for a reason other than a missing file: it is not an existing
    file, yet [AddToStartup] returns no error, the quoted path is
    written to the key and the item is added to the cache. *)
Lemma add_program_not_a_file_counterexample :
  os_Stat dirWorld "tools" = StatDir ∧
  (AddToStartup "tools" "tools" dirWorld).1 = None ∧
  (handleAddToStartup "tools" false true dirWorld).1 = Succeeded ∧
  registryString (handleAddToStartup "tools" false true dirWorld).2 "tools"
    = Some (quoted "tools") ∧
  cachedDoc (handleAddToStartup "tools" false true dirWorld).2 =
    Some {| Items := [barOn;
                      {| Name := "tools"; Value := quoted "tools";
                         Enabled := true |}] |} ∧
  os_Stat statFailsWorld "tools" = StatOtherError ∧
  (AddToStartup "tools" "tools" statFailsWorld).1 = None ∧
  (handleAddToStartup "tools" false true statFailsWorld).1 = Succeeded ∧
  registryString (handleAddToStartup "tools" false true statFailsWorld).2
    "tools" = Some (quoted "tools").
Proof. vm_compute. split_and!; reflexivity. Qed.

Example add_program_missing_file :
  handleAddToStartup "app.exe" false true missingFileWorld =
  (Failed (FileMissing "app.exe"), missingFileWorld).
Proof. vm_compute. reflexivity. Qed.

Lemma enable_write_failure_keeps_cache_witness :
  handleEnable (InputNum 1) true readOnlyWorld =
    (Failed (SetValueFailed ErrAccessDenied), readOnlyWorld) ∧
  loadCache (handleEnable (InputNum 1) true readOnlyWorld).2 =
    Ok {| Items := [fooOff] |}.
Proof.
  destruct (enable_write_failure_keeps_cache readOnlyWorld readOnlyWorld
              {| Items := [fooOff] |} (InputNum 1) 0%Z (toListItem fooOff)
              (SetValueFailed ErrAccessDenied))
    as (Hrun & _ & Hload & _).
  - reflexivity.
  - reflexivity.
  - reflexivity.
  - reflexivity.
  - split; [exact Hrun|exact Hload].
Defined.

Lemma remove_program_not_found_or_removed_witness :
  RemoveFromStartup "Foo" goneWorld = (Some StartupItemMissing, goneWorld) ∧
  ∃ w', handleRemoveFromStartup (InputNum 1) true syncedWorld =
          (Succeeded, w') ∧
        values (registry w') !! "Foo" = None ∧
        cachedDoc w' = Some {| Items := [barOn] |}.
Proof.
  destruct (remove_program_not_found_or_removed goneWorld "Foo" 1 ["Foo"]
              {| Items := [fooOn] |}) as (Hmissing & _ & _).
  destruct (remove_program_not_found_or_removed syncedWorld "Foo" 1 ["Foo"]
              {| Items := [fooOn; barOn] |}) as (_ & _ & Hremove).
  split.
  - apply Hmissing; reflexivity.
  - destruct Hremove as (w' & Hrun & Hreg & Hdoc & _ & _).
    + reflexivity.
    + vm_compute. reflexivity.
    + lia.
    + reflexivity.
    + reflexivity.
    + reflexivity.
    + reflexivity.
    + reflexivity.
    + exists w'. split_and!; [exact Hrun| |exact Hdoc].
      rewrite Hreg. apply lookup_delete_eq.
Defined.

Lemma disable_enable_round_trip_witness :
  ∃ w1 w2,
    handleDisable (InputNum 1) true syncedWorld = (Succeeded, w1) ∧
    values (registry w1) !! "Foo" = None ∧
    handleEnable (InputNum 1) true w1 = (Succeeded, w2) ∧
    values (registry w2) = values (registry syncedWorld) ∧
    cachedDoc w2 = cachedDoc syncedWorld.
Proof.
  destruct (disable_enable_round_trip syncedWorld
              {| Items := [fooOn; barOn] |} "Foo" "foo.exe" 0%nat
              (InputNum 1) (StringValue "foo.exe"))
    as (w1 & Hdisable & Hgone & _ & _ & Henable).
  - reflexivity.
  - apply (bool_decide_unpack _). vm_compute. exact I.
  - reflexivity.
  - reflexivity.
  - reflexivity.
  - reflexivity.
  - reflexivity.
  - reflexivity.
  - exists 0%Z, (toListItem fooOn). split_and!; reflexivity.
  - destruct (Henable (InputNum 1)) as (w2 & Hrun & _ & _ & Hdoc & Hsame).
    + exists 0%Z, (toListItem fooOff). split_and!; reflexivity.
    + exists w1, w2. split_and!;
        [exact Hdisable|exact Hgone|exact Hrun| |exact Hdoc].
      apply Hsame. reflexivity.
Defined.

(** C8, counterexample. [Foo] is enabled in the cache with command
    [foo.exe] while the key has [Foo] with value [new.exe].  Disable and
    then Enable both succeed, and the key ends up with [foo.exe], not
    with the value it had before. *)
Lemma disable_enable_stale_counterexample :
  loadCache staleWorld = Ok {| Items := [fooOn] |} ∧
  registryString staleWorld "Foo" = Some "new.exe" ∧
  (handleDisable (InputNum 1) true staleWorld).1 = Succeeded ∧
  (handleEnable (InputNum 1) true
     (handleDisable (InputNum 1) true staleWorld).2).1 = Succeeded ∧
  registryString
    (handleEnable (InputNum 1) true
       (handleDisable (InputNum 1) true staleWorld).2).2 "Foo" =
    Some "foo.exe" ∧
  registryString
    (handleEnable (InputNum 1) true
       (handleDisable (InputNum 1) true staleWorld).2).2 "Foo" ≠
    registryString staleWorld "Foo".
Proof. vm_compute. split_and!; try reflexivity. discriminate. Qed.

Lemma name_uniqueness_invariant_witness :
  cacheUnique syncedWorld ∧
  cacheUnique (exec map_to_list (AddCommand "Bar" "other.exe" true)
                 syncedWorld).2 ∧
  uniqueNames (removeItem {| Items := [fooOn; barOn] |} "Bar") ∧
  names (addOrUpdateItem {| Items := [fooOn; barOn] |} "Bar" "other.exe" true)
    = names {| Items := [fooOn; barOn] |}.
Proof.
  assert (cacheUnique syncedWorld) as Hsynced
    by (apply (bool_decide_unpack _); vm_compute; exact I).
  destruct (name_uniqueness_invariant map_to_list
              (AddCommand "Bar" "other.exe" true) syncedWorld
              {| Items := [fooOn; barOn] |} ∅ "Bar" "other.exe" true)
    as (Hexec & Hpure & Hplace).
  split_and!.
  - exact Hsynced.
  - apply Hexec; [reflexivity|exact Hsynced].
  - apply Hpure. exact Hsynced.
  - apply Hplace. apply (bool_decide_unpack _). vm_compute. exact I.
Defined.

(** What [encoding/json] makes of some byte sequences: a character of
    three bytes and one of four are kept; a sequence cut short, an
    encoded surrogate, an overlong encoding and a lone byte get U+FFFD
    for each of their bytes. *)
Example toValidUTF8_three_bytes :
  toValidUTF8 (bytes [228; 184; 173]%nat) = bytes [228; 184; 173]%nat.
Proof. reflexivity. Qed.

Example toValidUTF8_four_bytes :
  toValidUTF8 (bytes [97; 240; 159; 152; 128; 98]%nat) =
  bytes [97; 240; 159; 152; 128; 98]%nat.
Proof. reflexivity. Qed.

Example toValidUTF8_cut_short :
  toValidUTF8 (bytes [228; 184]%nat) =
  bytes [239; 191; 189; 239; 191; 189]%nat.
Proof. reflexivity. Qed.

Example toValidUTF8_surrogate :
  toValidUTF8 (bytes [237; 160; 128]%nat) =
  bytes [239; 191; 189; 239; 191; 189; 239; 191; 189]%nat.
Proof. reflexivity. Qed.

Example toValidUTF8_overlong :
  toValidUTF8 (bytes [192; 128]%nat) =
  bytes [239; 191; 189; 239; 191; 189]%nat.
Proof. reflexivity. Qed.

Example toValidUTF8_lone_byte :
  toValidUTF8 (bytes [97; 200; 98]%nat) = bytes [97; 239; 191; 189; 98]%nat.
Proof. reflexivity. Qed.

Example toValidUTF8_badName : toValidUTF8 badName = badNameSaved.
Proof. reflexivity. Qed.

(** Saving and loading again is not the identity on such a name. *)
Example save_then_load_badName :
  loadCache
    (saveCache {| Items := [ {| Name := badName; Value := "cmd.exe";
                                Enabled := true |} ] |} emptyWorld).2 =
  Ok {| Items := [ {| Name := badNameSaved; Value := "cmd.exe";
                      Enabled := true |} ] |}.
Proof. reflexivity. Qed.

(** C9, counterexample. A name with a byte that is not valid UTF-8 is
    added as a command twice, to a world with no cache file.  Both runs
    succeed.  The file written by the first has one item, whose name
    has U+FFFD for the byte; the second run does not find the typed
    name in the document it loads and appends it again, and the file it
    writes has two items of the same name. *)
Lemma name_uniqueness_counterexample :
  cacheUnique emptyWorld ∧
  (exec map_to_list (AddCommand badName "cmd.exe" true) emptyWorld).1 =
    Succeeded ∧
  cacheUnique
    (exec map_to_list (AddCommand badName "cmd.exe" true) emptyWorld).2 ∧
  (exec map_to_list (AddCommand badName "cmd.exe" true)
     (exec map_to_list (AddCommand badName "cmd.exe" true) emptyWorld).2).1 =
    Succeeded ∧
  loadCache
    (exec map_to_list (AddCommand badName "cmd.exe" true)
       (exec map_to_list (AddCommand badName "cmd.exe" true)
          emptyWorld).2).2 =
    Ok {| Items := [ {| Name := badNameSaved; Value := "cmd.exe";
                        Enabled := true |};
                     {| Name := badNameSaved; Value := "cmd.exe";
                        Enabled := true |} ] |} ∧
  ¬ cacheUnique
      (exec map_to_list (AddCommand badName "cmd.exe" true)
         (exec map_to_list (AddCommand badName "cmd.exe" true)
            emptyWorld).2).2.
Proof.
  split_and!.
  - exact I.
  - reflexivity.
  - apply (bool_decide_unpack _). vm_compute. exact I.
  - vm_compute. reflexivity.
  - vm_compute. reflexivity.
  - intros Hu. apply (bool_decide_pack _) in Hu. vm_compute in Hu.
    exact Hu.
Qed.

Example add_command_updates_in_place :
  cachedDoc (exec map_to_list (AddCommand "Bar" "other.exe" true)
               syncedWorld).2 =
  Some {| Items := [fooOn;
                    {| Name := "Bar"; Value := "other.exe";
                       Enabled := true |}] |}.
Proof. vm_compute. reflexivity. Qed.

(** The scenarios of the specification. *)
Example sync_fills_empty_cache :
  cachedDoc (syncCacheFromRegistry map_to_list freshWorld) =
  Some {| Items := [fooOn] |}.
Proof. vm_compute. reflexivity. Qed.

Example sync_disables_missing :
  cachedDoc (syncCacheFromRegistry map_to_list syncedWorld) =
  Some {| Items := [fooOn;
                    {| Name := "Bar"; Value := "bar.exe";
                       Enabled := false |}] |}.
Proof. vm_compute. reflexivity. Qed.

(** The handlers that drop the error of [loadCache] dereference a nil
    document when the cache file does not parse: the registry has been
    written by then. *)
Example add_command_malformed_cache :
  (handleAddCommand "Baz" "baz.exe" true malformedWorld).1 = Panicked ∧
  registryString (handleAddCommand "Baz" "baz.exe" true malformedWorld).2
    "Baz" = Some "baz.exe".
Proof. vm_compute. split; reflexivity. Qed.

Example trim_extension : TrimSuffix "app.exe" ".exe" = "app".
Proof. reflexivity. Qed.

Example quoted_path :
  String.length (quoted "C:\a.exe") = (String.length "C:\a.exe" + 2)%nat.
Proof. reflexivity. Qed.

(** * Further properties of the code *)

(** ** Lookups and updates of the cache document *)

(** [findItemByName] returns [(-1, nil)] exactly when no item has the
    name; otherwise it returns the first item of that name with its
    index, which is within the bounds of the slice. *)
Theorem findItemByName_spec (data : CacheData) (name : string) :
  (findItemByName data name = ((-1)%Z, None) ∧ name ∉ names data) ∨
  (∃ (k : nat) (item : CacheItem),
     findItemByName data name = (Z.of_nat k, Some item) ∧
     (k < length (Items data))%nat ∧
     Items data !! k = Some item ∧ Name item = name ∧
     name ∉ take k (names data)).
Proof.
  destruct (findItemByName_cases data name)
    as [[Hout Hfind]|(k & item & Hf & Hfind)]; [by left|right].
  exists k, item. destruct Hf as (Hk & Hname & Hfirst).
  split_and!; [done|by eapply lookup_lt_Some|done|done|].
  intros Hin. apply list_elem_of_lookup_1 in Hin as [j Hj].
  apply lookup_take_Some in Hj as [Hj Hlt].
  unfold names in Hj. rewrite list_lookup_fmap in Hj.
  destruct (Items data !! j) as [other|] eqn:Hother; [|done].
  injection Hj as Hj. by apply (Hfirst j other).
Qed.

Lemma addOrUpdateItem_first_here data name value enabled k item :
  firstAt data name k item →
  firstAt (addOrUpdateItem data name value enabled) name k
    {| Name := name; Value := value; Enabled := enabled |}.
Proof.
  intros Hf. unfold firstAt.
  rewrite (addOrUpdateItem_first _ _ _ _ _ _ Hf).
  destruct Hf as (Hk & Hname & Hfirst). split_and!; [|done|].
  - apply list_lookup_insert_eq. by eapply lookup_lt_Some.
  - intros j other Hj Hl. rewrite list_lookup_insert_ne in Hl by lia.
    by apply (Hfirst j).
Qed.

Lemma addOrUpdateItem_first_end data name value enabled :
  name ∉ names data →
  firstAt (addOrUpdateItem data name value enabled) name
    (length (Items data))
    {| Name := name; Value := value; Enabled := enabled |}.
Proof.
  intros Hout. unfold firstAt. rewrite addOrUpdateItem_absent by done.
  split_and!; [|done|].
  - by rewrite lookup_app_r, Nat.sub_diag.
  - intros j other Hj Hl. rewrite lookup_app_l in Hl by done.
    intros <-. apply Hout. unfold names.
    apply list_elem_of_fmap. exists other. split; [done|].
    by apply list_elem_of_lookup_2 in Hl.
Qed.

Lemma CacheData_eq (d1 d2 : CacheData) : Items d1 = Items d2 → d1 = d2.
Proof. destruct d1, d2. simpl. by intros ->. Qed.

(** The last write wins: an upsert of a name overwrites an earlier
    upsert of the same name, and leaves no second item. *)
Theorem addOrUpdateItem_overwrites
    (data : CacheData) (name value1 value2 : string)
    (enabled1 enabled2 : bool) :
  addOrUpdateItem (addOrUpdateItem data name value1 enabled1)
    name value2 enabled2 =
  addOrUpdateItem data name value2 enabled2.
Proof.
  apply CacheData_eq.
  destruct (decide (name ∈ names data)) as [Hin|Hout].
  - destruct (firstAt_exists _ _ Hin) as (k & item & Hf).
    rewrite (addOrUpdateItem_first _ _ value2 enabled2 k _
               (addOrUpdateItem_first_here _ _ value1 enabled1 _ _ Hf)).
    rewrite !(addOrUpdateItem_first _ _ _ _ _ _ Hf).
    apply list_insert_insert_eq.
  - rewrite (addOrUpdateItem_first _ _ value2 enabled2 _ _
               (addOrUpdateItem_first_end _ _ value1 enabled1 Hout)).
    rewrite !addOrUpdateItem_absent by done.
    rewrite insert_app_r_alt by done. by rewrite Nat.sub_diag.
Qed.

(** Adding a name the document does not have and removing it again
    gives the document back. *)
Theorem removeItem_addOrUpdateItem_fresh
    (data : CacheData) (name value : string) (enabled : bool) :
  name ∉ names data →
  removeItem (addOrUpdateItem data name value enabled) name = data.
Proof.
  intros Hout. apply CacheData_eq.
  rewrite (removeItem_first _ _ _ _
             (addOrUpdateItem_first_end _ _ value enabled Hout)).
  rewrite addOrUpdateItem_absent by done.
  rewrite delete_take_drop, take_app_length.
  rewrite drop_app_ge by lia.
  replace (S (length (Items data)) - length (Items data))%nat with 1%nat
    by lia.
  simpl. by rewrite app_nil_r.
Qed.

Lemma removeItem_addOrUpdateItem_fresh_witness :
  removeItem (addOrUpdateItem {| Items := [fooOn] |} "Bar" "bar.exe" true)
    "Bar" = {| Items := [fooOn] |}.
Proof.
  apply removeItem_addOrUpdateItem_fresh.
  apply (bool_decide_unpack _). vm_compute. exact I.
Defined.

Lemma filter_all {A} (P : A → Prop) `{!∀ x, Decision (P x)} (l : list A) :
  Forall P l → filter P l = l.
Proof.
  induction 1 as [|x l Hx _ IH]; [done|].
  by rewrite filter_cons_True, IH.
Qed.

Lemma removeItem_as_filter (data : CacheData) (name : string) :
  uniqueNames data →
  Items (removeItem data name) =
  filter (λ item, Name item ≠ name) (Items data).
Proof.
  intros Hu. destruct (decide (name ∈ names data)) as [Hin|Hout].
  - destruct (firstAt_exists _ _ Hin) as (k & item & Hf).
    rewrite (removeItem_first _ _ _ _ Hf), delete_take_drop.
    destruct Hf as (Hk & Hname & _).
    assert (∀ j other, Items data !! j = Some other → j ≠ k →
                       Name other ≠ name) as Hother.
    { intros j other Hj Hne Heq. apply Hne.
      eapply (unique_lookup data j k); [done|done|done|congruence]. }
    rewrite <- (take_drop_middle _ _ _ Hk) at 3.
    rewrite filter_app, filter_cons_False by (by intros ?).
    rewrite !filter_all; [done| |].
    + apply Forall_forall. intros other Hin'.
      apply list_elem_of_lookup_1 in Hin' as [j Hj].
      rewrite lookup_drop in Hj. apply (Hother _ _ Hj). lia.
    + apply Forall_forall. intros other Hin'.
      apply list_elem_of_lookup_1 in Hin' as [j Hj].
      apply lookup_take_Some in Hj as [Hj Hlt].
      apply (Hother _ _ Hj). lia.
  - rewrite removeItem_absent by done. symmetry. apply filter_all.
    apply Forall_forall. intros other Hin' <-. apply Hout.
    unfold names. apply list_elem_of_fmap. by exists other.
Qed.

(** In a document with distinct names [removeItem] removes exactly the
    items called [name] and keeps the others in their order; in any
    document it removes one item when the name is there and none when
    it is not. *)
Theorem removeItem_filter (data : CacheData) (name : string) :
  (uniqueNames data →
   Items (removeItem data name) =
   filter (λ item, Name item ≠ name) (Items data)) ∧
  length (Items (removeItem data name)) =
    (if decide (name ∈ names data) then length (Items data) - 1
     else length (Items data))%nat.
Proof.
  split; [apply removeItem_as_filter|].
  case_decide as Hin.
  - destruct (firstAt_exists _ _ Hin) as (k & item & Hf).
    rewrite (removeItem_first _ _ _ _ Hf), length_delete; [done|].
    destruct Hf as (Hk & _). eauto.
  - by rewrite removeItem_absent.
Qed.

Lemma removeItem_filter_witness :
  Items (removeItem {| Items := [fooOn; barOn] |} "Foo") =
  filter (λ item, Name item ≠ "Foo") [fooOn; barOn].
Proof.
  apply (proj1 (removeItem_filter {| Items := [fooOn; barOn] |} "Foo")).
  apply (bool_decide_unpack _). vm_compute. exact I.
Defined.

(** After an upsert a lookup of the name finds the new item, and a
    lookup of any other name finds what it found before, at the same
    index. *)
Theorem findItemByName_addOrUpdateItem
    (data : CacheData) (name value : string) (enabled : bool) :
  (∃ k : nat,
     findItemByName (addOrUpdateItem data name value enabled) name =
       (Z.of_nat k,
        Some {| Name := name; Value := value; Enabled := enabled |})) ∧
  (∀ other, other ≠ name →
     findItemByName (addOrUpdateItem data name value enabled) other =
     findItemByName data other).
Proof.
  split.
  - destruct (addOrUpdateItem_sets data name value enabled) as [k Hf].
    exists k. by apply findItemByName_first.
  - intros other Hne.
    destruct (findItemByName_cases data other)
      as [[Hout ->]|(k & item & Hf & ->)].
    + apply findItemByName_absent. rewrite addOrUpdateItem_names.
      case_decide; [done|]. rewrite elem_of_app, list_elem_of_singleton.
      by intros [?|?].
    + apply findItemByName_first. by apply addOrUpdateItem_keeps_first.
Qed.

(** Removing a name does not disturb the lookup of another name: the
    same item is found (its index moves down by one when it stood
    behind the removed item). *)
Theorem findItemByName_removeItem
    (data : CacheData) (name other : string) :
  other ≠ name →
  (findItemByName (removeItem data name) other).2 =
  (findItemByName data other).2.
Proof.
  intros Hne. destruct (decide (name ∈ names data)) as [Hin|Hout];
    [|by rewrite removeItem_absent].
  destruct (firstAt_exists _ _ Hin) as (k & gone & Hf).
  pose proof (removeItem_first _ _ _ _ Hf) as Hitems.
  destruct Hf as (Hk & Hname & _).
  destruct (findItemByName_cases data other)
    as [[Hout ->]|(j & item & (Hj & Hn & Hfirst) & ->)].
  - rewrite findItemByName_absent; [done|]. intros Hin'. apply Hout.
    eapply elem_of_sublist; [done|apply removeItem_sublist].
  - assert (j ≠ k) as Hjk by (intros ->; congruence).
    destruct (decide (j < k)%nat) as [Hlt|Hge].
    + rewrite (findItemByName_first _ _ j item); [done|].
      unfold firstAt. rewrite Hitems. split_and!; [|done|].
      * by rewrite list_lookup_delete_lt.
      * intros i it Hi Hl. rewrite list_lookup_delete_lt in Hl by lia.
        by apply (Hfirst i).
    + rewrite (findItemByName_first _ _ (j - 1) item); [done|].
      unfold firstAt. rewrite Hitems. split_and!; [|done|].
      * rewrite list_lookup_delete_ge by lia.
        by replace (S (j - 1)) with j by lia.
      * intros i it Hi Hl. destruct (decide (i < k)%nat).
        -- rewrite list_lookup_delete_lt in Hl by lia.
           apply (Hfirst i); [lia|done].
        -- rewrite list_lookup_delete_ge in Hl by lia.
           apply (Hfirst (S i)); [lia|done].
Qed.

Lemma findItemByName_removeItem_witness :
  (findItemByName (removeItem {| Items := [fooOn; barOn] |} "Foo") "Bar").2 =
  Some barOn.
Proof.
  apply (findItemByName_removeItem {| Items := [fooOn; barOn] |} "Foo" "Bar").
  discriminate.
Defined.

(** ** The document Sync produces *)

Lemma filter_ext_in {A} (P Q : A → Prop) `{!∀ x, Decision (P x)}
    `{!∀ x, Decision (Q x)} (l : list A) :
  (∀ x, x ∈ l → P x ↔ Q x) → filter P l = filter Q l.
Proof.
  induction l as [|x l IH]; intros Hext; [done|].
  rewrite !filter_cons.
  rewrite IH by (intros y Hy; apply Hext; by right).
  destruct (decide (P x)) as [HP|HP], (decide (Q x)) as [HQ|HQ];
    try done; exfalso; apply (Hext x) in HP || apply HP, (Hext x);
    try done; by left.
Qed.

Lemma filter_none {A} (P : A → Prop) `{!∀ x, Decision (P x)} (l : list A) :
  (∀ x, x ∈ l → ¬ P x) → filter P l = [].
Proof.
  induction l as [|x l IH]; intros Hnone; [done|].
  rewrite filter_cons_False by (apply Hnone; by left).
  apply IH. intros y Hy. apply Hnone. by right.
Qed.

Lemma imap_updatedItem_empty data (l : list CacheItem) :
  imap (updatedItem ∅ data) l = l.
Proof.
  apply list_eq. intros i. rewrite list_lookup_imap.
  destruct (l !! i) as [item|]; [|done]. simpl.
  unfold updatedItem. by rewrite lookup_empty.
Qed.

Lemma appendedItems_names entries data data' :
  names data' = names data →
  appendedItems entries data' = appendedItems entries data.
Proof. intros Hn. unfold appendedItems. by rewrite Hn. Qed.

(** The enable pass in closed form: items are updated where they stand
    and the new ones are appended in the order of the walk. *)
Lemma enablePass_closed_form entries cache :
  NoDup entries.*1 →
  Items (enablePass entries cache) =
  imap (updatedItem (list_to_map entries) cache) (Items cache) ++
  appendedItems entries cache.
Proof.
  revert cache. induction entries as [|[n v] es IH]; intros cache Hnd.
  - simpl. unfold appendedItems. simpl.
    by rewrite imap_updatedItem_empty, app_nil_r.
  - rewrite fmap_cons in Hnd. apply NoDup_cons in Hnd as [Hfresh Hnd].
    rewrite enablePass_cons, (IH _ Hnd). clear IH.
    assert ((list_to_map es : gmap string string) !! n = None) as Hnone
      by (by apply not_elem_of_list_to_map_1).
    rewrite list_to_map_cons.
    set (m := list_to_map es : gmap string string) in *.
    destruct (decide (n ∈ names cache)) as [Hin|Hout].
    + destruct (firstAt_exists _ _ Hin) as (k & item & Hf).
      assert (names (addOrUpdateItem cache n v true) = names cache) as Hn
        by (by rewrite addOrUpdateItem_names, decide_True).
      rewrite (appendedItems_names _ _ _ Hn).
      assert (appendedItems ((n, v) :: es) cache = appendedItems es cache)
        as ->.
      { unfold appendedItems. by rewrite filter_cons_False by (by intros ?). }
      f_equal. rewrite (addOrUpdateItem_first _ _ _ _ _ _ Hf).
      destruct Hf as (Hk & Hname & Hfirst).
      apply list_eq. intros i. rewrite !list_lookup_imap.
      destruct (decide (i = k)) as [->|Hik].
      * rewrite list_lookup_insert_eq by (by eapply lookup_lt_Some).
        rewrite Hk. simpl. f_equal. unfold updatedItem. simpl.
        rewrite Hnone, Hname, lookup_insert_eq.
        rewrite decide_False; [done|].
        intros Hin'. apply elem_of_take in Hin' as (j & Hj & Hlt).
        unfold names in Hj. rewrite list_lookup_fmap in Hj.
        destruct (Items cache !! j) as [other|] eqn:Hother; [|done].
        injection Hj as Hj. by apply (Hfirst j other).
      * rewrite list_lookup_insert_ne by done.
        destruct (Items cache !! i) as [it|] eqn:Hi; [|done]. simpl.
        f_equal. unfold updatedItem. rewrite Hn.
        destruct (decide (Name it = n)) as [Heq|Hne].
        -- rewrite Heq, Hnone, lookup_insert_eq.
           rewrite decide_True; [done|].
           apply elem_of_take. exists k. split.
           ++ unfold names. by rewrite list_lookup_fmap, Hk, <- Hname.
           ++ destruct (decide (i < k)%nat) as [Hlt|Hge]; [|lia].
              by destruct (Hfirst i it Hlt Hi).
        -- by rewrite lookup_insert_ne.
    + rewrite addOrUpdateItem_absent by done.
      assert (names (addOrUpdateItem cache n v true) = names cache ++ [n])
        as Hn by (by rewrite addOrUpdateItem_names, decide_False).
      rewrite imap_app. simpl.
      assert (appendedItems ((n, v) :: es) cache =
              {| Name := n; Value := v; Enabled := true |} ::
              appendedItems es cache) as ->.
      { unfold appendedItems. by rewrite filter_cons_True. }
      assert (appendedItems es (addOrUpdateItem cache n v true) =
              appendedItems es cache) as ->.
      { unfold appendedItems. f_equal. apply filter_ext_in.
        intros [n' v'] Hin'. simpl. rewrite Hn.
        rewrite not_elem_of_app, list_elem_of_singleton.
        split; [by intros []|]. intros Hn'. split; [done|].
        intros ->. apply Hfresh. apply list_elem_of_fmap.
        by exists (n, v'). }
      rewrite <- app_assoc. simpl. f_equal; [|f_equal].
      * apply imap_ext. intros i it Hi. unfold updatedItem.
        assert (Name it ≠ n) as Hne.
        { intros <-. apply Hout. unfold names.
          apply list_elem_of_fmap. exists it. split; [done|].
          by eapply list_elem_of_lookup_2. }
        rewrite lookup_insert_ne by done. rewrite Hn.
        rewrite take_app_le; [done|].
        unfold names. rewrite length_fmap.
        apply lookup_lt_Some in Hi. lia.
      * unfold updatedItem. simpl. by rewrite Hnone.
Qed.

Lemma reconcile_items_closed_form
    (range : MapRange) (registryItems : gmap string string)
    (cache : CacheData) :
  admissible range →
  Items (reconcile range registryItems cache) =
  imap (syncedItem registryItems cache) (Items cache) ++
  appendedItems (range registryItems) cache.
Proof.
  intros Hr. unfold reconcile.
  rewrite enablePass_closed_form by (by apply admissible_NoDup).
  rewrite (appendedItems_names _ _ _ (disablePass_names _ _)).
  f_equal.
  assert (list_to_map (range registryItems) = registryItems) as ->.
  { rewrite (list_to_map_proper _ (map_to_list registryItems));
      [apply list_to_map_to_list|by apply admissible_NoDup|apply Hr]. }
  unfold disablePass at 2. simpl. rewrite imap_fmap.
  apply imap_ext. intros i item Hi. simpl.
  unfold updatedItem, syncedItem, disableStep.
  rewrite disablePass_names.
  destruct (registryItems !! Name item) as [value|] eqn:Hl; simpl.
  - by rewrite Hl.
  - by rewrite Hl.
Qed.

(** Sync in closed form.  Every item of the loaded document stays at
    its index: it is disabled when its name is not in the snapshot; it
    gets the registry value and is enabled when it is the first of a
    name in the snapshot; a later duplicate of such a name is left as
    it is.  Behind them come the snapshot entries whose name the
    document did not have, enabled, in the order the map was walked. *)
Theorem reconcile_closed_form
    (range : MapRange) (registryItems : gmap string string)
    (cache : CacheData) :
  admissible range →
  Items (reconcile range registryItems cache) =
  imap (syncedItem registryItems cache) (Items cache) ++
  appendedItems (range registryItems) cache.
Proof. apply reconcile_items_closed_form. Qed.

Lemma reconcile_closed_form_witness :
  Items (reconcile map_to_list twoEntries {| Items := [barOn; fooOff] |}) =
  imap (syncedItem twoEntries {| Items := [barOn; fooOff] |})
    [barOn; fooOff] ++
  appendedItems (map_to_list twoEntries) {| Items := [barOn; fooOff] |}.
Proof.
  apply reconcile_closed_form. intros m. reflexivity.
Defined.

Lemma appendedItems_fmap_Name entries data :
  Name <$> appendedItems entries data =
  filter (λ name, name ∉ names data) entries.*1.
Proof.
  unfold appendedItems. induction entries as [|[n v] es IH]; [done|].
  rewrite fmap_cons, !filter_cons. simpl.
  destruct (decide (n ∉ names data)); [|done].
  rewrite !fmap_cons. simpl. by rewrite IH.
Qed.

(** Sync never removes or reorders a cached item: the names of the
    document it produces are the names it loaded followed by the
    registry names that were not cached. *)
Theorem reconcile_names_closed_form
    (range : MapRange) (registryItems : gmap string string)
    (cache : CacheData) :
  admissible range →
  names (reconcile range registryItems cache) =
  names cache ++ filter (λ name, name ∉ names cache) (range registryItems).*1.
Proof.
  intros Hr. unfold names at 1.
  rewrite reconcile_items_closed_form by done. rewrite fmap_app. f_equal.
  - rewrite fmap_imap. unfold names.
    apply list_eq. intros i. rewrite list_lookup_imap, list_lookup_fmap.
    destruct (Items cache !! i) as [item|]; [|done]. simpl. f_equal.
    unfold syncedItem.
    destruct (registryItems !! Name item); [by case_decide|done].
  - apply appendedItems_fmap_Name.
Qed.

Lemma reconcile_names_closed_form_witness :
  names (reconcile reverseRange twoEntries {| Items := [barOn; fooOff] |}) =
  ["Bar"; "Foo"] ++
  filter (λ name, name ∉ ["Bar"; "Foo"]) (reverseRange twoEntries).*1.
Proof.
  apply (reconcile_names_closed_form reverseRange twoEntries
           {| Items := [barOn; fooOff] |}).
  apply admissible_reverseRange.
Defined.

(** The order in which Go walks the map shows only in the order of the
    items Sync appends: two runs over the same snapshot and document
    agree on every item that was cached, give the same items up to the
    order of the new ones, and give the same document when no name is
    new. *)
Theorem reconcile_order_independent
    (range1 range2 : MapRange) (registryItems : gmap string string)
    (cache : CacheData) :
  admissible range1 → admissible range2 →
  take (length (Items cache))
    (Items (reconcile range1 registryItems cache)) =
  take (length (Items cache))
    (Items (reconcile range2 registryItems cache)) ∧
  Items (reconcile range1 registryItems cache) ≡ₚ
  Items (reconcile range2 registryItems cache) ∧
  ((∀ name, is_Some (registryItems !! name) → name ∈ names cache) →
   reconcile range1 registryItems cache =
   reconcile range2 registryItems cache).
Proof.
  intros Hr1 Hr2. rewrite !reconcile_items_closed_form by done.
  assert (length (imap (syncedItem registryItems cache) (Items cache)) =
          length (Items cache)) as Hlen by apply length_imap.
  split_and!.
  - rewrite <- Hlen. by rewrite !take_app_length.
  - apply Permutation_app_head. unfold appendedItems.
    apply fmap_Permutation, filter_Permutation.
    by rewrite (Hr1 registryItems), (Hr2 registryItems).
  - intros Hall. apply CacheData_eq.
    rewrite !reconcile_items_closed_form by done. f_equal.
    unfold appendedItems.
    rewrite !filter_none; [done| |].
    + intros [n v] Hin Hout. apply Hout. apply Hall. exists v.
      by apply (admissible_elem _ _ _ _ Hr2).
    + intros [n v] Hin Hout. apply Hout. apply Hall. exists v.
      by apply (admissible_elem _ _ _ _ Hr1).
Qed.

Lemma reconcile_order_independent_witness :
  Items (reconcile map_to_list twoEntries {| Items := [barOn] |}) ≡ₚ
  Items (reconcile reverseRange twoEntries {| Items := [barOn] |}).
Proof.
  apply (reconcile_order_independent map_to_list reverseRange twoEntries
           {| Items := [barOn] |}).
  - intros m. reflexivity.
  - apply admissible_reverseRange.
Defined.

(** ** What the handlers leave behind *)

Lemma showListWithBack_in_range (shown : list ListItem.t) input idx :
  showListWithBack shown input = (idx, true) →
  is_Some (shown !! Z.to_nat idx).
Proof.
  intros (num & -> & -> & Hlo & Hhi)%showListWithBack_chosen.
  apply lookup_lt_is_Some. lia.
Qed.

(** [showListWithBack] hands out an index only when the list is not
    empty and the number typed is between 1 and its length; the index
    is then the number minus one and within the bounds of the list.
    With [b], with something that is not a number, with a number out of
    range and with an empty list it hands out none. *)
Theorem showListWithBack_spec (shown : list ListItem.t) (input : Input) :
  (∃ num, input = InputNum num ∧ (1 ≤ num ≤ Z.of_nat (length shown))%Z ∧
          showListWithBack shown input = ((num - 1)%Z, true) ∧
          is_Some (shown !! Z.to_nat (num - 1))) ∨
  (showListWithBack shown input = ((-1)%Z, false) ∧
   (shown = [] ∨ input = InputBack ∨ input = InputInvalid ∨
    ∃ num, input = InputNum num ∧
           ((num < 1)%Z ∨ (Z.of_nat (length shown) < num)%Z))).
Proof.
  destruct (showListWithBack shown input) as [idx [|]] eqn:Hshow.
  - left. pose proof (showListWithBack_in_range _ _ _ Hshow) as Hin.
    apply showListWithBack_chosen in Hshow as (num & -> & -> & Hlo & Hhi).
    exists num. split_and!; [done|lia|lia|done|done].
  - right. unfold showListWithBack in Hshow.
    destruct shown as [|x shown]; [simpl in Hshow; simplify_eq; eauto|].
    simpl in Hshow. destruct input as [| |num]; simplify_eq; [eauto|eauto|].
    destruct (num <? 1)%Z eqn:H1; simpl in Hshow.
    + simplify_eq. split; [done|]. right. right. right. exists num.
      split; [done|]. left. by apply Z.ltb_lt.
    + destruct (_ <? num)%Z eqn:H2; simplify_eq.
      split; [done|]. right. right. right. exists num.
      split; [done|]. right. apply Z.ltb_lt in H2. simpl. lia.
Qed.

Lemma handleEnable_no_panic input confirm w :
  (handleEnable input confirm w).1 ≠ Panicked.
Proof.
  unfold handleEnable. repeat case_match; simpl; try done.
  match goal with
  | H : showListWithBack _ _ = _ |- _ =>
      apply showListWithBack_in_range in H as [? ?]; congruence
  end.
Qed.

Lemma handleDisable_no_panic input confirm w :
  (handleDisable input confirm w).1 ≠ Panicked.
Proof.
  unfold handleDisable. repeat case_match; simpl; try done.
  match goal with
  | H : showListWithBack _ _ = _ |- _ =>
      apply showListWithBack_in_range in H as [? ?]; congruence
  end.
Qed.

(** [handleEnable] and [handleDisable] check the error of [loadCache]
    and index the shown list within its bounds: they never panic. *)
Theorem enable_disable_never_panic
    (input : Input) (confirm : bool) (w : World) :
  (handleEnable input confirm w).1 ≠ Panicked ∧
  (handleDisable input confirm w).1 ≠ Panicked.
Proof.
  split; [apply handleEnable_no_panic|apply handleDisable_no_panic].
Qed.

Lemma handleAddCommand_panic appName command confirm w :
  (handleAddCommand appName command confirm w).1 = Panicked →
  (∃ e, loadCache w = Err e) ∧
  registryString (handleAddCommand appName command confirm w).2 appName =
    Some command ∧
  cacheFile (handleAddCommand appName command confirm w).2 = cacheFile w.
Proof.
  unfold handleAddCommand.
  destruct (AddCommandToStartup_cases command appName w)
    as [[err ->]|(_ & _ & ->)]; repeat case_match; simpl; try done.
  all: intros _; split_and!; [eauto| |done].
  all: unfold registryString; simpl; by rewrite lookup_insert_eq.
Qed.

Lemma handleAddToStartup_panic exePath confirmReset confirmAdd w :
  (handleAddToStartup exePath confirmReset confirmAdd w).1 = Panicked →
  (∃ e, loadCache w = Err e) ∧
  is_Some (registryString
             (handleAddToStartup exePath confirmReset confirmAdd w).2
             (getAppName w exePath)) ∧
  cacheFile (handleAddToStartup exePath confirmReset confirmAdd w).2 =
    cacheFile w.
Proof.
  unfold handleAddToStartup.
  destruct (AddToStartup_cases exePath (getAppName w exePath) w)
    as [[err ->]|(absPath & _ & ->)]; repeat case_match; simpl; try done.
  all: intros _; split_and!; [eauto| |done].
  all: unfold registryString; simpl; by rewrite lookup_insert_eq.
Qed.

Lemma handleRemoveFromStartup_panic input confirm w :
  (handleRemoveFromStartup input confirm w).1 = Panicked →
  (∃ e, loadCache w = Err e) ∧
  (∃ name, is_Some (values (registry w) !! name) ∧
           values (registry (handleRemoveFromStartup input confirm w).2) =
             delete name (values (registry w))) ∧
  cacheFile (handleRemoveFromStartup input confirm w).2 = cacheFile w.
Proof.
  unfold handleRemoveFromStartup, OpenKey, ReadValueNames.
  repeat case_match; simpl; try done; simplify_eq; intros _.
  - match goal with
    | H : RemoveFromStartup ?n w = _ |- _ =>
        destruct (RemoveFromStartup_cases n w) as [[? E]|[Hsome E]];
        rewrite E in H; simplify_eq
    end.
    split_and!; [eauto| |done]. eauto.
  - (* the index is within the names listed *)
    exfalso.
    match goal with
    | H : _ !! Z.to_nat (?num - 1) = None |- _ =>
        apply lookup_ge_None in H
    end.
    match goal with
    | H : _ || _ = false |- _ =>
        apply orb_false_iff in H as [?%Z.ltb_ge ?%Z.ltb_ge]
    end.
    lia.
Qed.

(** The handlers that drop the error of [loadCache] panic only after
    the registry has been changed and when the cache file cannot be
    loaded; the registry then has the new state and the cache file is
    the one from before. *)
Theorem add_remove_panic_after_registry_change
    (exePath appName command : string) (input : Input)
    (confirmReset confirm : bool) (w : World) :
  ((handleAddToStartup exePath confirmReset confirm w).1 = Panicked →
     (∃ e, loadCache w = Err e) ∧
     is_Some (registryString
                (handleAddToStartup exePath confirmReset confirm w).2
                (getAppName w exePath)) ∧
     cacheFile (handleAddToStartup exePath confirmReset confirm w).2 =
       cacheFile w) ∧
  ((handleAddCommand appName command confirm w).1 = Panicked →
     (∃ e, loadCache w = Err e) ∧
     registryString (handleAddCommand appName command confirm w).2 appName =
       Some command ∧
     cacheFile (handleAddCommand appName command confirm w).2 =
       cacheFile w) ∧
  ((handleRemoveFromStartup input confirm w).1 = Panicked →
     (∃ e, loadCache w = Err e) ∧
     (∃ name, is_Some (values (registry w) !! name) ∧
              values (registry (handleRemoveFromStartup input confirm w).2) =
                delete name (values (registry w))) ∧
     cacheFile (handleRemoveFromStartup input confirm w).2 = cacheFile w).
Proof.
  split_and!.
  - apply handleAddToStartup_panic.
  - apply handleAddCommand_panic.
  - apply handleRemoveFromStartup_panic.
Qed.

Lemma add_remove_panic_after_registry_change_witness :
  (handleAddCommand "Baz" "baz.exe" true malformedWorld).1 = Panicked ∧
  (∃ e, loadCache malformedWorld = Err e) ∧
  registryString (handleAddCommand "Baz" "baz.exe" true malformedWorld).2
    "Baz" = Some "baz.exe" ∧
  cacheFile (handleAddCommand "Baz" "baz.exe" true malformedWorld).2 =
    cacheFile malformedWorld.
Proof.
  destruct (add_remove_panic_after_registry_change "app.exe" "Baz" "baz.exe"
              InputBack false true malformedWorld) as (_ & Hcommand & _).
  split; [reflexivity|]. apply Hcommand. reflexivity.
Defined.

(** Conversely, when the cache file loads, no handler panics. *)
Lemma dispatch_loadable_no_panic_handlers exePath appName command input
    confirmReset confirm w cache :
  loadCache w = Ok cache →
  (handleAddToStartup exePath confirmReset confirm w).1 ≠ Panicked ∧
  (handleAddCommand appName command confirm w).1 ≠ Panicked ∧
  (handleRemoveFromStartup input confirm w).1 ≠ Panicked.
Proof.
  intros Hload. split_and!; intros Hp.
  - apply handleAddToStartup_panic in Hp as [[e He] _]. congruence.
  - apply handleAddCommand_panic in Hp as [[e He] _]. congruence.
  - apply handleRemoveFromStartup_panic in Hp as [[e He] _]. congruence.
Qed.

(** ** All or nothing *)

Lemma handleAddToStartup_unchanged exePath confirmReset confirmAdd w :
  (handleAddToStartup exePath confirmReset confirmAdd w).1 ≠ Succeeded →
  (handleAddToStartup exePath confirmReset confirmAdd w).1 ≠ Panicked →
  (handleAddToStartup exePath confirmReset confirmAdd w).2 = w.
Proof.
  unfold handleAddToStartup.
  destruct (AddToStartup_cases exePath (getAppName w exePath) w)
    as [[err ->]|(absPath & _ & ->)]; repeat case_match; simpl; done.
Qed.

Lemma handleAddCommand_unchanged appName command confirm w :
  (handleAddCommand appName command confirm w).1 ≠ Succeeded →
  (handleAddCommand appName command confirm w).1 ≠ Panicked →
  (handleAddCommand appName command confirm w).2 = w.
Proof.
  unfold handleAddCommand.
  destruct (AddCommandToStartup_cases command appName w)
    as [[err ->]|(_ & _ & ->)]; repeat case_match; simpl; done.
Qed.

Lemma handleRemoveFromStartup_unchanged input confirm w :
  (handleRemoveFromStartup input confirm w).1 ≠ Succeeded →
  (handleRemoveFromStartup input confirm w).1 ≠ Panicked →
  (handleRemoveFromStartup input confirm w).2 = w.
Proof.
  unfold handleRemoveFromStartup.
  repeat case_match; simpl; try done; registry_step; done.
Qed.

Lemma handleEnable_unchanged input confirm w :
  (handleEnable input confirm w).1 ≠ Succeeded →
  (handleEnable input confirm w).2 = w.
Proof.
  unfold handleEnable.
  repeat case_match; simpl; try done; registry_step; done.
Qed.

Lemma handleDisable_unchanged input confirm w :
  (handleDisable input confirm w).1 ≠ Succeeded →
  (handleDisable input confirm w).2 = w.
Proof.
  unfold handleDisable.
  repeat case_match; simpl; try done; registry_step; done.
Qed.

Lemma handleAddCommand_reprompt appName command confirm w w' :
  handleAddCommand appName command confirm w = (Reprompt, w') → w' = w.
Proof.
  intros Hrun.
  pose proof (handleAddCommand_unchanged appName command confirm w) as Hsame.
  rewrite Hrun in Hsame. simpl in Hsame. by apply Hsame.
Qed.

Lemma handleAddCommandLoop_unchanged rounds w :
  (handleAddCommandLoop rounds w).1 ≠ Succeeded →
  (handleAddCommandLoop rounds w).1 ≠ Panicked →
  (handleAddCommandLoop rounds w).2 = w.
Proof.
  induction rounds as [|[[appName command] confirm] rest IH]; [done|].
  simpl.
  pose proof (handleAddCommand_unchanged appName command confirm w) as Hone.
  destruct (handleAddCommand appName command confirm w) as [[] w'] eqn:Hrun;
    simpl in *; try (intros; by apply Hone).
  apply handleAddCommand_reprompt in Hrun as ->. apply IH.
Qed.

(** Every menu entry is all or nothing: unless the handler reports
    success (or panics), the registry, the cache file and everything
    else are exactly as before, whatever was typed and whichever
    operation was refused. *)
Theorem dispatch_unchanged_unless_succeeded (choice : MenuChoice) (w : World) :
  (dispatch choice w).1 ≠ Succeeded →
  (dispatch choice w).1 ≠ Panicked →
  (dispatch choice w).2 = w.
Proof.
  destruct choice; simpl.
  - apply handleAddToStartup_unchanged.
  - apply handleRemoveFromStartup_unchanged.
  - intros _ _. unfold showStartupStatus. by repeat case_match.
  - apply handleAddCommandLoop_unchanged.
  - intros H _. by apply handleEnable_unchanged.
  - intros H _. by apply handleDisable_unchanged.
  - done.
  - done.
Qed.

Lemma dispatch_unchanged_unless_succeeded_witness :
  (dispatch (Choice5 (InputNum 1) true) readOnlyWorld).2 = readOnlyWorld.
Proof.
  apply dispatch_unchanged_unless_succeeded; vm_compute; discriminate.
Defined.

(** Nothing is written without the user's confirmation. *)
Theorem unconfirmed_changes_nothing
    (exePath appName command : string) (input : Input)
    (confirmReset : bool) (w : World) :
  (handleAddToStartup exePath confirmReset false w).2 = w ∧
  (handleAddCommand appName command false w).2 = w ∧
  (handleRemoveFromStartup input false w).2 = w ∧
  (handleEnable input false w).2 = w ∧
  (handleDisable input false w).2 = w.
Proof.
  split_and!.
  - unfold handleAddToStartup. by repeat case_match.
  - unfold handleAddCommand. by repeat case_match.
  - unfold handleRemoveFromStartup. by repeat case_match.
  - unfold handleEnable. by repeat case_match.
  - unfold handleDisable. by repeat case_match.
Qed.

(** ** What an operation may touch *)

Lemma withRegistry_same w : withRegistry (registry w) w = w.
Proof. by destruct w. Qed.

Lemma saveCache_registry cache w :
  registry (saveCache cache w).2 = registry w ∧
  openDenied (saveCache cache w).2 = openDenied w ∧
  createDenied (saveCache cache w).2 = createDenied w.
Proof. unfold saveCache. destruct (createDenied w) eqn:E; simpl; by rewrite ?E. Qed.

(** Sync reads the registry and never writes it; the only thing it may
    change is the content of the cache file. *)
Theorem sync_changes_only_cache_file (range : MapRange) (w : World) :
  syncCacheFromRegistry range w =
  withCacheFile (cacheFile (syncCacheFromRegistry range w)) w.
Proof.
  assert (∀ w, withCacheFile (cacheFile w) w = w) as Hsame
    by (by intros []).
  unfold syncCacheFromRegistry, saveCache.
  repeat case_match; simpl; by rewrite ?Hsame.
Qed.

Lemma handleAddCommand_frame appName command confirm w other :
  other ≠ appName →
  values (registry (handleAddCommand appName command confirm w).2) !! other =
  values (registry w) !! other.
Proof.
  intros Hne. unfold handleAddCommand.
  destruct (AddCommandToStartup_cases command appName w)
    as [[err ->]|(_ & _ & ->)]; repeat case_match; simpl; try done.
  all: unfold saveCache; repeat case_match; simpl; by rewrite lookup_insert_ne.
Qed.

Lemma handleAddCommandLoop_frame rounds w :
  ∃ name, ∀ other, other ≠ name →
    values (registry (handleAddCommandLoop rounds w).2) !! other =
    values (registry w) !! other.
Proof.
  revert w. induction rounds as [|[[appName command] confirm] rest IH];
    intros w; [by exists EmptyString|].
  simpl.
  destruct (handleAddCommand appName command confirm w) as [r w'] eqn:Hrun.
  assert (∃ name, ∀ other, other ≠ name →
            values (registry w') !! other = values (registry w) !! other)
    as Hone.
  { exists appName. intros other Hne.
    pose proof (handleAddCommand_frame appName command confirm w other Hne)
      as Hf. by rewrite Hrun in Hf. }
  destruct r; try done.
  apply handleAddCommand_reprompt in Hrun as ->. apply IH.
Qed.

(** A menu entry changes at most one value of the Run key: all values
    but the one under the name it works on are as before. *)
Theorem dispatch_touches_one_value (choice : MenuChoice) (w : World) :
  (∃ name, ∀ other, other ≠ name →
     values (registry (dispatch choice w).2) !! other =
     values (registry w) !! other).
Proof.
  destruct choice; simpl.
  - exists (getAppName w exePath). intros other Hne.
    unfold handleAddToStartup.
    destruct (AddToStartup_cases exePath (getAppName w exePath) w)
      as [[err ->]|(absPath & _ & ->)]; repeat case_match; simpl; try done.
    all: unfold saveCache; repeat case_match; simpl;
      by rewrite lookup_insert_ne.
  - unfold handleRemoveFromStartup.
    repeat case_match; simpl; try (by exists EmptyString).
    all: registry_step; try (by exists EmptyString).
    all: match goal with
         | |- context [delete ?n _] => exists n
         end.
    all: intros other Hne; unfold saveCache; repeat case_match; simpl;
      by rewrite lookup_delete_ne.
  - exists EmptyString. intros other _. unfold showStartupStatus.
    by repeat case_match.
  - apply handleAddCommandLoop_frame.
  - unfold handleEnable.
    repeat case_match; simpl; try (by exists EmptyString).
    all: registry_step; try (by exists EmptyString).
    all: match goal with
         | |- context [<[?n := _]> _] => exists n
         end.
    all: intros other Hne; unfold saveCache; repeat case_match; simpl;
      by rewrite lookup_insert_ne.
  - unfold handleDisable.
    repeat case_match; simpl; try (by exists EmptyString).
    all: registry_step; try (by exists EmptyString).
    all: match goal with
         | |- context [delete ?n _] => exists n
         end.
    all: intros other Hne; unfold saveCache; repeat case_match; simpl;
      by rewrite lookup_delete_ne.
  - by exists EmptyString.
  - by exists EmptyString.
Qed.

(** ** The cache mirrors the registry *)

Lemma stringOf_insert vals name value other :
  stringOf (<[name := StringValue value]> vals) other =
  if decide (other = name) then Some value else stringOf vals other.
Proof.
  unfold stringOf. case_decide as Heq.
  - subst. by rewrite lookup_insert_eq.
  - by rewrite lookup_insert_ne.
Qed.

Lemma stringOf_delete vals name other :
  stringOf (delete name vals) other =
  if decide (other = name) then None else stringOf vals other.
Proof.
  unfold stringOf. case_decide as Heq.
  - subst. by rewrite lookup_delete_eq.
  - by rewrite lookup_delete_ne.
Qed.

Lemma addOrUpdateItem_elem data name value enabled item :
  uniqueNames data →
  item ∈ Items (addOrUpdateItem data name value enabled) →
  item = {| Name := name; Value := value; Enabled := enabled |} ∨
  (item ∈ Items data ∧ Name item ≠ name).
Proof.
  intros Hu Hin. destruct (decide (name ∈ names data)) as [Hin'|Hout].
  - destruct (firstAt_exists _ _ Hin') as (k & old & Hf).
    rewrite (addOrUpdateItem_first _ _ _ _ _ _ Hf) in Hin.
    destruct Hf as (Hk & Hname & _).
    apply list_elem_of_lookup_1 in Hin as [j Hj].
    destruct (decide (j = k)) as [->|Hne].
    + rewrite list_lookup_insert_eq in Hj by (by eapply lookup_lt_Some).
      left. congruence.
    + rewrite list_lookup_insert_ne in Hj by done. right.
      split; [by eapply list_elem_of_lookup_2|].
      intros Heq. apply Hne.
      eapply (unique_lookup data j k); [done|done|done|congruence].
  - rewrite addOrUpdateItem_absent in Hin by done.
    apply elem_of_app in Hin as [Hold|Hnew].
    + right. split; [done|]. intros <-. apply Hout. unfold names.
      apply list_elem_of_fmap. by exists item.
    + left. by apply list_elem_of_singleton in Hnew.
Qed.

Lemma addOrUpdateItem_has_name data name value enabled other :
  other = name ∨ other ∈ names data →
  other ∈ names (addOrUpdateItem data name value enabled).
Proof.
  rewrite addOrUpdateItem_names. intros [->|Hin]; case_decide; try done.
  - apply elem_of_app. right. by apply list_elem_of_singleton.
  - apply elem_of_app. by left.
Qed.

Lemma mirrors_upsert_on vals doc name value :
  mirrors vals doc →
  mirrors (<[name := StringValue value]> vals)
    (addOrUpdateItem doc name value true).
Proof.
  intros (Hu & Hitems & Hcover). split_and!.
  - by apply addOrUpdateItem_unique.
  - intros item Hin. rewrite stringOf_insert.
    apply (addOrUpdateItem_elem _ _ _ _ _ Hu) in Hin as [->|[Hin Hne]].
    + simpl. by rewrite decide_True.
    + rewrite decide_False by done. by apply Hitems.
  - intros other v. rewrite stringOf_insert. intros Hs.
    apply addOrUpdateItem_has_name. case_decide; [by left|].
    right. by eapply Hcover.
Qed.

Lemma mirrors_upsert_off vals doc name value :
  mirrors vals doc →
  mirrors (delete name vals) (addOrUpdateItem doc name value false).
Proof.
  intros (Hu & Hitems & Hcover). split_and!.
  - by apply addOrUpdateItem_unique.
  - intros item Hin. rewrite stringOf_delete.
    apply (addOrUpdateItem_elem _ _ _ _ _ Hu) in Hin as [->|[Hin Hne]].
    + simpl. by rewrite decide_True.
    + rewrite decide_False by done. by apply Hitems.
  - intros other v. rewrite stringOf_delete. intros Hs.
    apply addOrUpdateItem_has_name. case_decide; [done|].
    right. by eapply Hcover.
Qed.

Lemma mirrors_remove vals doc name :
  mirrors vals doc → mirrors (delete name vals) (removeItem doc name).
Proof.
  intros (Hu & Hitems & Hcover). split_and!.
  - by apply removeItem_unique.
  - intros item. rewrite removeItem_as_filter by done.
    intros [Hne Hin]%list_elem_of_filter.
    rewrite stringOf_delete, decide_False by done. by apply Hitems.
  - intros other v. rewrite stringOf_delete.
    case_decide as Hne; [done|]. intros Hs.
    apply Hcover in Hs. unfold names in *.
    apply list_elem_of_fmap in Hs as (item & -> & Hin).
    apply list_elem_of_fmap. exists item. split; [done|].
    rewrite removeItem_as_filter by done. by apply list_elem_of_filter.
Qed.

Lemma reconcile_mirrors_snapshot
    (range : MapRange) (registryItems : gmap string string)
    (vals : gmap string RegValue) (cache : CacheData) :
  admissible range →
  uniqueNames cache →
  (∀ name, registryItems !! name = stringOf vals name) →
  mirrors vals (reconcile range registryItems cache).
Proof.
  intros Hr Hu Hsnap.
  pose proof (reconcile_unique range registryItems cache Hu) as Hu'.
  split_and!; [done| |].
  - intros item Hin. rewrite <- Hsnap.
    destruct (registryItems !! Name item) as [value|] eqn:Hl.
    + destruct (reconcile_sets range _ cache _ _ Hr Hl) as [k Hf].
      destruct Hf as (Hk & _ & _).
      assert (item = {| Name := Name item; Value := value; Enabled := true |})
        as ->.
      { eapply unique_item; [done|done| |done].
        by eapply list_elem_of_lookup_2. }
      done.
    + pose proof (reconcile_offOutside range registryItems cache Hr) as Hoff.
      rewrite Forall_forall in Hoff. by rewrite (Hoff item Hin Hl).
  - intros name value. rewrite <- Hsnap. intros Hl.
    destruct (reconcile_sets range _ cache _ _ Hr Hl) as [k Hf].
    by eapply firstAt_in.
Qed.

(** After the two passes of Sync a document with distinct names
    mirrors the snapshot: an item is enabled exactly when the snapshot
    has its name, and then its command is the snapshot's value; every
    name of the snapshot has an item. *)
Theorem reconcile_mirrors
    (range : MapRange) (registryItems : gmap string string)
    (vals : gmap string RegValue) (cache : CacheData) :
  admissible range →
  uniqueNames cache →
  (∀ name, registryItems !! name = stringOf vals name) →
  mirrors vals (reconcile range registryItems cache).
Proof. apply reconcile_mirrors_snapshot. Qed.

Lemma reconcile_mirrors_witness :
  mirrors {[ "Foo" := StringValue "foo.exe"; "Baz" := NonString ]}
    (reconcile map_to_list {[ "Foo" := "foo.exe" ]}
       {| Items := [barOn; fooOff] |}).
Proof.
  apply reconcile_mirrors.
  - intros m. reflexivity.
  - apply (bool_decide_unpack _). vm_compute. exact I.
  - intros name. unfold stringOf.
    destruct (decide (name = "Foo")) as [->|Hfoo]; [reflexivity|].
    rewrite lookup_singleton_ne by done. rewrite lookup_insert_ne by done.
    destruct (decide (name = "Baz")) as [->|Hbaz]; [reflexivity|].
    by rewrite lookup_singleton_ne.
Defined.

(** A document that mirrors the registry is a fixed point of the two
    passes. *)
Lemma reconcile_mirrored range registryItems vals doc :
  admissible range →
  (∀ name, registryItems !! name = stringOf vals name) →
  mirrors vals doc →
  reconcile range registryItems doc = doc.
Proof.
  intros Hr Hsnap (Hu & Hitems & Hcover). apply reconcile_fixed; [done| |].
  - apply Forall_forall. intros item Hin Hnone.
    specialize (Hitems item Hin). rewrite <- Hsnap, Hnone in Hitems.
    by destruct (Enabled item).
  - intros name value Hl. rewrite Hsnap in Hl.
    destruct (firstAt_exists doc name) as (k & item & Hf);
      [by eapply Hcover|].
    exists k. destruct Hf as (Hk & Hname & Hfirst).
    specialize (Hitems item (list_elem_of_lookup_2 _ _ _ Hk)).
    rewrite Hname, Hl in Hitems.
    destruct item as [n v e]. simpl in *. subst n.
    destruct e; [|done]. injection Hitems as ->. by split_and!.
Qed.

Lemma snapshot_stringOf key name :
  denied key QueryValue = false →
  snapshot key !! name = stringOf (values key) name.
Proof.
  intros Hq. rewrite snapshot_lookup. unfold GetStringValue, stringOf.
  rewrite Hq. by destruct (values key !! name) as [[s|]|].
Qed.

Lemma sync_consistent
    (range : MapRange) (w : World) (cache : CacheData) :
  admissible range →
  openDenied w = false → createDenied w = false →
  denied (registry w) OpenQuery = false →
  denied (registry w) EnumValues = false →
  denied (registry w) QueryValue = false →
  utf8Snapshot (snapshot (registry w)) →
  loadCache w = Ok cache →
  uniqueNames cache →
  consistent (syncCacheFromRegistry range w) ∧
  registry (syncCacheFromRegistry range w) = registry w.
Proof.
  intros Hr Hopen Hcreate Hq He Hv Hsnap Hload Hu.
  assert (utf8Doc (reconcile range (snapshot (registry w)) cache)) as Hvalid
    by (apply utf8Doc_reconcile; [done|done|by eapply loadCache_utf8]).
  rewrite (sync_runs range w cache) by done.
  rewrite saveCache_utf8 by done. rewrite Hcreate. simpl. split; [|done].
  split_and!; [done|done|]. eexists. split.
  - by apply loadCache_saved.
  - simpl. apply reconcile_mirrors_snapshot; [done|done|].
    intros name. by apply snapshot_stringOf.
Qed.

(** When the key can be read, with names and values of valid UTF-8 as
    the [registry] package returns them, and the cache file can be read
    and written, Sync leaves a consistent world behind: the cache file
    holds a document that mirrors the string values of the key.  The
    key itself is as before. *)
Theorem sync_establishes_consistent
    (range : MapRange) (w : World) (cache : CacheData) :
  admissible range →
  openDenied w = false → createDenied w = false →
  denied (registry w) OpenQuery = false →
  denied (registry w) EnumValues = false →
  denied (registry w) QueryValue = false →
  utf8Snapshot (snapshot (registry w)) →
  loadCache w = Ok cache →
  uniqueNames cache →
  consistent (syncCacheFromRegistry range w) ∧
  registry (syncCacheFromRegistry range w) = registry w.
Proof. apply sync_consistent. Qed.

(** The world Sync leaves from [binaryWorld] is consistent. *)
Lemma binaryWorld_synced_consistent :
  consistent (syncCacheFromRegistry map_to_list binaryWorld).
Proof.
  apply (sync_consistent map_to_list binaryWorld {| Items := [fooOn] |});
    try reflexivity.
  - intros m. reflexivity.
  - apply (bool_decide_unpack _). vm_compute. exact I.
  - apply (bool_decide_unpack _). vm_compute. exact I.
Qed.

Lemma sync_establishes_consistent_witness :
  consistent (syncCacheFromRegistry map_to_list binaryWorld).
Proof.
  apply (sync_establishes_consistent map_to_list binaryWorld
           {| Items := [fooOn] |}); try reflexivity.
  - intros m. reflexivity.
  - apply (bool_decide_unpack _). vm_compute. exact I.
  - apply (bool_decide_unpack _). vm_compute. exact I.
Defined.

(** On a consistent world whose key can be read Sync changes nothing
    that can be observed: the cache loads as the same document and the
    key is as before; when the cache file holds just the document it
    loads as, the world is the same. *)
Theorem sync_keeps_consistent_world (range : MapRange) (w : World) :
  admissible range →
  consistent w →
  denied (registry w) QueryValue = false →
  loadCache (syncCacheFromRegistry range w) = loadCache w ∧
  registry (syncCacheFromRegistry range w) = registry w ∧
  (∀ doc, loadCache w = Ok doc → cacheFile w = Some (Json doc) →
     syncCacheFromRegistry range w = w).
Proof.
  intros Hr (Hopen & Hcreate & doc & Hload & Hm) Hv.
  destruct (denied (registry w) OpenQuery) eqn:Hq;
    [by rewrite sync_skipped by eauto|].
  destruct (denied (registry w) EnumValues) eqn:He;
    [by rewrite sync_skipped by eauto|].
  pose proof (loadCache_utf8 _ _ Hload) as Hvalid.
  rewrite (sync_runs range w doc) by done.
  rewrite (reconcile_mirrored range _ _ doc Hr
             (λ name, snapshot_stringOf _ name Hv) Hm).
  rewrite saveCache_utf8 by done. rewrite Hcreate. simpl. split_and!.
  - rewrite loadCache_saved by done. by rewrite Hload.
  - done.
  - intros doc' Hload' Hfile. assert (doc' = doc) as -> by congruence.
    destruct w. simpl in *. by subst.
Qed.

Lemma sync_keeps_consistent_world_witness :
  syncCacheFromRegistry reverseRange
    (syncCacheFromRegistry map_to_list binaryWorld) =
  syncCacheFromRegistry map_to_list binaryWorld.
Proof.
  apply (sync_keeps_consistent_world reverseRange
           (syncCacheFromRegistry map_to_list binaryWorld))
    with (doc := {| Items := [fooOff; barOn] |}).
  - apply admissible_reverseRange.
  - apply binaryWorld_synced_consistent.
  - reflexivity.
  - vm_compute. reflexivity.
  - vm_compute. reflexivity.
Defined.

(** ** Consistency is kept by every menu entry *)

Lemma loadCache_withRegistry reg w :
  loadCache (withRegistry reg w) = loadCache w.
Proof. reflexivity. Qed.

Lemma consistent_saved w reg doc :
  openDenied w = false → createDenied w = false →
  utf8Doc doc →
  mirrors (values reg) doc →
  consistent (saveCache doc (withRegistry reg w)).2.
Proof.
  intros Hopen Hcreate Hvalid Hm. rewrite saveCache_utf8 by done. simpl.
  rewrite Hcreate. simpl.
  split_and!; [done|done|]. exists doc. split; [|done].
  unfold loadCache. simpl. by rewrite Hopen, toValidDoc_utf8.
Qed.

Lemma handleAddCommand_consistent appName command confirm w :
  utf8 appName → utf8 command →
  consistent w → consistent (handleAddCommand appName command confirm w).2.
Proof.
  intros Hn Hv Hc. pose proof Hc as (Hopen & Hcreate & doc & Hload & Hm).
  pose proof (loadCache_utf8 _ _ Hload) as Hvalid.
  unfold handleAddCommand.
  destruct (AddCommandToStartup_cases command appName w)
    as [[err ->]|(_ & _ & ->)]; rewrite ?loadCache_withRegistry, ?Hload;
    repeat case_match; simpl; try done.
  all: apply consistent_saved; [done|done| |]; simpl.
  all: try (by apply utf8Doc_addOrUpdateItem).
  all: by apply mirrors_upsert_on.
Qed.

Lemma handleAddToStartup_consistent exePath confirmReset confirmAdd w :
  utf8 (getAppName w exePath) →
  utf8 (quoted (default EmptyString (filepath_Abs w exePath))) →
  consistent w →
  consistent (handleAddToStartup exePath confirmReset confirmAdd w).2.
Proof.
  intros Hn Hv Hc. pose proof Hc as (Hopen & Hcreate & doc & Hload & Hm).
  pose proof (loadCache_utf8 _ _ Hload) as Hvalid.
  unfold handleAddToStartup.
  destruct (AddToStartup_cases exePath (getAppName w exePath) w)
    as [[err ->]|(absPath & Habs & ->)];
    rewrite ?loadCache_withRegistry, ?Hload; rewrite ?Habs in *;
    repeat case_match; simpl in *; try done.
  all: apply consistent_saved; [done|done| |]; simpl.
  all: try (by apply utf8Doc_addOrUpdateItem).
  all: by apply mirrors_upsert_on.
Qed.

Lemma handleRemoveFromStartup_consistent input confirm w :
  consistent w → consistent (handleRemoveFromStartup input confirm w).2.
Proof.
  intros Hc. pose proof Hc as (Hopen & Hcreate & doc & Hload & Hm).
  pose proof (loadCache_utf8 _ _ Hload) as Hvalid.
  unfold handleRemoveFromStartup.
  repeat case_match; simpl; try done; registry_step; try done.
  all: match goal with
       | H : loadCache (withRegistry _ _) = _ |- _ =>
           rewrite loadCache_withRegistry, Hload in H; simplify_eq
       end.
  apply consistent_saved; [done|done| |].
  - by apply utf8Doc_removeItem.
  - simpl. by apply mirrors_remove.
Qed.

Lemma handleEnable_consistent input confirm w :
  consistent w → consistent (handleEnable input confirm w).2.
Proof.
  intros Hc. pose proof Hc as (Hopen & Hcreate & doc & Hload & Hm).
  pose proof (loadCache_utf8 _ _ Hload) as Hvalid.
  unfold handleEnable. rewrite Hload.
  repeat case_match; simpl; try done; registry_step; try done.
  apply consistent_saved; [done|done| |].
  - match goal with
    | H : disabledItems _ !! _ = Some _ |- _ =>
        destruct (disabledItems_utf8 _ _ _ Hvalid H)
    end.
    by apply utf8Doc_addOrUpdateItem.
  - simpl. by apply mirrors_upsert_on.
Qed.

Lemma handleDisable_consistent input confirm w :
  consistent w → consistent (handleDisable input confirm w).2.
Proof.
  intros Hc. pose proof Hc as (Hopen & Hcreate & doc & Hload & Hm).
  pose proof (loadCache_utf8 _ _ Hload) as Hvalid.
  unfold handleDisable. rewrite Hload.
  repeat case_match; simpl; try done; registry_step; try done.
  apply consistent_saved; [done|done| |].
  - match goal with
    | H : enabledItems _ !! _ = Some _ |- _ =>
        destruct (enabledItems_utf8 _ _ _ Hvalid H)
    end.
    by apply utf8Doc_addOrUpdateItem.
  - simpl. by apply mirrors_upsert_off.
Qed.

Lemma handleAddCommandLoop_consistent rounds w :
  Forall (λ round : string * string * bool,
            utf8 round.1.1 ∧ utf8 round.1.2) rounds →
  consistent w →
  (handleAddCommandLoop rounds w).1 ≠ Panicked ∧
  consistent (handleAddCommandLoop rounds w).2.
Proof.
  revert w.
  induction rounds as [|[[appName command] confirm] rest IH];
    intros w Hall Hc; [done|].
  apply Forall_cons in Hall as [[Hn Hv] Hall]. simpl in Hn, Hv.
  simpl.
  pose proof (handleAddCommand_consistent appName command confirm w
                Hn Hv Hc) as Hone.
  assert ((handleAddCommand appName command confirm w).1 ≠ Panicked)
    as Hnp.
  { destruct Hc as (_ & _ & doc & Hload & _).
    intros [[e He] _]%handleAddCommand_panic. congruence. }
  destruct (handleAddCommand appName command confirm w) as [[] w'] eqn:Hrun;
    simpl in *; try done.
  apply handleAddCommand_reprompt in Hrun as ->. by apply IH.
Qed.

Lemma dispatch_consistent (choice : MenuChoice) (w : World) :
  utf8Choice w choice →
  consistent w →
  (dispatch choice w).1 ≠ Panicked ∧ consistent (dispatch choice w).2.
Proof.
  intros Htyped Hc. pose proof Hc as (_ & _ & doc & Hload & _).
  destruct choice; simpl in *.
  - destruct Htyped as [Hn Hv].
    split; [|by apply handleAddToStartup_consistent].
    intros [[e He] _]%handleAddToStartup_panic. congruence.
  - split; [|by apply handleRemoveFromStartup_consistent].
    intros [[e He] _]%handleRemoveFromStartup_panic. congruence.
  - unfold showStartupStatus. rewrite Hload. by case_match.
  - by apply handleAddCommandLoop_consistent.
  - split; [|by apply handleEnable_consistent].
    apply handleEnable_no_panic.
  - split; [|by apply handleDisable_consistent].
    apply handleDisable_no_panic.
  - done.
  - done.
Qed.

(** On a consistent world no menu entry panics, and whatever the user
    picks and answers and whichever registry operation is refused, the
    world is consistent again when the handler returns: the cache file
    still mirrors the key.  The strings typed at the entry (the name
    and the command, or the name and the quoted path derived from the
    file picked) are valid UTF-8. *)
Theorem dispatch_keeps_consistent (choice : MenuChoice) (w : World) :
  utf8Choice w choice →
  consistent w →
  (dispatch choice w).1 ≠ Panicked ∧ consistent (dispatch choice w).2.
Proof. apply dispatch_consistent. Qed.

Lemma dispatch_keeps_consistent_witness :
  (dispatch (Choice4 [("Baz", "baz.exe", true)])
     (syncCacheFromRegistry map_to_list binaryWorld)).1 ≠ Panicked ∧
  consistent (dispatch (Choice4 [("Baz", "baz.exe", true)])
                (syncCacheFromRegistry map_to_list binaryWorld)).2.
Proof.
  apply dispatch_keeps_consistent.
  - apply (bool_decide_unpack _). vm_compute. exact I.
  - apply binaryWorld_synced_consistent.
Defined.

(** ** The menu loop *)

Lemma Choice7_or_not (choice : MenuChoice) :
  choice = Choice7 ∨ choice ≠ Choice7.
Proof. destruct choice; (by left) || (by right). Qed.

Lemma showMainMenu_step choice rest w :
  choice ≠ Choice7 →
  showMainMenu (choice :: rest) w =
  match dispatch choice w with
  | (Panicked, w') => (Crashed, w')
  | (_, w') => showMainMenu rest w'
  end.
Proof. by destruct choice. Qed.

(** Runs of the menu compose: the choices typed after the menu was
    left, or after a handler panicked, have no effect; otherwise the
    second part of a run starts from the world the first part left. *)
Theorem showMainMenu_app (choices1 choices2 : list MenuChoice) (w : World) :
  showMainMenu (choices1 ++ choices2) w =
  match showMainMenu choices1 w with
  | (MenuOpen, w') => showMainMenu choices2 w'
  | ended => ended
  end.
Proof.
  revert w. induction choices1 as [|choice rest IH]; intros w; [done|].
  destruct (Choice7_or_not choice) as [->|Hne]; [done|].
  rewrite <- app_comm_cons, !showMainMenu_step by done.
  destruct (dispatch choice w) as [[] w']; by rewrite ?IH.
Qed.

Lemma samePaths_refl w : samePaths w w.
Proof. by split_and!. Qed.

Lemma samePaths_saveCache cache reg w :
  samePaths w (saveCache cache (withRegistry reg w)).2.
Proof. unfold saveCache. simpl. by destruct (createDenied w). Qed.

Lemma samePaths_save cache w : samePaths w (saveCache cache w).2.
Proof. unfold saveCache. by destruct (createDenied w). Qed.

Lemma handleAddCommand_samePaths appName command confirm w :
  samePaths w (handleAddCommand appName command confirm w).2.
Proof.
  unfold handleAddCommand.
  destruct (AddCommandToStartup_cases command appName w)
    as [[err ->]|(_ & _ & ->)]; repeat case_match; simpl;
    try apply samePaths_refl; try apply samePaths_saveCache; done.
Qed.

Lemma dispatch_samePaths choice w : samePaths w (dispatch choice w).2.
Proof.
  destruct choice; simpl.
  - unfold handleAddToStartup.
    destruct (AddToStartup_cases exePath (getAppName w exePath) w)
      as [[err ->]|(absPath & _ & ->)]; repeat case_match; simpl;
      try apply samePaths_refl; try apply samePaths_saveCache; done.
  - unfold handleRemoveFromStartup.
    repeat case_match; simpl; try apply samePaths_refl; registry_step;
      try apply samePaths_refl; try apply samePaths_saveCache; done.
  - unfold showStartupStatus. repeat case_match; apply samePaths_refl.
  - revert w. induction rounds as [|[[appName command] confirm] rest IH];
      intros w; [apply samePaths_refl|].
    simpl.
    pose proof (handleAddCommand_samePaths appName command confirm w)
      as Hone.
    destruct (handleAddCommand appName command confirm w) as [[] w'] eqn:Hrun;
      simpl in *; try done.
    apply handleAddCommand_reprompt in Hrun as ->. apply IH.
  - unfold handleEnable.
    repeat case_match; simpl; try apply samePaths_refl; registry_step;
      try apply samePaths_refl; try apply samePaths_saveCache; done.
  - unfold handleDisable.
    repeat case_match; simpl; try apply samePaths_refl; registry_step;
      try apply samePaths_refl; try apply samePaths_saveCache; done.
  - apply samePaths_refl.
  - apply samePaths_refl.
Qed.

Lemma utf8Choice_samePaths w w' choice :
  samePaths w w' → utf8Choice w choice → utf8Choice w' choice.
Proof.
  intros (Habs & Hbase & Hext). destruct choice; simpl; try done.
  unfold getAppName. by rewrite Habs, Hbase, Hext.
Qed.

Lemma showMainMenu_consistent
    (choices : list MenuChoice) (w : World) :
  Forall (utf8Choice w) choices →
  consistent w →
  (showMainMenu choices w).1 ≠ Crashed ∧
  consistent (showMainMenu choices w).2.
Proof.
  revert w. induction choices as [|choice rest IH]; intros w Hall Hc;
    [done|].
  apply Forall_cons in Hall as [Htyped Hall].
  destruct (Choice7_or_not choice) as [->|Hne]; [done|].
  rewrite showMainMenu_step by done.
  destruct (dispatch_consistent choice w Htyped Hc) as [Hnp Hc'].
  pose proof (dispatch_samePaths choice w) as Hpaths.
  assert (Forall (utf8Choice (dispatch choice w).2) rest) as Hall'.
  { eapply Forall_impl; [done|]. intros c. by apply utf8Choice_samePaths. }
  destruct (dispatch choice w) as [[] w']; simpl in *; try done;
    by apply IH.
Qed.

(** A whole run of the menu on a consistent world, with valid UTF-8
    typed at every entry, never crashes and ends in a consistent
    world. *)
Theorem showMainMenu_keeps_consistent
    (choices : list MenuChoice) (w : World) :
  Forall (utf8Choice w) choices →
  consistent w →
  (showMainMenu choices w).1 ≠ Crashed ∧
  consistent (showMainMenu choices w).2.
Proof. apply showMainMenu_consistent. Qed.

Lemma showMainMenu_keeps_consistent_witness :
  consistent
    (showMainMenu [Choice6 (InputNum 1) true; Choice5 (InputNum 1) true;
                   Choice4 [("Baz", "baz.exe", true)]; Choice7]
       (syncCacheFromRegistry map_to_list binaryWorld)).2.
Proof.
  apply showMainMenu_keeps_consistent.
  - apply (bool_decide_unpack _). vm_compute. exact I.
  - apply binaryWorld_synced_consistent.
Defined.

(** The program as a whole.  If at start-up the key can be read, with
    names and values of valid UTF-8 as the [registry] package returns
    them, the cache file can be read and written and loads as a
    document with distinct names (or is absent), and what is typed at
    the menu is valid UTF-8, then the program never panics and at every
    return to the menu the cache file mirrors the Run key as the
    program left it. *)
Theorem program_keeps_cache_in_step
    (range : MapRange) (choices : list MenuChoice) (w : World)
    (cache : CacheData) :
  admissible range →
  openDenied w = false → createDenied w = false →
  denied (registry w) OpenQuery = false →
  denied (registry w) EnumValues = false →
  denied (registry w) QueryValue = false →
  utf8Snapshot (snapshot (registry w)) →
  Forall (utf8Choice w) choices →
  loadCache w = Ok cache →
  uniqueNames cache →
  (program range choices w).1 ≠ Crashed ∧
  consistent (program range choices w).2.
Proof.
  intros Hr Hopen Hcreate Hq He Hv Hsnap Htyped Hload Hu. unfold program.
  apply showMainMenu_consistent.
  - eapply Forall_impl; [done|]. intros c. apply utf8Choice_samePaths.
    rewrite (sync_runs range w cache) by done. apply samePaths_save.
  - by apply (sync_consistent range w cache).
Qed.

Lemma program_keeps_cache_in_step_witness :
  (program map_to_list
     [Choice2 (InputNum 1) true; Choice1 "app.exe" false true; Choice7]
     staleWorld).1 ≠ Crashed ∧
  consistent
    (program map_to_list
       [Choice2 (InputNum 1) true; Choice1 "app.exe" false true; Choice7]
       staleWorld).2.
Proof.
  apply (program_keeps_cache_in_step map_to_list _ staleWorld
           {| Items := [fooOn] |}); try reflexivity.
  - intros m. reflexivity.
  - apply (bool_decide_unpack _). vm_compute. exact I.
  - apply (bool_decide_unpack _). vm_compute. exact I.
  - apply (bool_decide_unpack _). vm_compute. exact I.
Defined.

(** ** Names derived from paths *)

Lemma length_append s t :
  String.length (s +:+ t) = (String.length s + String.length t)%nat.
Proof. induction s as [|a s IH]; simpl; [done|]. by rewrite IH. Qed.

Lemma substring_all s : String.substring 0 (String.length s) s = s.
Proof. induction s as [|a s IH]; simpl; [done|]. by rewrite IH. Qed.

Lemma substring_prefix s t :
  String.substring 0 (String.length s) (s +:+ t) = s.
Proof.
  induction s as [|a s IH]; simpl; [by destruct t|]. by rewrite IH.
Qed.

Lemma substring_suffix s t :
  String.substring (String.length s) (String.length t) (s +:+ t) = t.
Proof. induction s as [|a s IH]; simpl; [apply substring_all|done]. Qed.

Lemma substring_split s m :
  (m ≤ String.length s)%nat →
  s = String.substring 0 m s +:+
      String.substring m (String.length s - m) s.
Proof.
  revert m. induction s as [|a s IH]; intros [|m] Hm; simpl in *;
    try done; try lia.
  - by rewrite substring_all.
  - change (String a s =
            String a (String.substring 0 m s +:+
                      String.substring m (String.length s - m) s)).
    f_equal. apply IH. lia.
Qed.

(** [getAppName] takes the extension off the base name: when the base
    name of the path is a stem followed by the extension that
    [filepath.Ext] reports for it, the name is the stem; and in every
    case the name is the base name or the base name without that
    extension at its end. *)
Theorem getAppName_stem (w : World) (exePath stem : string) :
  (filepath_Base w exePath =
     stem +:+ filepath_Ext w (filepath_Base w exePath) →
   getAppName w exePath = stem) ∧
  (getAppName w exePath = filepath_Base w exePath ∨
   filepath_Base w exePath =
     getAppName w exePath +:+ filepath_Ext w (filepath_Base w exePath)).
Proof.
  unfold getAppName, TrimSuffix. split.
  - set (ext := filepath_Ext w (filepath_Base w exePath)).
    intros ->. rewrite length_append.
    replace (String.length ext <=? String.length stem + String.length ext)%nat
      with true by (symmetry; apply Nat.leb_le; lia).
    replace (String.length stem + String.length ext - String.length ext)%nat
      with (String.length stem) by lia.
    rewrite substring_suffix, String.eqb_refl. simpl.
    apply substring_prefix.
  - set (base := filepath_Base w exePath).
    set (ext := filepath_Ext w base).
    destruct (String.length ext <=? String.length base)%nat eqn:Hle;
      simpl; [|by left].
    destruct (String.eqb _ ext) eqn:Heq; [|by left]. right.
    apply String.eqb_eq in Heq. apply Nat.leb_le in Hle.
    pose proof (substring_split base
                  (String.length base - String.length ext)) as Hsplit.
    replace (String.length base -
             (String.length base - String.length ext))%nat
      with (String.length ext) in Hsplit by lia.
    rewrite Heq in Hsplit. apply Hsplit. lia.
Qed.

Lemma getAppName_stem_witness :
  filepath_Ext exeWorld (filepath_Base exeWorld "notepad.exe") = ".exe" ∧
  getAppName exeWorld "notepad.exe" = "notepad".
Proof.
  split; [reflexivity|].
  apply (getAppName_stem exeWorld "notepad.exe" "notepad").
  reflexivity.
Defined.

(** ** Asking the key *)

Lemma trimRightByte_snoc s c :
  trimRightByte (s +:+ String c EmptyString) c = trimRightByte s c.
Proof.
  induction s as [|a s IH]; simpl.
  - by rewrite Ascii.eqb_refl.
  - by rewrite IH.
Qed.

Lemma TrimByte_wrapped s c :
  TrimByte (String c (s +:+ String c EmptyString)) c = TrimByte s c.
Proof.
  unfold TrimByte. cbn [trimRightByte]. rewrite trimRightByte_snoc.
  destruct (trimRightByte s c) as [|a kept] eqn:Hs.
  - rewrite Ascii.eqb_refl. done.
  - cbn [trimLeftByte]. by rewrite Ascii.eqb_refl.
Qed.

Lemma TrimByte_quoted s :
  TrimByte (quoted s) (Ascii.ascii_of_nat 34) =
  TrimByte s (Ascii.ascii_of_nat 34).
Proof. apply TrimByte_wrapped. Qed.

(** After [AddToStartup] succeeded, [IsInStartup] for the same path and
    name answers yes, provided the key can be queried, the absolute
    path is its own absolute path and it neither begins nor ends with a
    double quote. *)
Theorem IsInStartup_after_AddToStartup
    (exePath appName absPath : string) (w w' : World) :
  AddToStartup exePath appName w = (None, w') →
  filepath_Abs w exePath = Some absPath →
  filepath_Abs w absPath = Some absPath →
  TrimByte absPath (Ascii.ascii_of_nat 34) = absPath →
  denied (registry w) OpenQuery = false →
  denied (registry w) QueryValue = false →
  IsInStartup exePath appName w' = Ok true.
Proof.
  intros Hadd Habs Hidem Htrim Hq Hv.
  destruct (AddToStartup_cases exePath appName w)
    as [[err Herr]|(absPath' & Habs' & Hok)]; [congruence|].
  rewrite Hok in Hadd. injection Hadd as <-.
  assert (absPath' = absPath) as -> by congruence.
  unfold IsInStartup, OpenKey. cbn [registry withRegistry denied].
  rewrite Hq. unfold GetStringValue. cbn [registry withRegistry denied values].
  rewrite Hv, lookup_insert_eq.
  cbn [filepath_Abs withRegistry]. rewrite Habs.
  rewrite TrimByte_quoted, Htrim, Hidem. simpl.
  by rewrite bool_decide_eq_true_2.
Qed.

Lemma IsInStartup_after_AddToStartup_witness :
  IsInStartup "C:\app.exe" "app"
    (AddToStartup "C:\app.exe" "app" freshWorld).2 = Ok true.
Proof.
  apply (IsInStartup_after_AddToStartup "C:\app.exe" "app" "C:\app.exe"
           freshWorld); reflexivity.
Defined.

(** The two queries report a value that is not there as "no" without an
    error; a value that is there but is not a string is an error, and so
    is a key that cannot be opened. *)
Theorem queries_on_missing_and_unreadable
    (exePath appName : string) (w : World) :
  (denied (registry w) OpenQuery = false →
   denied (registry w) QueryValue = false →
   values (registry w) !! appName = None →
   IsInStartup exePath appName w = Ok false ∧
   IsCommandInStartup appName w = Ok false) ∧
  (denied (registry w) OpenQuery = false →
   denied (registry w) QueryValue = false →
   values (registry w) !! appName = Some NonString →
   IsInStartup exePath appName w = Err (QueryValueFailed ErrUnexpectedType) ∧
   IsCommandInStartup appName w =
     Err (QueryValueFailed ErrUnexpectedType)) ∧
  (denied (registry w) OpenQuery = true →
   IsInStartup exePath appName w = Err (QueryOpenFailed ErrAccessDenied) ∧
   IsCommandInStartup appName w = Err (QueryOpenFailed ErrAccessDenied)).
Proof.
  unfold IsInStartup, IsCommandInStartup, OpenKey, GetStringValue.
  split_and!.
  - intros -> -> ->. done.
  - intros -> -> ->. done.
  - intros ->. done.
Qed.

Lemma queries_on_missing_and_unreadable_witness :
  IsCommandInStartup "Foo" goneWorld = Ok false ∧
  IsCommandInStartup "Foo" binaryWorld =
    Err (QueryValueFailed ErrUnexpectedType).
Proof.
  destruct (queries_on_missing_and_unreadable "foo.exe" "Foo" goneWorld)
    as (Hmissing & _ & _).
  destruct (queries_on_missing_and_unreadable "foo.exe" "Foo" binaryWorld)
    as (_ & Hbinary & _).
  split.
  - apply Hmissing; reflexivity.
  - apply Hbinary; reflexivity.
Defined.

(** [IsCommandInStartup] follows the writes of the program: yes after
    [AddCommandToStartup] succeeded, no after [RemoveFromStartup]
    succeeded. *)
Theorem IsCommandInStartup_follows_writes
    (command appName : string) (w w' : World) :
  denied (registry w) OpenQuery = false →
  denied (registry w) QueryValue = false →
  (AddCommandToStartup command appName w = (None, w') →
   IsCommandInStartup appName w' = Ok true) ∧
  (RemoveFromStartup appName w = (None, w') →
   IsCommandInStartup appName w' = Ok false).
Proof.
  intros Hq Hv. split; intros Hrun.
  - destruct (AddCommandToStartup_cases command appName w)
      as [[err Herr]|(_ & _ & Hok)]; [congruence|].
    rewrite Hok in Hrun. injection Hrun as <-.
    unfold IsCommandInStartup, OpenKey. simpl. rewrite Hq.
    unfold GetStringValue. simpl. by rewrite Hv, lookup_insert_eq.
  - destruct (RemoveFromStartup_cases appName w)
      as [[err Herr]|[_ Hok]]; [congruence|].
    rewrite Hok in Hrun. injection Hrun as <-.
    unfold IsCommandInStartup, OpenKey. simpl. rewrite Hq.
    unfold GetStringValue. simpl. by rewrite Hv, lookup_delete_eq.
Qed.

Lemma IsCommandInStartup_follows_writes_witness :
  IsCommandInStartup "Baz"
    (AddCommandToStartup "baz.exe" "Baz" syncedWorld).2 = Ok true.
Proof.
  apply (IsCommandInStartup_follows_writes "baz.exe" "Baz" syncedWorld);
    reflexivity.
Defined.

(** Adding a command under a name the key does not have and removing
    it again restores the world; adding it twice is adding it once. *)
Theorem add_then_remove_restores
    (command appName : string) (w : World) :
  denied (registry w) OpenSet = false →
  denied (registry w) WriteValue = false →
  (values (registry w) !! appName = None →
   denied (registry w) RemoveValue = false →
   RemoveFromStartup appName (AddCommandToStartup command appName w).2 =
     (None, w)) ∧
  AddCommandToStartup command appName
    (AddCommandToStartup command appName w).2 =
  AddCommandToStartup command appName w.
Proof.
  intros Hopen Hset.
  destruct (AddCommandToStartup_cases command appName w)
    as [[err Herr]|(_ & _ & Hok)].
  { unfold AddCommandToStartup, OpenKey, SetStringValue in Herr.
    by rewrite Hopen, Hset in Herr. }
  rewrite Hok. simpl. split.
  - intros Hnone Hdel.
    unfold RemoveFromStartup, OpenKey. simpl. rewrite Hopen.
    unfold DeleteValue. simpl. rewrite Hdel, lookup_insert_eq. f_equal.
    rewrite delete_insert_id by done. by destruct w as [[]].
  - unfold AddCommandToStartup, OpenKey. simpl. rewrite Hopen.
    unfold SetStringValue. simpl. rewrite Hset.
    by rewrite insert_insert_eq.
Qed.

Lemma add_then_remove_restores_witness :
  RemoveFromStartup "Baz" (AddCommandToStartup "baz.exe" "Baz" syncedWorld).2
    = (None, syncedWorld).
Proof.
  apply (add_then_remove_restores "baz.exe" "Baz" syncedWorld);
    reflexivity.
Defined.

(** ** The lists shown by Enable and Disable *)

(** Every cached item is shown by exactly one of the two handlers:
    together the two lists are the items of the document. *)
Theorem enabled_disabled_partition (cache : CacheData) :
  enabledItems cache ++ disabledItems cache ≡ₚ
    toListItem <$> Items cache ∧
  length (enabledItems cache) + length (disabledItems cache) =
    length (Items cache).
Proof.
  assert (enabledItems cache ++ disabledItems cache ≡ₚ
          toListItem <$> Items cache) as Hperm.
  { unfold enabledItems, disabledItems. rewrite <- fmap_app.
    apply fmap_Permutation.
    rewrite <- (filter_app_complement (λ item, Enabled item = true)
                  (Items cache)) at 3.
    apply Permutation_app_head.
    assert (filter (λ item, Enabled item = false) (Items cache) =
            filter (λ item, ¬ Enabled item = true) (Items cache)) as ->;
      [|done].
    apply filter_ext_in. intros item _. by destruct (Enabled item). }
  split; [done|].
  apply Permutation_length in Hperm.
  by rewrite length_app, length_fmap in Hperm.
Qed.

(** ** The snapshot loop *)

(** The loop that fills [registryItems] from a list of value names: the
    map has a name exactly when the name is in the list and its string
    value can be read, and it has that value; the order of the list
    and repeated names make no difference. *)
Theorem collectRegistryItems_spec
    (key : Registry) (valueNames : list string) (name value : string) :
  collectRegistryItems key valueNames !! name = Some value ↔
  name ∈ valueNames ∧ GetStringValue key name = Ok value.
Proof.
  unfold collectRegistryItems. rewrite collect_lookup, lookup_empty.
  case_decide as Hin.
  - destruct (GetStringValue key name) as [v|e]; split.
    + by intros [= ->].
    + by intros [_ [= ->]].
    + done.
    + by intros [_ ?].
  - split; [done|]. by intros [? _].
Qed.

(** ** Successful writes *)

Lemma saved_item_found cache name value enabled w :
  createDenied w = false →
  utf8Doc cache → utf8 name → utf8 value →
  ∃ doc (k : nat),
    cachedDoc (saveCache (addOrUpdateItem cache name value enabled) w).2 =
      Some doc ∧
    findItemByName doc name =
      (Z.of_nat k,
       Some {| Name := name; Value := value; Enabled := enabled |}).
Proof.
  intros Hcreate Hvalid Hn Hv.
  rewrite saveCache_utf8 by (by apply utf8Doc_addOrUpdateItem).
  rewrite Hcreate. simpl.
  destruct (addOrUpdateItem_sets cache name value enabled) as [k Hf].
  exists (addOrUpdateItem cache name value enabled), k.
  split; [done|]. by apply findItemByName_first.
Qed.

(** When adding a program or a command reports success, the key has
    the value under the name, and, if the cache file can be written and
    the name and the value are valid UTF-8, a lookup of the name in the
    saved document finds an enabled item with that same value: the
    value the handler computes for the cache is the one [AddToStartup]
    wrote. *)
Theorem add_success_registry_and_cache_agree
    (exePath appName command : string) (confirmReset confirm : bool)
    (w w' : World) :
  (handleAddToStartup exePath confirmReset confirm w = (Succeeded, w') →
   ∃ absPath,
     filepath_Abs w exePath = Some absPath ∧
     registryString w' (getAppName w exePath) = Some (quoted absPath) ∧
     (createDenied w = false →
      utf8 (getAppName w exePath) → utf8 (quoted absPath) →
      ∃ doc (k : nat),
        cachedDoc w' = Some doc ∧
        findItemByName doc (getAppName w exePath) =
          (Z.of_nat k,
           Some {| Name := getAppName w exePath; Value := quoted absPath;
                   Enabled := true |}))) ∧
  (handleAddCommand appName command confirm w = (Succeeded, w') →
   registryString w' appName = Some command ∧
   (createDenied w = false → utf8 appName → utf8 command →
    ∃ doc (k : nat),
      cachedDoc w' = Some doc ∧
      findItemByName doc appName =
        (Z.of_nat k,
         Some {| Name := appName; Value := command; Enabled := true |}))).
Proof.
  split.
  - unfold handleAddToStartup.
    destruct (AddToStartup_cases exePath (getAppName w exePath) w)
      as [[err ->]|(absPath & Habs & ->)]; rewrite ?Habs;
      repeat case_match; simpl; try done.
    all: intros [= <-]; exists absPath; split_and!; [done| |].
    all: try (unfold registryString;
              rewrite (proj1 (saveCache_registry _ _)); simpl;
              by rewrite lookup_insert_eq).
    all: intros Hcreate Hn Hv; apply saved_item_found; try done.
    all: by eapply loadCache_utf8.
  - unfold handleAddCommand.
    destruct (AddCommandToStartup_cases command appName w)
      as [[err ->]|(_ & _ & ->)]; repeat case_match; simpl; try done.
    all: intros [= <-]; split.
    all: try (unfold registryString;
              rewrite (proj1 (saveCache_registry _ _)); simpl;
              by rewrite lookup_insert_eq).
    all: intros Hcreate Hn Hv; apply saved_item_found; try done.
    all: by eapply loadCache_utf8.
Qed.

Lemma add_success_registry_and_cache_agree_witness :
  registryString (handleAddCommand "Baz" "baz.exe" true syncedWorld).2 "Baz"
    = Some "baz.exe" ∧
  ∃ doc (k : nat),
    cachedDoc (handleAddCommand "Baz" "baz.exe" true syncedWorld).2 =
      Some doc ∧
    findItemByName doc "Baz" =
      (Z.of_nat k,
       Some {| Name := "Baz"; Value := "baz.exe"; Enabled := true |}).
Proof.
  destruct (add_success_registry_and_cache_agree "app.exe" "Baz" "baz.exe"
              false true syncedWorld
              (handleAddCommand "Baz" "baz.exe" true syncedWorld).2)
    as [_ Hcommand].
  destruct Hcommand as [Hreg Hdoc]; [vm_compute; reflexivity|].
  split; [exact Hreg|]. apply Hdoc; reflexivity.
Defined.

(** ** Errors of [saveCache] are dropped *)

Lemma saveCache_denied cache w :
  createDenied w = true → (saveCache cache w).2 = w.
Proof. intros H. unfold saveCache. by rewrite H. Qed.

Lemma handleAddCommand_cache_readonly appName command confirm w :
  createDenied w = true →
  cacheFile (handleAddCommand appName command confirm w).2 = cacheFile w.
Proof.
  intros Hcreate. unfold handleAddCommand.
  destruct (AddCommandToStartup_cases command appName w)
    as [[err ->]|(_ & _ & ->)]; repeat case_match; simpl; try done.
  all: by rewrite saveCache_denied.
Qed.

Lemma handleAddCommandLoop_cache_readonly rounds w :
  createDenied w = true →
  cacheFile (handleAddCommandLoop rounds w).2 = cacheFile w.
Proof.
  induction rounds as [|[[appName command] confirm] rest IH];
    intros Hcreate; [done|].
  simpl.
  pose proof (handleAddCommand_cache_readonly appName command confirm w
                Hcreate) as Hone.
  destruct (handleAddCommand appName command confirm w) as [[] w'] eqn:Hrun;
    simpl in *; try done.
  apply handleAddCommand_reprompt in Hrun as ->. by apply IH.
Qed.

(** No caller looks at the error of [saveCache].  When the cache file
    cannot be created, no menu entry and no Sync changes it, and an
    add that wrote the registry still reports success: the key then has
    the new value and the cache file is the old one. *)
Theorem save_errors_are_dropped
    (range : MapRange) (choice : MenuChoice) (appName command : string)
    (cache : CacheData) (w : World) :
  createDenied w = true →
  cacheFile (dispatch choice w).2 = cacheFile w ∧
  syncCacheFromRegistry range w = w ∧
  (loadCache w = Ok cache →
   denied (registry w) OpenSet = false →
   denied (registry w) WriteValue = false →
   appName ≠ "b" → appName ≠ "B" → appName ≠ EmptyString →
   command ≠ "b" → command ≠ "B" → command ≠ EmptyString →
   (handleAddCommand appName command true w).1 = Succeeded ∧
   registryString (handleAddCommand appName command true w).2 appName =
     Some command ∧
   loadCache (handleAddCommand appName command true w).2 = Ok cache).
Proof.
  intros Hcreate. split_and!.
  - destruct choice; simpl.
    + unfold handleAddToStartup.
      destruct (AddToStartup_cases exePath (getAppName w exePath) w)
        as [[err ->]|(absPath & _ & ->)]; repeat case_match; simpl;
        try done.
      all: by rewrite saveCache_denied.
    + unfold handleRemoveFromStartup.
      repeat case_match; simpl; try done; registry_step; try done.
      by rewrite saveCache_denied.
    + unfold showStartupStatus. by repeat case_match.
    + by apply handleAddCommandLoop_cache_readonly.
    + unfold handleEnable.
      repeat case_match; simpl; try done; registry_step; try done.
      by rewrite saveCache_denied.
    + unfold handleDisable.
      repeat case_match; simpl; try done; registry_step; try done.
      by rewrite saveCache_denied.
    + done.
    + done.
  - unfold syncCacheFromRegistry. repeat case_match; try done.
    by apply saveCache_denied.
  - intros Hload Hopen Hset Hb HB He Hcb HcB Hce.
    unfold handleAddCommand.
    rewrite !bool_decide_eq_false_2 by done. simpl.
    rewrite !decide_False by done. simpl.
    unfold AddCommandToStartup, OpenKey. rewrite Hopen.
    unfold SetStringValue. rewrite Hset.
    rewrite loadCache_withRegistry, Hload. simpl.
    rewrite saveCache_denied by done. simpl.
    split_and!; [done| |done].
    unfold registryString. simpl. by rewrite lookup_insert_eq.
Qed.

Lemma save_errors_are_dropped_witness :
  (handleAddCommand "Baz" "baz.exe" true
     (mkWorld (registry syncedWorld) (cacheFile syncedWorld) false true
        Some id (λ _, EmptyString) allFiles)).1 = Succeeded.
Proof.
  apply (save_errors_are_dropped map_to_list Choice7 "Baz" "baz.exe"
           {| Items := [fooOn; barOn] |}
           (mkWorld (registry syncedWorld) (cacheFile syncedWorld) false true
              Some id (λ _, EmptyString) allFiles));
    try reflexivity; discriminate.
Defined.
